(** * fastfixupfinder: the fixup-target discovery engine

    A shallow embedding of [src/fastfixupfinder/git_analyzer.py] and of
    the two readers of [src/fastfixupfinder/fixup_creator.py] (of a typed
    selection, of the hunks of a diff), the properties the specification
    states about the former, and further properties read off the code.

    Layout: the Python run-time pieces the module relies on ([str]
    methods, exceptions, [re], [difflib]), then the data model, then the
    classifier, the diff parser, the reconciler, the aggregator and the two
    filters, each translated function by function; the theorems follow. *)

From Stdlib Require Import String Ascii.
From Stdlib Require Import List Bool ZArith NArith QArith Lia.
Import ListNotations.

Local Open Scope Z_scope.

(* ===================================================================== *)
(** * Python values                                                       *)
(* ===================================================================== *)

(** A Python [str] is a sequence of Unicode code points. *)
Definition str : Type := list N.

(** [u "abc"] is the [str] of an ASCII literal of the source. *)
Definition u (s : string) : str := map N_of_ascii (list_ascii_of_string s).

Definition str_eqb (a b : str) : bool :=
  if list_eq_dec N.eq_dec a b then true else false.

(** [len(s)] *)
Definition len {A : Type} (l : list A) : Z := Z.of_nat (length l).

(** Truthiness of a [str] and of an [Optional[str]]. *)
Definition truthy (s : str) : bool :=
  match s with [] => false | _ => true end.

Definition truthy_opt (o : option str) : bool :=
  match o with Some s => truthy s | None => false end.

(** The exceptions the module can raise or let through. *)
Inductive exn : Type :=
| UnboundLocalError
| ZeroDivisionError
| TypeError
| ValueError
| IndexError
| GitCommandError        (* git.exc.GitCommandError *)
| BadName                (* git.exc.BadName *)
| OtherError (name : string).

(** A computation that returns or raises. *)
Inductive result (A : Type) : Type :=
| Ok (a : A)
| Raise (e : exn).
Arguments Ok {A} a.
Arguments Raise {A} e.

Definition rbind {A B : Type} (c : result A) (k : A -> result B) : result B :=
  match c with
  | Ok a => k a
  | Raise e => Raise e
  end.

Declare Scope result_scope.
Delimit Scope result_scope with result.
Notation "x <- c ;; k" := (rbind c (fun x => k))
  (at level 61, c at next level, right associativity) : result_scope.
Local Open Scope result_scope.

(** A [for] loop whose body may raise: the state is threaded left to right
    and the first exception ends the loop. *)
Fixpoint for_each {A S : Type} (body : S -> A -> result S) (l : list A) (s : S)
  : result S :=
  match l with
  | [] => Ok s
  | x :: l' => s' <- body s x ;; for_each body l' s'
  end.

(** ** [str] methods *)

(** [c.isspace()]: the complete list of the Unicode database (it is also
    what [\s] matches in a [str] pattern). *)
Definition isspace (c : N) : bool :=
  existsb (N.eqb c)
    [9; 10; 11; 12; 13; 28; 29; 30; 31; 32; 133; 160; 5760;
     8192; 8193; 8194; 8195; 8196; 8197; 8198; 8199; 8200; 8201; 8202;
     8232; 8233; 8239; 8287; 12288]%N.

Fixpoint lstrip (s : str) : str :=
  match s with
  | c :: s' => if isspace c then lstrip s' else s
  | [] => []
  end.

Definition rstrip (s : str) : str := rev (lstrip (rev s)).

(** [s.strip()] *)
Definition strip (s : str) : str := rstrip (lstrip s).

(** [s.startswith(p)] *)
Fixpoint startswith (p s : str) : bool :=
  match p, s with
  | [], _ => true
  | a :: p', b :: s' => N.eqb a b && startswith p' s'
  | _ :: _, [] => false
  end.

(** [s.split(sep)] for a one-character separator: always at least one
    piece. *)
Fixpoint split_on (sep : N) (s : str) : list str :=
  match s with
  | [] => [[]]
  | c :: s' =>
      if N.eqb c sep then [] :: split_on sep s'
      else match split_on sep s' with
           | piece :: rest => (c :: piece) :: rest
           | [] => [[c]]
           end
  end.

(** [c in s] for a one-character [c]. *)
Definition contains_char (c : N) (s : str) : bool := existsb (N.eqb c) s.

(** [s[:n]] *)
Definition prefix (n : nat) (s : str) : str := firstn n s.

(** The parts of the Unicode database that are too large to list: case
    mapping, the alphanumeric and decimal-digit properties and the value of
    a decimal digit.  Everything below is stated for an arbitrary database;
    [latin1] (further down) is the one used to run examples. *)
Class UnicodeDB : Type := {
  str_lower : str -> str;       (* s.lower() *)
  isalnum : N -> bool;          (* \w is isalnum or '_' *)
  isdecimal : N -> bool;        (* \d *)
  decimal_value : N -> Z        (* the digit's value, for int() *)
}.

(** [int(s)] on a non-empty run of decimal digits (the only strings the
    parser converts).  The limit recent interpreters put on the number of
    digits (4300 by default) is not modelled. *)
Definition int_of_digits `{UnicodeDB} (s : str) : Z :=
  fold_left (fun acc c => 10 * acc + decimal_value c) s 0.

(* ===================================================================== *)
(** * Python's [re], as far as the module's patterns need it              *)
(* ===================================================================== *)

Module Re.

(** What one position of a pattern can ask of one character. *)
Inductive item : Type :=
| Lit (c : N)             (* the character itself *)
| Range (lo hi : N)       (* a-z inside a set *)
| Dot                     (* .  : anything but a newline *)
| Space                   (* \s *)
| NotSpace                (* \S *)
| Word                    (* \w *)
| Digit.                  (* \d *)

Inductive regex : Type :=
| Empty
| Chr (i : item)
| OneOf (items : list item)       (* [...]  *)
| NoneOf (items : list item)      (* [^...] *)
| Bol                             (* ^  *)
| Eol                             (* $  *)
| WordBoundary                    (* \b *)
| Seq (a b : regex)
| Alt (a b : regex)               (* a|b *)
| Star (a : regex)                (* a*, greedy *)
| Group (n : nat) (a : regex).    (* the n-th capturing group *)

(** [a+], [a?] and concatenation of a list of pieces. *)
Definition Plus (a : regex) : regex := Seq a (Star a).
Definition Opt (a : regex) : regex := Alt a Empty.

Fixpoint cat (rs : list regex) : regex :=
  match rs with
  | [] => Empty
  | [r] => r
  | r :: rs' => Seq r (cat rs')
  end.

Fixpoint alts (rs : list regex) : regex :=
  match rs with
  | [] => Empty
  | [r] => r
  | r :: rs' => Alt r (alts rs')
  end.

(** A literal piece of a pattern. *)
Definition lit (s : string) : regex := cat (map (fun c => Chr (Lit c)) (u s)).

Section Engine.
Context `{UnicodeDB}.

Definition is_word (c : N) : bool := isalnum c || N.eqb c 95.

Definition item_matches (i : item) (c : N) : bool :=
  match i with
  | Lit d => N.eqb c d
  | Range lo hi => N.leb lo c && N.leb c hi
  | Dot => negb (N.eqb c 10)
  | Space => isspace c
  | NotSpace => negb (isspace c)
  | Word => is_word c
  | Digit => isdecimal c
  end.

(** The matcher's position in the subject: how many characters are behind
    it, the last of them, what is ahead, and the groups closed so far
    (latest first). *)
Record mstate : Type := {
  pos : nat;
  prev : option N;
  rest : str;
  caps : list (nat * (nat * nat))
}.

Definition eat (p : N -> bool) (st : mstate) (k : mstate -> option mstate)
  : option mstate :=
  match rest st with
  | c :: rest' =>
      if p c
      then k {| pos := S (pos st); prev := Some c; rest := rest'; caps := caps st |}
      else None
  | [] => None
  end.

Definition is_word_opt (o : option N) : bool :=
  match o with Some c => is_word c | None => false end.

(** Greedy repetition of a matcher [body]: one more round when it can be
    made and the rest then succeeds, else the continuation.  A round that
    consumes nothing is not taken; [fuel] bounds the rounds by the number
    of characters ahead. *)
Fixpoint star_loop (body : mstate -> (mstate -> option mstate) -> option mstate)
    (k : mstate -> option mstate) (fuel : nat) (st : mstate) : option mstate :=
  match fuel with
  | O => k st
  | S fuel' =>
      match body st (fun st' =>
                       if Nat.ltb (pos st) (pos st')
                       then star_loop body k fuel' st' else None) with
      | Some m => Some m
      | None => k st
      end
  end.

(** Backtracking matcher in continuation-passing style: [run r st k] tries
    the ways [r] can match at [st] in Python's order of preference (greedy
    repetition, left alternative first) and returns the first for which the
    continuation [k] succeeds. *)
Fixpoint run (r : regex) (st : mstate) (k : mstate -> option mstate)
  {struct r} : option mstate :=
  match r with
  | Empty => k st
  | Chr i => eat (item_matches i) st k
  | OneOf items => eat (fun c => existsb (fun i => item_matches i c) items) st k
  | NoneOf items =>
      eat (fun c => negb (existsb (fun i => item_matches i c) items)) st k
  | Bol => if Nat.eqb (pos st) 0 then k st else None
  | Eol =>
      match rest st with
      | [] => k st
      | [10%N] => k st
      | _ => None
      end
  | WordBoundary =>
      if xorb (is_word_opt (prev st)) (is_word_opt (hd_error (rest st)))
      then k st else None
  | Seq a b => run a st (fun st' => run b st' k)
  | Alt a b =>
      match run a st k with
      | Some m => Some m
      | None => run b st k
      end
  | Star a => star_loop (run a) k (length (rest st)) st
  | Group n a =>
      run a st (fun st' =>
        k {| pos := pos st'; prev := prev st'; rest := rest st';
             caps := (n, (pos st, pos st')) :: caps st' |})
  end.

(** A match object: where the match starts and ends, and its groups. *)
Record match_object : Type := {
  m_subject : str;
  m_start : nat;
  m_end : nat;
  m_caps : list (nat * (nat * nat))
}.

Fixpoint search_from (r : regex) (subject : str) (p : nat) (before : option N)
    (ahead : str) {struct ahead} : option match_object :=
  match run r {| pos := p; prev := before; rest := ahead; caps := [] |} Some with
  | Some st =>
      Some {| m_subject := subject; m_start := p; m_end := pos st;
              m_caps := caps st |}
  | None =>
      match ahead with
      | c :: ahead' => search_from r subject (S p) (Some c) ahead'
      | [] => None
      end
  end.

(** [re.search(r, s)]: the leftmost match. *)
Definition search (r : regex) (s : str) : option match_object :=
  search_from r s 0 None s.

Definition slice (s : str) (i j : nat) : str := firstn (j - i) (skipn i s).

Fixpoint lookup_cap (n : nat) (cs : list (nat * (nat * nat)))
  : option (nat * nat) :=
  match cs with
  | [] => None
  | (m, span) :: cs' => if Nat.eqb n m then Some span else lookup_cap n cs'
  end.

(** [m.group(n)]; group 0 is the whole match, a group that took no part in
    the match is [None]. *)
Definition group (m : match_object) (n : nat) : option str :=
  match n with
  | O => Some (slice (m_subject m) (m_start m) (m_end m))
  | _ =>
      match lookup_cap n (m_caps m) with
      | Some (i, j) => Some (slice (m_subject m) i j)
      | None => None
      end
  end.

Definition matches (r : regex) (s : str) : bool :=
  match search r s with Some _ => true | None => false end.

(** What one successful pass over a pattern does to the matcher's
    position, read off the pattern alone: the relation the matcher is
    checked against. *)
Inductive ate (p : N -> bool) : mstate -> mstate -> Prop :=
| ate_char (st : mstate) (c : N) (rest' : str) :
    rest st = c :: rest' -> p c = true ->
    ate p st {| pos := S (pos st); prev := Some c; rest := rest'; caps := caps st |}.

Inductive steps : regex -> mstate -> mstate -> Prop :=
| steps_Empty st : steps Empty st st
| steps_Chr i st st' : ate (item_matches i) st st' -> steps (Chr i) st st'
| steps_OneOf items st st' :
    ate (fun c => existsb (fun i => item_matches i c) items) st st' ->
    steps (OneOf items) st st'
| steps_NoneOf items st st' :
    ate (fun c => negb (existsb (fun i => item_matches i c) items)) st st' ->
    steps (NoneOf items) st st'
| steps_Bol st : pos st = O -> steps Bol st st
| steps_Eol st : rest st = [] \/ rest st = [10%N] -> steps Eol st st
| steps_WordBoundary st :
    xorb (is_word_opt (prev st)) (is_word_opt (hd_error (rest st))) = true ->
    steps WordBoundary st st
| steps_Seq a b st mid st' :
    steps a st mid -> steps b mid st' -> steps (Seq a b) st st'
| steps_Alt_left a b st st' : steps a st st' -> steps (Alt a b) st st'
| steps_Alt_right a b st st' : steps b st st' -> steps (Alt a b) st st'
| steps_Star_stop a st : steps (Star a) st st
| steps_Star_more a st mid st' :
    steps a st mid -> (pos st < pos mid)%nat -> steps (Star a) mid st' ->
    steps (Star a) st st'
| steps_Group n a st mid :
    steps a st mid ->
    steps (Group n a) st
      {| pos := pos mid; prev := prev mid; rest := rest mid;
         caps := (n, (pos st, pos mid)) :: caps mid |}.

End Engine.
End Re.

(** A Unicode database that is exact on the code points below 256 and on
    U+0130, the one character whose lower-case form is two code points;
    every other character is taken as caseless and neither a letter nor a
    digit. Used to run the model on concrete inputs only. *)
Definition latin1_upper (c : N) : bool :=
  ((65 <=? c) && (c <=? 90) || (192 <=? c) && (c <=? 222) && negb (c =? 215))%N.

Definition latin1_lower_char (c : N) : str :=
  if (c =? 304)%N then [105; 775]%N
  else if latin1_upper c then [(c + 32)%N] else [c].

Definition latin1_isalnum (c : N) : bool :=
  ((48 <=? c) && (c <=? 57) || (65 <=? c) && (c <=? 90)
   || (97 <=? c) && (c <=? 122)
   || existsb (N.eqb c) [170; 178; 179; 181; 185; 186; 188; 189; 190]
   || (192 <=? c) && (c <=? 255) && negb (c =? 215) && negb (c =? 247)
   || (c =? 304))%N.

Definition latin1 : UnicodeDB := {|
  str_lower := flat_map latin1_lower_char;
  isalnum := latin1_isalnum;
  isdecimal := fun c => ((48 <=? c) && (c <=? 57))%N;
  decimal_value := fun c => Z.of_N c - 48
|}.

(* ===================================================================== *)
(** * Python's [difflib.SequenceMatcher(None, a, b).ratio()]              *)
(* ===================================================================== *)

(** Python floats are modelled by the rationals they round: the module
    only divides one length or count by another and compares the quotient
    with a literal or with another such quotient; division is correctly
    rounded and rounding is monotone, so for sequences of fewer than 2^26
    elements every comparison below gives the answer the floats give. *)
Definition Qgtb (a b : Q) : bool := negb (Qle_bool a b).
Definition Qgeb (a b : Q) : bool := Qle_bool b a.
Definition Qltb (a b : Q) : bool := negb (Qle_bool b a).

Module Difflib.

(** With [autojunk] on (the default) an element of [b] that occurs more
    than [len(b) // 100 + 1] times is left out of the index [b2j] when
    [len(b) >= 200]. *)
Definition popular (b : str) (x : N) : bool :=
  (200 <=? length b)%nat
  && (length b / 100 + 1 <? length (filter (N.eqb x) b))%nat.

(** One row of [find_longest_match]'s table: [newj2len[j]] for the element
    [x] of [a], given the row before shifted by one ([j2len[j-1]]). *)
Fixpoint row (pop : N -> bool) (x : N) (bs : str) (diag : list nat) : list nat :=
  match bs, diag with
  | y :: bs', d :: diag' =>
      (if N.eqb x y && negb (pop y) then S d else O) :: row pop x bs' diag'
  | _, _ => []
  end.

(** The best block so far, [(besti, bestj, bestsize)], after the row of
    [a[i]]; [j] runs upwards, a strictly longer block replaces the best. *)
Fixpoint scan_row (i j : nat) (ks : list nat) (best : nat * nat * nat)
  : nat * nat * nat :=
  match ks with
  | [] => best
  | k :: ks' =>
      let '(_, _, bestsize) := best in
      scan_row i (S j) ks'
        (if (bestsize <? k)%nat then (S i - k, S j - k, k)%nat else best)
  end.

Fixpoint rows (pop : N -> bool) (a_part b_part : str) (i blo : nat)
    (j2len : list nat) (best : nat * nat * nat) : nat * nat * nat :=
  match a_part with
  | [] => best
  | x :: a_part' =>
      let newj2len := row pop x b_part (O :: j2len) in
      rows pop a_part' b_part (S i) blo newj2len (scan_row i blo newj2len best)
  end.

Definition at_ (s : str) (i : nat) : N := nth i s 0%N.

(** The two loops that stretch the block over equal elements on either
    side (no element is junk, [isjunk] being [None]). *)
Fixpoint extend_left (a b : str) (alo blo : nat) (fuel : nat)
    (best : nat * nat * nat) : nat * nat * nat :=
  let '(besti, bestj, bestsize) := best in
  match fuel with
  | O => best
  | S fuel' =>
      if (alo <? besti)%nat && (blo <? bestj)%nat
         && N.eqb (at_ a (besti - 1)) (at_ b (bestj - 1))
      then extend_left a b alo blo fuel' (besti - 1, bestj - 1, S bestsize)%nat
      else best
  end.

Fixpoint extend_right (a b : str) (ahi bhi : nat) (fuel : nat)
    (best : nat * nat * nat) : nat * nat * nat :=
  let '(besti, bestj, bestsize) := best in
  match fuel with
  | O => best
  | S fuel' =>
      if (besti + bestsize <? ahi)%nat && (bestj + bestsize <? bhi)%nat
         && N.eqb (at_ a (besti + bestsize)) (at_ b (bestj + bestsize))
      then extend_right a b ahi bhi fuel' (besti, bestj, S bestsize)
      else best
  end.

Definition find_longest_match (a b : str) (alo ahi blo bhi : nat)
  : nat * nat * nat :=
  let a_part := firstn (ahi - alo) (skipn alo a) in
  let b_part := firstn (bhi - blo) (skipn blo b) in
  let best := rows (popular b) a_part b_part alo blo
                (repeat O (length b_part)) (alo, blo, O) in
  extend_right a b ahi bhi (length a)
    (extend_left a b alo blo (length a) best).

(** The sum of the sizes of [get_matching_blocks()]: the longest block,
    then the same to its left and to its right. *)
Fixpoint matched (fuel : nat) (a b : str) (alo ahi blo bhi : nat) : nat :=
  match fuel with
  | O => O
  | S fuel' =>
      let '(i, j, k) := find_longest_match a b alo ahi blo bhi in
      match k with
      | O => O
      | _ =>
          (k
           + (if (alo <? i)%nat && (blo <? j)%nat
              then matched fuel' a b alo i blo j else O)
           + (if (i + k <? ahi)%nat && (j + k <? bhi)%nat
              then matched fuel' a b (i + k) ahi (j + k) bhi else O))%nat
      end
  end.

(** [ratio()]: [2.0 * matches / length], and [1.0] for two empty
    sequences. *)
Definition ratio (a b : str) : Q :=
  let total := (length a + length b)%nat in
  match total with
  | O => 1%Q
  | _ =>
      (inject_Z (2 * Z.of_nat (matched (S (length a)) a b 0 (length a) 0 (length b)))
       / inject_Z (Z.of_nat total))%Q
  end.

End Difflib.

(* ===================================================================== *)
(** * Data model                                                          *)
(* ===================================================================== *)

Inductive ChangeClassification : Type :=
| LIKELY_FIXUP
| POSSIBLE_FIXUP
| UNLIKELY_FIXUP
| NEW_FILE.

Inductive FilterMode : Type :=
| SMART_DEFAULT
| FIXUPS_ONLY
| INCLUDE_ALL.

(** [@dataclass(frozen=True) class ChangedLine]; the last two fields have
    the defaults [POSSIBLE_FIXUP] and [None]. *)
Record ChangedLine : Type := {
  file_path : str;
  line_number : Z;
  content : str;
  change_type : str;
  classification : ChangeClassification;
  context_lines : option (list str)
}.

Definition added : str := u "added".
Definition deleted : str := u "deleted".
Definition modified : str := u "modified".

(** [ChangedLine(file_path=f, line_number=n, content=c, change_type=t)] *)
Definition new_ChangedLine (f : str) (n : Z) (c t : str) : ChangedLine :=
  {| file_path := f; line_number := n; content := c; change_type := t;
     classification := POSSIBLE_FIXUP; context_lines := None |}.

Definition ChangeClassification_eq_dec (a b : ChangeClassification)
  : {a = b} + {a <> b}.
Proof. decide equality. Defined.

Definition str_eq_dec : forall a b : str, {a = b} + {a <> b} :=
  list_eq_dec N.eq_dec.

Definition ChangedLine_eq_dec (a b : ChangedLine) : {a = b} + {a <> b}.
Proof.
  decide equality.
  - decide equality. apply (list_eq_dec str_eq_dec).
  - apply ChangeClassification_eq_dec.
  - apply str_eq_dec.
  - apply str_eq_dec.
  - apply Z.eq_dec.
  - apply str_eq_dec.
Defined.

(** The generated [__eq__]: field by field. *)
Definition ChangedLine_eqb (a b : ChangedLine) : bool :=
  if ChangedLine_eq_dec a b then true else false.

(** The generated [__hash__] hashes the tuple of the fields, so it raises
    [TypeError] when [context_lines] is a list. *)
Definition hashable (l : ChangedLine) : bool :=
  match context_lines l with
  | None => true
  | Some _ => false
  end.

(** [x in s] and [s.add(x)] for a [set] of changed lines [s] (kept as the
    list of its members): both hash [x] first. *)
Definition set_contains (x : ChangedLine) (s : list ChangedLine) : result bool :=
  if hashable x then Ok (existsb (ChangedLine_eqb x) s) else Raise TypeError.

Definition set_add (x : ChangedLine) (s : list ChangedLine)
  : result (list ChangedLine) :=
  if hashable x
  then Ok (if existsb (ChangedLine_eqb x) s then s else x :: s)
  else Raise TypeError.

Module BlameInfo.
Record t : Type := {
  commit_hash : str;
  commit_message : str;
  author : str;
  line_content : str
}.
End BlameInfo.

Module FixupTarget.
(** [files] is a [set] of paths, kept as the list of its members without
    repetition. *)
Record t : Type := {
  commit_hash : str;
  commit_message : str;
  author : str;
  changed_lines : list ChangedLine;
  files : list str
}.
End FixupTarget.

(** Insertion-ordered [dict] with [str] keys, as the list of its items. *)
Fixpoint dict_get {V : Type} (k : str) (d : list (str * V)) : option V :=
  match d with
  | [] => None
  | (k', v) :: d' => if str_eqb k k' then Some v else dict_get k d'
  end.

Definition dict_contains {V : Type} (k : str) (d : list (str * V)) : bool :=
  match dict_get k d with Some _ => true | None => false end.

(** [d[k] = v]: replaces the value in place, or adds the key at the end. *)
Fixpoint dict_set {V : Type} (k : str) (v : V) (d : list (str * V))
  : list (str * V) :=
  match d with
  | [] => [(k, v)]
  | (k', v') :: d' =>
      if str_eqb k k' then (k', v) :: d' else (k', v') :: dict_set k v d'
  end.

(** [d[k].append(x)] for a key that is present. *)
Fixpoint dict_append {A : Type} (k : str) (x : A) (d : list (str * list A))
  : list (str * list A) :=
  match d with
  | [] => []
  | (k', v) :: d' =>
      if str_eqb k k' then (k', v ++ [x]) :: d' else (k', v) :: dict_append k x d'
  end.

(** [if k not in d: d[k] = []] followed by [d[k].append(x)]: how both the
    reconciler and the aggregator fill their groups. *)
Definition group_append {A : Type} (k : str) (x : A) (d : list (str * list A))
  : list (str * list A) :=
  let d := if negb (dict_contains k d) then dict_set k [] d else d in
  dict_append k x d.

(** [list(dict.fromkeys(l))]: the keys in the order they were first
    inserted. *)
Definition dict_fromkeys (l : list str) : list str :=
  map fst (fold_left (fun d k => dict_set k tt d) l []).

(* ===================================================================== *)
(** * ChangeClassifier                                                    *)
(* ===================================================================== *)

Definition ch (a : ascii) : N := N_of_ascii a.
(** The two quote characters of the string-literal pattern. *)
Definition dquote : N := 34%N.
Definition squote : N := 39%N.

Section ChangeClassifier.
Import Re.
Context `{UnicodeDB}.

(** [self.repo.git.show(arg)]: the output, or the exception raised. *)
Variable git_show : str -> result str.

(** [datetime.now() - datetime.fromtimestamp(self.repo.commit(h).committed_date)]
    in microseconds, or the exception raised on the way. *)
Variable commit_age : str -> result Z.

Definition _is_new_file (file_path : str) : result bool :=
  match git_show (u "HEAD:" ++ file_path) with
  | Ok _ => Ok false
  | Raise GitCommandError => Ok true
  | Raise e => Raise e
  end.

Definition fixup_patterns : list regex := [
  (* \b(fix|correct|update)\b *)
  cat [WordBoundary; Group 1 (alts [lit "fix"; lit "correct"; lit "update"]);
       WordBoundary];
  (* \b(typo|spelling|grammar)\b *)
  cat [WordBoundary; Group 1 (alts [lit "typo"; lit "spelling"; lit "grammar"]);
       WordBoundary];
  (* \b(format|style|indent)\b *)
  cat [WordBoundary; Group 1 (alts [lit "format"; lit "style"; lit "indent"]);
       WordBoundary];
  (* ^\s*(#|//|\* ) *)
  cat [Bol; Star (Chr Space); Group 1 (alts [lit "#"; lit "//"; lit "*"])];
  (* ^[^a-zA-Z]*$ *)
  cat [Bol; Star (NoneOf [Range (ch "a") (ch "z"); Range (ch "A") (ch "Z")]); Eol];
  (* ^\s*["\'].*["\'][\s,;]*$ *)
  cat [Bol; Star (Chr Space); OneOf [Lit dquote; Lit squote]; Star (Chr Dot);
       OneOf [Lit dquote; Lit squote];
       Star (OneOf [Space; Lit (ch ","); Lit (ch ";")]); Eol]
].

Definition _is_likely_fixup_content (change : ChangedLine) : bool :=
  let content := str_lower (strip (content change)) in
  if existsb (fun pattern => matches pattern content) fixup_patterns then true
  else if len content <? 10 then true
  else false.

Definition complexity_indicators : list regex := [
  (* def\s+\w+\s*\( *)
  cat [lit "def"; Plus (Chr Space); Plus (Chr Word); Star (Chr Space); lit "("];
  (* class\s+\w+ *)
  cat [lit "class"; Plus (Chr Space); Plus (Chr Word)];
  (* import\s+\w+ *)
  cat [lit "import"; Plus (Chr Space); Plus (Chr Word)];
  (* if\s+.*:\s*$ *)
  cat [lit "if"; Plus (Chr Space); Star (Chr Dot); lit ":"; Star (Chr Space); Eol];
  (* for\s+.*:\s*$ *)
  cat [lit "for"; Plus (Chr Space); Star (Chr Dot); lit ":"; Star (Chr Space); Eol];
  (* while\s+.*:\s*$ *)
  cat [lit "while"; Plus (Chr Space); Star (Chr Dot); lit ":"; Star (Chr Space); Eol]
].

Definition _is_large_change (change : ChangedLine) : bool :=
  let content := strip (content change) in
  if len content >? 100 then true
  else if existsb (fun pattern => matches pattern content) complexity_indicators
  then true
  else false.

Definition _is_old_commit (commit_hash : str) (days_threshold : Z) : bool :=
  match commit_age commit_hash with
  | Ok age => age >? days_threshold * 86400000000
  | Raise _ => false
  end.

Definition structure_patterns : list regex := [
  (* ^\s*def\s+\w+ *)
  cat [Bol; Star (Chr Space); lit "def"; Plus (Chr Space); Plus (Chr Word)];
  (* ^\s*class\s+\w+ *)
  cat [Bol; Star (Chr Space); lit "class"; Plus (Chr Space); Plus (Chr Word)];
  (* ^\s*if\s+__name__ *)
  cat [Bol; Star (Chr Space); lit "if"; Plus (Chr Space); lit "__name__"];
  (* ^\s*@\w+ *)
  cat [Bol; Star (Chr Space); lit "@"; Plus (Chr Word)];
  (* ^\s*from\s+\w+\s+import *)
  cat [Bol; Star (Chr Space); lit "from"; Plus (Chr Space); Plus (Chr Word);
       Plus (Chr Space); lit "import"]
].

Definition _adds_new_structure (change : ChangedLine) : bool :=
  let content := strip (content change) in
  existsb (fun pattern => matches pattern content) structure_patterns.

(** [classify_change(change, target_commit_hash=None)] *)
Definition classify_change (change : ChangedLine)
    (target_commit_hash : option str) : result ChangeClassification :=
  is_new <- _is_new_file (file_path change) ;;
  if is_new then Ok NEW_FILE
  else if _is_likely_fixup_content change then Ok LIKELY_FIXUP
  else if _is_large_change change then Ok UNLIKELY_FIXUP
  else if match target_commit_hash with
          | Some h => truthy h && _is_old_commit h 30
          | None => false
          end
  then Ok UNLIKELY_FIXUP
  else if _adds_new_structure change then Ok UNLIKELY_FIXUP
  else Ok POSSIBLE_FIXUP.

(** [GitAnalyzer._classify_changes] *)
Definition _classify_changes (changed_lines : list ChangedLine)
  : result (list ChangedLine) :=
  for_each
    (fun classified_lines line =>
       classification <- classify_change line None ;;
       Ok (classified_lines ++
             [ {| file_path := file_path line;
                  line_number := line_number line;
                  content := content line;
                  change_type := change_type line;
                  classification := classification;
                  context_lines := context_lines line |} ]))
    changed_lines [].

End ChangeClassifier.

(* ===================================================================== *)
(** * DiffParser: [GitAnalyzer._parse_diff]                               *)
(* ===================================================================== *)

Section DiffParser.
Import Re.
Context `{UnicodeDB}.

(** [diff --git a/(.+) b/(.+)$] *)
Definition diff_header : regex :=
  cat [lit "diff --git a/"; Group 1 (Plus (Chr Dot)); lit " b/";
       Group 2 (Plus (Chr Dot)); Eol].

(** [@@ -(\d+)(?:,(\d+))? \+(\d+)(?:,(\d+))? @@] *)
Definition hunk_header : regex :=
  cat [lit "@@ -"; Group 1 (Plus (Chr Digit));
       Opt (cat [lit ","; Group 2 (Plus (Chr Digit))]);
       lit " +"; Group 3 (Plus (Chr Digit));
       Opt (cat [lit ","; Group 4 (Plus (Chr Digit))]);
       lit " @@"].

(** The local variables of [_parse_diff]. The two counters are not
    assigned before the first hunk header that matches: [None] is the
    unbound variable, and reading it raises [UnboundLocalError]. *)
Record parse_locals : Type := {
  changed_lines : list ChangedLine;
  current_file : option str;
  old_line_num : option Z;
  new_line_num : option Z
}.

(** [int(x)] where [x] is a group of a match. *)
Definition int (x : option str) : result Z :=
  match x with
  | Some digits => Ok (int_of_digits digits)
  | None => Raise TypeError
  end.

(** Reading a local variable. *)
Definition local (x : option Z) : result Z :=
  match x with
  | Some v => Ok v
  | None => Raise UnboundLocalError
  end.

(** The body of [for line in diff_output.split('\n')]. *)
Definition parse_line (st : parse_locals) (line : str) : result parse_locals :=
  if startswith (u "diff --git") line then
    match search diff_header line with
    | Some m =>
        Ok {| changed_lines := changed_lines st;
              current_file := group m 2;
              old_line_num := old_line_num st;
              new_line_num := new_line_num st |}
    | None => Ok st
    end
  else if startswith (u "@@") line then
    match search hunk_header line with
    | Some m =>
        if truthy_opt (current_file st) then
          old_start <- int (group m 1) ;;
          new_start <- int (group m 3) ;;
          Ok {| changed_lines := changed_lines st;
                current_file := current_file st;
                old_line_num := Some old_start;
                new_line_num := Some new_start |}
        else Ok st
    | None => Ok st
    end
  else if startswith (u "-") line && negb (startswith (u "---") line) then
    match current_file st with
    | Some file =>
        if truthy file then
          n <- local (old_line_num st) ;;
          Ok {| changed_lines :=
                  changed_lines st ++ [new_ChangedLine file n (skipn 1 line) deleted];
                current_file := current_file st;
                old_line_num := Some (n + 1);
                new_line_num := new_line_num st |}
        else Ok st
    | None => Ok st
    end
  else if startswith (u "+") line && negb (startswith (u "+++") line) then
    match current_file st with
    | Some file =>
        if truthy file then
          n <- local (new_line_num st) ;;
          Ok {| changed_lines :=
                  changed_lines st ++ [new_ChangedLine file n (skipn 1 line) added];
                current_file := current_file st;
                old_line_num := old_line_num st;
                new_line_num := Some (n + 1) |}
        else Ok st
    | None => Ok st
    end
  else if startswith (u " ") line then
    o <- local (old_line_num st) ;;
    n <- local (new_line_num st) ;;
    Ok {| changed_lines := changed_lines st;
          current_file := current_file st;
          old_line_num := Some (o + 1);
          new_line_num := Some (n + 1) |}
  else Ok st.

Definition _parse_diff (diff_output change_source : str)
  : result (list ChangedLine) :=
  st <- for_each parse_line (split_on 10 diff_output)
          {| changed_lines := []; current_file := None;
             old_line_num := None; new_line_num := None |} ;;
  Ok (changed_lines st).

End DiffParser.

(* ===================================================================== *)
(** * LineReconciler: [GitAnalyzer._enhance_change_detection]             *)
(* ===================================================================== *)

Section LineReconciler.

(** [difflib.SequenceMatcher(None, a, b).ratio()]; [Difflib.ratio] is the
    one used to run examples. *)
Variable ratio : str -> str -> Q.

Definition _calculate_similarity (str1 str2 : str) : Q :=
  let str1 := strip str1 in
  let str2 := strip str2 in
  if negb (truthy str1) || negb (truthy str2) then 0%Q
  else ratio str1 str2.

(** The first loop of the function: the lines of each file, in the order
    the files and the lines first appear. *)
Definition group_by_file (changed_lines : list ChangedLine)
  : list (str * list ChangedLine) :=
  fold_left
    (fun file_groups line => group_append (file_path line) line file_groups)
    changed_lines [].

(** The body of [for add_line in added_lines], on the pair
    [(best_match, best_similarity)]. *)
Definition best_match_step (del_line : ChangedLine)
    (used_added : list ChangedLine) (best : option ChangedLine * Q)
    (add_line : ChangedLine) : result (option ChangedLine * Q) :=
  used <- set_contains add_line used_added ;;
  if used then Ok best
  else
    let line_distance := Z.abs (line_number add_line - line_number del_line) in
    if line_distance >? 5 then Ok best
    else
      let similarity :=
        _calculate_similarity (content del_line) (content add_line) in
      if Qgtb similarity 0.6 && Qgtb similarity (snd best)
      then Ok (Some add_line, similarity)
      else Ok best.

(** The state of the loops over one file: the two sets of paired lines;
    [enhanced_lines] is shared by all files. *)
Record pairing : Type := {
  used_deleted : list ChangedLine;
  used_added : list ChangedLine;
  enhanced_lines : list ChangedLine
}.

(** The body of the first [for del_line in deleted_lines]. *)
Definition pair_step (added_lines : list ChangedLine) (st : pairing)
    (del_line : ChangedLine) : result pairing :=
  seen <- set_contains del_line (used_deleted st) ;;
  if seen then Ok st
  else
    best <- for_each (best_match_step del_line (used_added st)) added_lines
              (None, 0%Q) ;;
    match fst best with
    | Some best_match =>
        let modified_line :=
          new_ChangedLine (file_path del_line) (line_number del_line)
            (content best_match) modified in
        used_deleted' <- set_add del_line (used_deleted st) ;;
        used_added' <- set_add best_match (used_added st) ;;
        Ok {| used_deleted := used_deleted';
              used_added := used_added';
              enhanced_lines := enhanced_lines st ++ [modified_line] |}
    | None =>
        Ok {| used_deleted := used_deleted st;
              used_added := used_added st;
              enhanced_lines := enhanced_lines st ++ [del_line] |}
    end.

(** The two loops that add what the pairing left. *)
Definition keep_unused (used : list ChangedLine)
    (enhanced_lines : list ChangedLine) (line : ChangedLine)
  : result (list ChangedLine) :=
  seen <- set_contains line used ;;
  if negb seen then Ok (enhanced_lines ++ [line]) else Ok enhanced_lines.

(** The body of [for file_path, lines in file_groups.items()]. *)
Definition enhance_file (enhanced_lines : list ChangedLine)
    (group : str * list ChangedLine) : result (list ChangedLine) :=
  let lines := snd group in
  let deleted_lines := filter (fun l => str_eqb (change_type l) deleted) lines in
  let added_lines := filter (fun l => str_eqb (change_type l) added) lines in
  let other_lines :=
    filter (fun l => negb (str_eqb (change_type l) deleted
                           || str_eqb (change_type l) added)) lines in
  st <- for_each (pair_step added_lines) deleted_lines
          {| used_deleted := []; used_added := [];
             enhanced_lines := enhanced_lines |} ;;
  enhanced_lines <- for_each (keep_unused (used_deleted st)) deleted_lines
                      (LineReconciler.enhanced_lines st) ;;
  enhanced_lines <- for_each (keep_unused (used_added st)) added_lines
                      enhanced_lines ;;
  Ok (enhanced_lines ++ other_lines).

Definition _enhance_change_detection (changed_lines : list ChangedLine)
  : result (list ChangedLine) :=
  for_each enhance_file (group_by_file changed_lines) [].

End LineReconciler.

(* ===================================================================== *)
(** * Calls to [git blame]                                                *)
(* ===================================================================== *)

(** The functions that ask the repository for blame run in a monad that
    records each [git blame] call (file and line, in call order) next to
    the value or exception of the computation. *)
Definition query : Type := (str * Z)%type.

Definition Git (A : Type) : Type := list query -> result A * list query.

Definition gret {A : Type} (a : A) : Git A := fun log => (Ok a, log).

Definition gbind {A B : Type} (c : Git A) (k : A -> Git B) : Git B :=
  fun log =>
    match c log with
    | (Ok a, log') => k a log'
    | (Raise e, log') => (Raise e, log')
    end.

Definition glift {A : Type} (r : result A) : Git A := fun log => (r, log).

(** [try: c  except <the exceptions h handles>] *)
Definition gcatch {A : Type} (c : Git A) (h : exn -> Git A) : Git A :=
  fun log =>
    match c log with
    | (Ok a, log') => (Ok a, log')
    | (Raise e, log') => h e log'
    end.

Declare Scope git_scope.
Delimit Scope git_scope with git.
Notation "x <- c ;; k" := (gbind c (fun x => k))
  (at level 61, c at next level, right associativity) : git_scope.

Fixpoint gfor_each {A S : Type} (body : S -> A -> Git S) (l : list A) (s : S)
  : Git S :=
  match l with
  | [] => gret s
  | x :: l' => gbind (body s x) (fun s' => gfor_each body l' s')
  end.

(** [s.split()]: the maximal runs of characters that are not white space. *)
Fixpoint split_ws_aux (s : str) (word : str) : list str :=
  match s with
  | [] => match word with [] => [] | _ => [rev word] end
  | c :: s' =>
      if isspace c
      then match word with
           | [] => split_ws_aux s' []
           | _ => rev word :: split_ws_aux s' []
           end
      else split_ws_aux s' (c :: word)
  end.

Definition split_ws (s : str) : list str := split_ws_aux s [].

(** What [self.repo.commit(h)] gives of a commit. *)
Record Commit : Type := {
  message : str;
  author_name : str;
  author_email : str
}.

(** [f"{commit.author.name} <{commit.author.email}>"] *)
Definition author_string (c : Commit) : str :=
  author_name c ++ u " <" ++ author_email c ++ u ">".

(* ===================================================================== *)
(** * BlameResolver and TargetAggregator                                  *)
(* ===================================================================== *)

Section TargetAggregator.
Local Open Scope git_scope.

(** [self.repo.git.blame('HEAD', file, L='n,n', porcelain=True)] *)
Variable git_blame : str -> Z -> result str.

(** [self.repo.commit(h)] *)
Variable repo_commit : str -> result Commit.

Definition repo_git_blame (file_path : str) (line_number : Z) : Git str :=
  fun log => (git_blame file_path line_number, log ++ [(file_path, line_number)]).

Definition get_blame_info (file_path : str) (line_number : Z)
  : Git (option BlameInfo.t) :=
  gcatch
    (blame_output <- repo_git_blame file_path line_number ;;
     let lines := split_on 10 (strip blame_output) in
     match lines with
     | [] => gret None
     | first_line :: _ =>
         match split_ws first_line with
         | [] => glift (Raise IndexError)
         | commit_hash :: _ =>
             commit <- glift (repo_commit commit_hash) ;;
             let line_content :=
               match find (startswith [9%N]) lines with
               | Some line => skipn 1 line
               | None => []
               end in
             gret (Some {| BlameInfo.commit_hash := commit_hash;
                           BlameInfo.commit_message := strip (message commit);
                           BlameInfo.author := author_string commit;
                           BlameInfo.line_content := line_content |})
         end
     end)
    (fun e => match e with
              | GitCommandError => gret None
              | _ => glift (Raise e)
              end).

(** [GitAnalyzer._find_context_commits] *)
Definition _find_context_commits (file_path : str) (line_number : Z)
  : Git (list str) :=
  context_commits <-
    gfor_each
      (fun context_commits offset =>
         let target_line := line_number + offset in
         if target_line >? 0 then
           blame_info <- get_blame_info file_path target_line ;;
           match blame_info with
           | Some b => gret (context_commits ++ [BlameInfo.commit_hash b])
           | None => gret context_commits
           end
         else gret context_commits)
      [-2; -1; 1; 2] [] ;;
  gret (dict_fromkeys context_commits).

(** The body of [for i, changed_line in enumerate(changed_lines)]; the
    progress callback has no part in the result and is left out. *)
Definition group_step (commit_groups : list (str * list ChangedLine))
    (changed_line : ChangedLine) : Git (list (str * list ChangedLine)) :=
  if str_eqb (change_type changed_line) deleted
     || str_eqb (change_type changed_line) modified then
    blame_info <- get_blame_info (file_path changed_line)
                    (line_number changed_line) ;;
    match blame_info with
    | Some b => gret (group_append (BlameInfo.commit_hash b) changed_line
                        commit_groups)
    | None => gret commit_groups
    end
  else if str_eqb (change_type changed_line) added then
    context_commits <- _find_context_commits (file_path changed_line)
                         (line_number changed_line) ;;
    match context_commits with
    | commit_hash :: _ => gret (group_append commit_hash changed_line
                                  commit_groups)
    | [] => gret commit_groups
    end
  else gret commit_groups.

Definition group_by_commit (changed_lines : list ChangedLine)
  : Git (list (str * list ChangedLine)) :=
  gfor_each group_step changed_lines [].

(** The body of [for commit_hash, lines in commit_groups.items()]. *)
Definition target_step (fixup_targets : list FixupTarget.t)
    (group : str * list ChangedLine) : result (list FixupTarget.t) :=
  let '(commit_hash, lines) := group in
  match repo_commit commit_hash with
  | Ok commit =>
      let files := dict_fromkeys (map file_path lines) in
      Ok (fixup_targets ++
            [ {| FixupTarget.commit_hash := commit_hash;
                 FixupTarget.commit_message := strip (message commit);
                 FixupTarget.author := author_string commit;
                 FixupTarget.changed_lines := lines;
                 FixupTarget.files := files |} ])
  | Raise BadName => Ok fixup_targets
  | Raise e => Raise e
  end.

(** The aggregation pass of [find_fixup_targets]: grouping, then one
    target per group. *)
Definition aggregate (changed_lines : list ChangedLine)
  : Git (list FixupTarget.t) :=
  commit_groups <- group_by_commit changed_lines ;;
  glift (for_each target_step commit_groups []).

End TargetAggregator.

(* ===================================================================== *)
(** * ModeFilter and OrganizationFilter                                   *)
(* ===================================================================== *)

Definition ChangeClassification_eqb (a b : ChangeClassification) : bool :=
  if ChangeClassification_eq_dec a b then true else false.

(** [l.count(x)] *)
Definition count (x : ChangeClassification) (l : list ChangeClassification) : Z :=
  len (filter (ChangeClassification_eqb x) l).

(** [a / b] on two [int]s. *)
Definition truediv (a b : Z) : result Q :=
  if b =? 0 then Raise ZeroDivisionError
  else Ok (inject_Z a / inject_Z b)%Q.

(** The body of [for target in targets], when the mode is not
    [INCLUDE_ALL]. *)
Definition mode_step (filter_mode : FilterMode)
    (filtered_targets : list FixupTarget.t) (target : FixupTarget.t)
  : result (list FixupTarget.t) :=
  let classifications := map classification (FixupTarget.changed_lines target) in
  match filter_mode with
  | FIXUPS_ONLY =>
      let likely_count := count LIKELY_FIXUP classifications in
      let total_count := len classifications in
      fraction <- truediv likely_count total_count ;;
      if Qgeb fraction 0.5 then Ok (filtered_targets ++ [target])
      else Ok filtered_targets
  | SMART_DEFAULT =>
      let new_file_count := count NEW_FILE classifications in
      let unlikely_count := count UNLIKELY_FIXUP classifications in
      let total_count := len classifications in
      fraction <- truediv (new_file_count + unlikely_count) total_count ;;
      if Qltb fraction 0.7 then Ok (filtered_targets ++ [target])
      else Ok filtered_targets
  | INCLUDE_ALL => Ok filtered_targets
  end.

Definition _filter_targets_by_mode (targets : list FixupTarget.t)
    (filter_mode : FilterMode) : result (list FixupTarget.t) :=
  match filter_mode with
  | INCLUDE_ALL => Ok targets
  | _ => for_each (mode_step filter_mode) targets []
  end.

Section OrganizationFilter.
Import Re.
Context `{UnicodeDB}.

(** A compiled pattern object, and [re.compile(pattern, re.IGNORECASE)]:
    [None] when the pattern does not compile ([re.error]).  The pattern is
    the caller's, so Python's pattern syntax is not modelled: what a
    compiled pattern finds is [pattern_search]. *)
Variable Pattern : Type.
Variable re_compile_ignorecase : str -> option Pattern.

(** [bool(pattern.search(s))] *)
Variable pattern_search : Pattern -> str -> bool.

(** [<([^>]+)>] *)
Definition bracketed_email : regex :=
  cat [lit "<"; Group 1 (Plus (NoneOf [Lit (ch ">")])); lit ">"].

(** [\S+@\S+\.\S+] *)
Definition bare_email : regex :=
  cat [Plus (Chr NotSpace); lit "@"; Plus (Chr NotSpace); lit ".";
       Plus (Chr NotSpace)].

Definition _extract_email_from_author (author_str : str) : option str :=
  match search bracketed_email author_str with
  | Some email_match => group email_match 1
  | None =>
      if contains_char (ch "@") author_str && contains_char (ch ".") author_str
      then
        match search bare_email author_str with
        | Some email_match => group email_match 0
        | None => None
        end
      else None
  end.

Definition filter_targets_by_organization (targets : list FixupTarget.t)
    (org_email_pattern : str) : result (list FixupTarget.t) :=
  match re_compile_ignorecase org_email_pattern with
  | None => Raise ValueError
  | Some pattern =>
      for_each
        (fun filtered_targets target =>
           let author_email :=
             _extract_email_from_author (FixupTarget.author target) in
           if match author_email with
              | Some email => truthy email && pattern_search pattern email
              | None => false
              end
           then Ok (filtered_targets ++ [target])
           else Ok filtered_targets)
        targets []
  end.

End OrganizationFilter.

(* ===================================================================== *)
(** * Discovery: [get_changed_lines] and [find_fixup_targets]             *)
(* ===================================================================== *)

Section Discovery.
Context `{UnicodeDB}.

Variable ratio : str -> str -> Q.
(** [self.repo.git.diff(arg, unified=0)] for ['HEAD'] and ['--cached']. *)
Variable git_diff : str -> result str.
Variable git_show : str -> result str.
Variable commit_age : str -> result Z.
Variable git_blame : str -> Z -> result str.
Variable repo_commit : str -> result Commit.
(** [self.repo.git.rev_list(range)] *)
Variable git_rev_list : str -> result str.

Definition get_changed_lines : result (list ChangedLine) :=
  diff <- git_diff (u "HEAD") ;;
  unstaged <- _parse_diff diff (u "unstaged") ;;
  diff <- git_diff (u "--cached") ;;
  staged <- _parse_diff diff (u "staged") ;;
  enhanced_lines <- _enhance_change_detection ratio (unstaged ++ staged) ;;
  _classify_changes git_show commit_age enhanced_lines.

(** The [limit_sha] step: whatever is raised inside it leaves as
    [ValueError]. *)
Definition limit_targets (filtered_targets : list FixupTarget.t)
    (limit_sha : str) : result (list FixupTarget.t) :=
  let limit_short := prefix 7 limit_sha in
  match git_rev_list (limit_sha ++ u "...HEAD") with
  | Ok out =>
      let commits_after := split_on 10 out in
      let commits_after_set :=
        map (prefix 7) (filter truthy commits_after) ++ [limit_short] in
      Ok (filter
            (fun t => existsb (str_eqb (prefix 7 (FixupTarget.commit_hash t)))
                        commits_after_set)
            filtered_targets)
  | Raise _ => Raise ValueError
  end.

Definition find_fixup_targets (filter_mode : FilterMode)
    (limit_sha : option str) : Git (list FixupTarget.t) :=
  (changed_lines <- glift get_changed_lines ;;
   fixup_targets <- aggregate git_blame repo_commit changed_lines ;;
   filtered_targets <- glift (_filter_targets_by_mode fixup_targets filter_mode) ;;
   match limit_sha with
   | Some sha =>
       if truthy sha then glift (limit_targets filtered_targets sha)
       else gret filtered_targets
   | None => gret filtered_targets
   end)%git.

End Discovery.

(* ===================================================================== *)
(** * FixupCreator: reading a selection and the hunks of a diff           *)
(* ===================================================================== *)

(** White space as [int()] skips it around a numeral: what [isspace]
    accepts, less the four separators U+001C to U+001F. *)
Definition int_space (c : N) : bool :=
  isspace c && negb ((28 <=? c) && (c <=? 31))%N.

Fixpoint lstrip_int (s : str) : str :=
  match s with
  | c :: s' => if int_space c then lstrip_int s' else s
  | [] => []
  end.

(** The digits of a numeral: decimal digits, with single underscores
    between them; [after_digit] tells whether the character before was a
    digit. *)
Fixpoint digits_value `{UnicodeDB} (s : str) (acc : Z) (after_digit : bool)
  : option Z :=
  match s with
  | [] => if after_digit then Some acc else None
  | c :: s' =>
      if isdecimal c then digits_value s' (10 * acc + decimal_value c) true
      else if N.eqb c 95 && after_digit then digits_value s' acc false
      else None
  end.

(** [int(s)] for a [str]: white space around, an optional sign, digits;
    [None] is [ValueError].  The limit recent interpreters put on the
    number of digits (4300 by default) is not modelled. *)
Definition int_of_str `{UnicodeDB} (s : str) : option Z :=
  match rev (lstrip_int (rev (lstrip_int s))) with
  | 43%N :: digits => digits_value digits 0 false
  | 45%N :: digits => option_map Z.opp (digits_value digits 0 false)
  | digits => digits_value digits 0 false
  end.

(** [range(lo, hi)] *)
Definition range (lo hi : Z) : list Z :=
  map (fun i => lo + Z.of_nat i) (seq 0 (Z.to_nat (hi - lo))).

(** [s.add(x)] and [s.update(xs)] for a [set] of [int]s, kept as the list
    of its members. *)
Definition int_set_add (x : Z) (s : list Z) : list Z :=
  if existsb (Z.eqb x) s then s else s ++ [x].

Definition int_set_update (xs : list Z) (s : list Z) : list Z :=
  fold_left (fun s x => int_set_add x s) xs s.

Section FixupCreator.
Context `{UnicodeDB}.

(** The body of [for part in parts] of [FixupCreator._parse_selection];
    the warnings it prints are left out. *)
Definition selection_step (max_index : Z) (selected : list Z) (part : str)
  : list Z :=
  if contains_char (ch "-") part then
    match split_on (ch "-") part with
    | [start; end_] =>
        match int_of_str start, int_of_str end_ with
        | Some start_idx, Some end_idx =>
            if (1 <=? start_idx) && (start_idx <=? max_index)
               && ((1 <=? end_idx) && (end_idx <=? max_index))
            then int_set_update (range start_idx (end_idx + 1)) selected
            else selected
        | _, _ => selected
        end
    | _ => selected
    end
  else
    match int_of_str part with
    | Some idx =>
        if (1 <=? idx) && (idx <=? max_index) then int_set_add idx selected
        else selected
    | None => selected
    end.

(** [FixupCreator._parse_selection] *)
Definition _parse_selection (response : str) (max_index : Z) : list Z :=
  let parts :=
    split_on (ch ",") (filter (fun c => negb (N.eqb c (ch " "))) response) in
  fold_left (selection_step max_index) parts [].

(** The local variables of [FixupCreator._parse_diff_for_target_lines]. *)
Record hunk_scan : Type := {
  hunks_to_accept : list bool;
  current_hunk_has_target : bool;
  in_hunk : bool
}.

(** The body of [for line in lines]. *)
Definition hunk_line (target_lines : list Z) (st : hunk_scan) (line : str)
  : result hunk_scan :=
  if startswith (u "@@") line then
    let hunks_to_accept :=
      if in_hunk st then hunks_to_accept st ++ [current_hunk_has_target st]
      else hunks_to_accept st in
    match split_ws line with
    | _ :: _ :: new_range :: _ =>
        let numeral :=
          if contains_char (ch ",") new_range
          then skipn 1 (hd [] (split_on (ch ",") new_range))
          else skipn 1 new_range in
        match int_of_str numeral with
        | Some new_start =>
            Ok {| hunks_to_accept := hunks_to_accept;
                  current_hunk_has_target :=
                    existsb (fun line_num => Z.abs (line_num - new_start) <? 10)
                      target_lines;
                  in_hunk := true |}
        | None => Raise ValueError
        end
    | _ =>
        Ok {| hunks_to_accept := hunks_to_accept;
              current_hunk_has_target := false;
              in_hunk := true |}
    end
  else Ok st.

(** [FixupCreator._parse_diff_for_target_lines]; [target_lines] is the
    [set] of line numbers, as the list of its members. *)
Definition _parse_diff_for_target_lines (diff_output : str)
    (target_lines : list Z) : result (list bool) :=
  st <- for_each (hunk_line target_lines) (split_on 10 diff_output)
          {| hunks_to_accept := []; current_hunk_has_target := false;
             in_hunk := false |} ;;
  Ok (if in_hunk st then hunks_to_accept st ++ [current_hunk_has_target st]
      else hunks_to_accept st).

End FixupCreator.

(* ===================================================================== *)
(** * Notions the properties are stated with                              *)
(* ===================================================================== *)

(** What a computation in [Git] returns and which [git blame] calls it
    makes, started with nothing recorded. *)
Definition value {A : Type} (c : Git A) : result A := fst (c []).
Definition calls {A : Type} (c : Git A) : list query := snd (c []).

(** A computation that only adds its calls to the record, and whose
    result does not depend on what was recorded before. *)
Definition uniform {A : Type} (c : Git A) : Prop :=
  forall log, c log = (value c, log ++ calls c).

(** Grouping by an optional key, in order: what the two grouping loops of
    the module compute. *)
Definition group_by {A : Type} (key : A -> option str) (l : list A)
  : list (str * list A) :=
  fold_left
    (fun groups x =>
       match key x with
       | Some k => group_append k x groups
       | None => groups
       end)
    l [].

Definition has_key {A : Type} (key : A -> option str) (k : str) (x : A) : bool :=
  match key x with
  | Some k' => str_eqb k' k
  | None => false
  end.

(** A list without its repetitions, each element at its first place. *)
Fixpoint first_occurrences (l : list str) : list str :=
  match l with
  | [] => []
  | x :: l' => x :: filter (fun y => negb (str_eqb x y)) (first_occurrences l')
  end.

(** A group with at least one member. *)
Definition nonempty_group {A : Type} (g : str * list A) : Prop := snd g <> [].

(** [x] is not among [ks]. *)
Definition absent_from (ks : list str) (x : str) : bool :=
  negb (existsb (str_eqb x) ks).

Section Attribution.
Variable git_blame : str -> Z -> result str.
Variable repo_commit : str -> result Commit.

(** The blame result for a line of a file. *)
Definition blame_of (file : str) (n : Z) : result (option BlameInfo.t) :=
  value (get_blame_info git_blame repo_commit file n).

(** The history queries answer or report "not found": they do not fail
    in any other way. *)
Definition blame_answers : Prop :=
  forall file n, exists o, blame_of file n = Ok o.

(** The positions around line [n] that are looked at for context. *)
Definition context_positions (n : Z) : list Z :=
  filter (fun p => p >? 0) [n + -2; n + -1; n + 1; n + 2].

(** The commits blame resolves at the given positions, in order. *)
Definition resolved_hashes (file : str) (positions : list Z) : list str :=
  flat_map
    (fun p => match blame_of file p with
              | Ok (Some b) => [BlameInfo.commit_hash b]
              | _ => []
              end)
    positions.

Definition context_commits_of (file : str) (n : Z) : list str :=
  first_occurrences (resolved_hashes file (context_positions n)).

(** The [git blame] calls made for one changed line. *)
Definition queries_of (l : ChangedLine) : list query :=
  if str_eqb (change_type l) deleted || str_eqb (change_type l) modified then
    [(file_path l, line_number l)]
  else if str_eqb (change_type l) added then
    map (pair (file_path l)) (context_positions (line_number l))
  else [].

(** The commit a changed line is attributed to, if any. *)
Definition origin (l : ChangedLine) : option str :=
  if str_eqb (change_type l) deleted || str_eqb (change_type l) modified then
    match blame_of (file_path l) (line_number l) with
    | Ok (Some b) => Some (BlameInfo.commit_hash b)
    | _ => None
    end
  else if str_eqb (change_type l) added then
    hd_error (context_commits_of (file_path l) (line_number l))
  else None.

End Attribution.

(** The record that replaces a paired deleted line [d] and added line
    [a]. *)
Definition modified_from (d a : ChangedLine) : ChangedLine :=
  new_ChangedLine (file_path d) (line_number d) (content a) modified.

Section Pairing.
Variable ratio : str -> str -> Q.

(** An added line [a] that a deleted line [d] may be paired with, when
    the added lines in [used] are already paired: not among them, at most
    5 lines away, and more than 0.6 similar. *)
Definition candidate (d : ChangedLine) (used : list ChangedLine)
    (a : ChangedLine) : Prop :=
  ~ In a used
  /\ Z.abs (line_number a - line_number d) <= 5
  /\ (0.6 < _calculate_similarity ratio (content d) (content a))%Q.

(** The choice among the added lines [added_lines], in their order: no
    partner when there is no candidate; else the candidate of highest
    similarity, the first of them when several reach it. *)
Definition best_choice (d : ChangedLine) (used added_lines : list ChangedLine)
    (choice : option ChangedLine) : Prop :=
  match choice with
  | None => forall a, In a added_lines -> ~ candidate d used a
  | Some a =>
      candidate d used a
      /\ exists before after,
           added_lines = before ++ a :: after
           /\ (forall c, In c before -> candidate d used c ->
                 (_calculate_similarity ratio (content d) (content c)
                  < _calculate_similarity ratio (content d) (content a))%Q)
           /\ (forall c, In c after -> candidate d used c ->
                 (_calculate_similarity ratio (content d) (content c)
                  <= _calculate_similarity ratio (content d) (content a))%Q)
  end.

(** What the loop over the added lines holds after a prefix of them: the
    best choice in the prefix, and its similarity (0.0 when there is
    none). *)
Definition choice_after (d : ChangedLine) (used prefix : list ChangedLine)
    (best : option ChangedLine * Q) : Prop :=
  best_choice d used prefix (fst best)
  /\ snd best = match fst best with
                | Some a => _calculate_similarity ratio (content d) (content a)
                | None => 0%Q
                end.

(** [r] is the record of a pairing of one of [deleted_lines] with the best
    choice among [added_lines], some of which ([used]) were paired before. *)
Definition paired_in (deleted_lines added_lines : list ChangedLine)
    (r : ChangedLine) : Prop :=
  exists d a used,
    In d deleted_lines /\ In a added_lines /\ incl used added_lines
    /\ best_choice d used added_lines (Some a)
    /\ r = modified_from d a.

(** What holds of the state of the pairing loop of one file, whose deleted
    and added lines are [deleted_lines] and [added_lines], started with
    [before] already in [enhanced_lines]: what was added is a deleted line
    or the record of a pairing, and no paired line is blank. *)
Definition pairing_ok (deleted_lines added_lines before : list ChangedLine)
    (st : pairing) : Prop :=
  (exists extra,
      enhanced_lines st = before ++ extra
      /\ forall r, In r extra ->
           In r deleted_lines \/ paired_in deleted_lines added_lines r)
  /\ (forall x, In x (used_added st) ->
        In x added_lines /\ strip (content x) <> [])
  /\ (forall x, In x (used_deleted st) -> strip (content x) <> []).

(** What one file, with lines [ls], adds to the output: its own lines and
    records of pairings among them; its blank lines are all there. *)
Definition file_output (ls extra : list ChangedLine) : Prop :=
  (forall r, In r extra ->
     In r ls
     \/ paired_in
          (filter (fun l => str_eqb (change_type l) deleted) ls)
          (filter (fun l => str_eqb (change_type l) added) ls) r)
  /\ (forall l, In l ls -> strip (content l) = [] -> In l extra).

End Pairing.

(** The added lines of a file, in the order of the input. *)
Definition added_in (file : str) (lines : list ChangedLine) : list ChangedLine :=
  filter (fun l => str_eqb (change_type l) added)
    (filter (fun l => str_eqb (file_path l) file) lines).

Definition deleted_in (file : str) (lines : list ChangedLine) : list ChangedLine :=
  filter (fun l => str_eqb (change_type l) deleted)
    (filter (fun l => str_eqb (file_path l) file) lines).

(** Every line can be hashed: no [context_lines] list. *)
Definition all_hashable (lines : list ChangedLine) : Prop :=
  Forall (fun l => context_lines l = None) lines.

(** ** What the specification says of pairing, in its own words *)

(** The similarity of a deleted and an added line: the ratio of their
    stripped contents. *)
Definition stripped_ratio (ratio : str -> str -> Q) (d a : ChangedLine) : Q :=
  ratio (strip (content d)) (strip (content a)).

(** An added line [a] that the deleted line [d] may be paired with, when
    the added lines in [used] are already paired: still unpaired, at most 5
    lines away, and more than 0.6 similar on stripped content, neither
    content being blank. *)
Definition eligible (ratio : str -> str -> Q) (d : ChangedLine)
    (used : list ChangedLine) (a : ChangedLine) : Prop :=
  ~ In a used
  /\ Z.abs (line_number a - line_number d) <= 5
  /\ strip (content d) <> []
  /\ strip (content a) <> []
  /\ (0.6 < stripped_ratio ratio d a)%Q.

(** The partner chosen for [d] among [added_lines]: none when no added
    line is eligible; else the eligible line of highest similarity, the
    first in the order of [added_lines] when several reach it. *)
Definition first_best (ratio : str -> str -> Q) (d : ChangedLine)
    (used added_lines : list ChangedLine) (choice : option ChangedLine) : Prop :=
  match choice with
  | None => forall a, In a added_lines -> ~ eligible ratio d used a
  | Some a =>
      eligible ratio d used a
      /\ exists before after,
           added_lines = before ++ a :: after
           /\ (forall c, In c before -> eligible ratio d used c ->
                 (stripped_ratio ratio d c < stripped_ratio ratio d a)%Q)
           /\ (forall c, In c after -> eligible ratio d used c ->
                 (stripped_ratio ratio d c <= stripped_ratio ratio d a)%Q)
  end.

(** What is decided for a deleted line: its partner, or none. *)
Definition decision : Type := (ChangedLine * option ChangedLine)%type.

(** The record emitted for a decision: one [modified] record at the
    deleted line's position with the added line's content, or the deleted
    line as it is. *)
Definition record_of (dec : decision) : ChangedLine :=
  match snd dec with
  | Some a => modified_from (fst dec) a
  | None => fst dec
  end.

(** The added lines and the deleted lines that decisions have paired. *)
Definition partners (decisions : list decision) : list ChangedLine :=
  flat_map (fun dec => match snd dec with Some a => [a] | None => [] end) decisions.

Definition paired_deleted (decisions : list decision) : list ChangedLine :=
  flat_map (fun dec => match snd dec with Some _ => [fst dec] | None => [] end)
    decisions.

(** The pairing of the deleted lines of a file, in their order, after the
    decisions [earlier]: a deleted line already paired is passed over; for
    any other the partner is chosen among the added lines no earlier
    decision has paired. *)
Inductive greedy_pairing (ratio : str -> str -> Q) (added_lines : list ChangedLine)
  : list decision -> list ChangedLine -> list decision -> Prop :=
| pairing_done (earlier : list decision) :
    greedy_pairing ratio added_lines earlier [] []
| pairing_passes (earlier : list decision) (d : ChangedLine)
    (deleted_lines : list ChangedLine) (later : list decision) :
    In d (paired_deleted earlier) ->
    greedy_pairing ratio added_lines earlier deleted_lines later ->
    greedy_pairing ratio added_lines earlier (d :: deleted_lines) later
| pairing_decides (earlier : list decision) (d : ChangedLine)
    (deleted_lines : list ChangedLine) (choice : option ChangedLine)
    (later : list decision) :
    ~ In d (paired_deleted earlier) ->
    first_best ratio d (partners earlier) added_lines choice ->
    greedy_pairing ratio added_lines (earlier ++ [(d, choice)]) deleted_lines later ->
    greedy_pairing ratio added_lines earlier (d :: deleted_lines)
      ((d, choice) :: later).

(** ** The output of the reconciler for one file *)

(** The lines of [ls] that are not among [paired]. *)
Definition unpaired (paired ls : list ChangedLine) : list ChangedLine :=
  filter (fun l => negb (existsb (ChangedLine_eqb l) paired)) ls.

(** What the reconciler makes of the lines [ls] of one file: the records
    of the decisions for its deleted lines, then the deleted and the added
    lines no decision has paired, then the lines of other kinds.  A deleted
    line left without partner is there twice, as the record of its decision
    and among the unpaired lines (see C1). *)
Definition file_result (ratio : str -> str -> Q) (ls out : list ChangedLine) : Prop :=
  let deleted_lines := filter (fun l => str_eqb (change_type l) deleted) ls in
  let added_lines := filter (fun l => str_eqb (change_type l) added) ls in
  let other_lines :=
    filter (fun l => negb (str_eqb (change_type l) deleted
                           || str_eqb (change_type l) added)) ls in
  exists decisions,
    greedy_pairing ratio added_lines [] deleted_lines decisions
    /\ out = map record_of decisions
             ++ unpaired (paired_deleted decisions) deleted_lines
             ++ unpaired (partners decisions) added_lines
             ++ other_lines.

(** ** What the specification says of the filters, in its own words *)

(** The fraction of a target's lines whose classification satisfies [p]. *)
Definition fraction_of (p : ChangeClassification -> bool) (t : FixupTarget.t) : Q :=
  (inject_Z (len (filter (fun l => p (classification l)) (FixupTarget.changed_lines t)))
   / inject_Z (len (FixupTarget.changed_lines t)))%Q.

Definition is_likely (c : ChangeClassification) : bool :=
  match c with LIKELY_FIXUP => true | _ => false end.

Definition is_new_work (c : ChangeClassification) : bool :=
  match c with NEW_FILE | UNLIKELY_FIXUP => true | _ => false end.

Definition has_lines (t : FixupTarget.t) : Prop :=
  FixupTarget.changed_lines t <> [].

(** [fixups_only] keeps a target whose fraction of likely fixups is at
    least 0.5; [smart_default] keeps one whose fraction of new work (new
    file or unlikely fixup) is below 0.7. *)
Definition keep_fixups_only (t : FixupTarget.t) : bool :=
  Qgeb (fraction_of is_likely t) 0.5.

Definition keep_smart_default (t : FixupTarget.t) : bool :=
  Qltb (fraction_of is_new_work t) 0.7.

(** The test the organization filter is to apply to one author string:
    an email is extracted and the pattern is found in it. *)
Definition author_matches `{UnicodeDB} (Pattern : Type)
    (pattern_search : Pattern -> str -> bool) (pattern : Pattern)
    (author : str) : bool :=
  match _extract_email_from_author author with
  | Some email => truthy email && pattern_search pattern email
  | None => false
  end.

(** ** Notions of the further properties *)

(** Whether every match of [r] sets group [n]. *)
Fixpoint defines (n : nat) (r : Re.regex) : bool :=
  match r with
  | Re.Seq a b => defines n a || defines n b
  | Re.Alt a b => defines n a && defines n b
  | Re.Group m a => Nat.eqb n m || defines n a
  | _ => false
  end.

(** A text whose lines have at most 4300 characters: a numeral in it is
    within the limit recent interpreters put on [int()] (beyond it [int]
    raises [ValueError], which the model leaves out). *)
Definition short_lines (text : str) : Prop :=
  Forall (fun line => len line <= 4300) (split_on 10 text).

(** A record as [_parse_diff] makes them: added or deleted, in a named
    file, with the default classification and no [context_lines]. *)
Definition parser_record (l : ChangedLine) : Prop :=
  (change_type l = added \/ change_type l = deleted)
  /\ classification l = POSSIBLE_FIXUP
  /\ context_lines l = None
  /\ file_path l <> [].

(** A line no branch of the parser's loop acts on: one that starts with
    ["---"] or ["+++"], or with none of the five prefixes the loop tests. *)
Definition unread (line : str) : bool :=
  startswith (u "---") line || startswith (u "+++") line
  || negb (startswith (u "diff --git") line || startswith (u "@@") line
           || startswith (u "-") line || startswith (u "+") line
           || startswith (u " ") line).

(** The parser's local variables before the first line. *)
Definition parse_start : parse_locals :=
  {| changed_lines := []; current_file := None;
     old_line_num := None; new_line_num := None |}.

(** A deleted and an added line of a hunk, as [_parse_diff] tells them
    from the ["---"] and ["+++"] lines of the file header. *)
Definition minus_line (line : str) : bool :=
  startswith (u "-") line && negb (startswith (u "---") line).

Definition plus_line (line : str) : bool :=
  startswith (u "+") line && negb (startswith (u "+++") line).

(** [l], a line of [ls], is in [out]: itself, or as one side of a pairing
    with a line of [ls] whose record is in [out]. *)
Definition accounted_for (ls out : list ChangedLine) (l : ChangedLine) : Prop :=
  In l out
  \/ (change_type l = deleted
      /\ exists a, In a ls /\ change_type a = added
                   /\ In (modified_from l a) out)
  \/ (change_type l = added
      /\ exists d, In d ls /\ change_type d = deleted
                   /\ In (modified_from d l) out).

(** What the pairing loop of one file keeps true: every line marked as
    paired has the record of its pairing among what was added. *)
Definition pairs_recorded (deleted_lines added_lines before : list ChangedLine)
    (st : pairing) : Prop :=
  exists extra,
    enhanced_lines st = before ++ extra
    /\ (forall d, In d (used_deleted st) ->
          exists a, In a added_lines /\ In (modified_from d a) extra)
    /\ (forall a, In a (used_added st) ->
          exists d, In d deleted_lines /\ In (modified_from d a) extra).

(** [l] with the classification [c]: what [_classify_changes] builds. *)
Definition reclassified (c : ChangeClassification) (l : ChangedLine) : ChangedLine :=
  {| file_path := file_path l; line_number := line_number l;
     content := content l; change_type := change_type l;
     classification := c; context_lines := context_lines l |}.

(** Neither [a-z] nor [A-Z]. *)
Definition no_ascii_letter (c : N) : Prop :=
  ~ (97 <= c <= 122)%N /\ ~ (65 <= c <= 90)%N.

(** A record [get_changed_lines] can return: one of the three kinds of
    change, in a named file, without [context_lines]. *)
Definition changed_line_record (l : ChangedLine) : Prop :=
  (change_type l = added \/ change_type l = deleted \/ change_type l = modified)
  /\ context_lines l = None
  /\ file_path l <> [].


(** What the [limit_sha] step compares: the first seven characters of the
    target's commit with those of the limit itself and of each non-empty
    line of the [rev-list] output [out]. *)
Definition within_limit (out limit_sha : str) (t : FixupTarget.t) : Prop :=
  prefix 7 (FixupTarget.commit_hash t) = prefix 7 limit_sha
  \/ exists c, In c (split_on 10 out) /\ c <> []
               /\ prefix 7 (FixupTarget.commit_hash t) = prefix 7 c.

(* ===================================================================== *)
(** * Inputs and repositories used in the examples                        *)
(* ===================================================================== *)

Definition newline : str := [10%N].

(** A file header, a hunk header that does not parse, one deleted line. *)
Definition diff_with_malformed_hunk : str :=
  u "diff --git a/x b/x" ++ newline ++ u "@@ bogus @@" ++ newline ++ u "-foo".

(** A good hunk, then a hunk whose header does not parse. *)
Definition diff_with_second_hunk_malformed : str :=
  u "diff --git a/x b/x" ++ newline ++ u "@@ -5 +5 @@" ++ newline ++ u "-a"
  ++ newline ++ u "@@ -x +y @@" ++ newline ++ u "-b".

(** A repository in which every [git show] fails. *)
Definition git_show_failing (arg : str) : result str := Raise GitCommandError.
Definition no_commit_age (h : str) : result Z := Raise ValueError.

(** A repository in which every [git show] answers. *)
Definition git_show_answering (arg : str) : result str := Ok (u "contents").

(** Five times U+0130, LATIN CAPITAL LETTER I WITH DOT ABOVE: Python's
    ['\u0130'.lower()] is ['i\u0307'], two code points. *)
Definition five_dotted_capital_I : str := [304; 304; 304; 304; 304]%N.

(** A target with the given classifications, one line each. *)
Definition target_with (cs : list ChangeClassification) : FixupTarget.t :=
  {| FixupTarget.commit_hash := u "abc123";
     FixupTarget.commit_message := u "message";
     FixupTarget.author := u "Jane Doe <jane@example.com>";
     FixupTarget.changed_lines :=
       map (fun c => {| file_path := u "a.txt"; line_number := 1;
                        content := u "x"; change_type := modified;
                        classification := c; context_lines := None |}) cs;
     FixupTarget.files := [u "a.txt"] |}.

Definition seven_of_ten_unlikely : FixupTarget.t :=
  target_with (repeat UNLIKELY_FIXUP 7 ++ repeat LIKELY_FIXUP 3).

Definition two_of_three_likely : FixupTarget.t :=
  target_with [LIKELY_FIXUP; LIKELY_FIXUP; POSSIBLE_FIXUP].

(** A pattern library with one pattern, [.*@example\.com] (ignoring case);
    every other pattern is taken not to compile. *)
Definition example_com : Re.regex :=
  Re.cat [Re.Star (Re.Chr Re.Dot); Re.lit "@";
          Re.OneOf [Re.Lit (ch "e"); Re.Lit (ch "E")];
          Re.OneOf [Re.Lit (ch "x"); Re.Lit (ch "X")];
          Re.OneOf [Re.Lit (ch "a"); Re.Lit (ch "A")];
          Re.OneOf [Re.Lit (ch "m"); Re.Lit (ch "M")];
          Re.OneOf [Re.Lit (ch "p"); Re.Lit (ch "P")];
          Re.OneOf [Re.Lit (ch "l"); Re.Lit (ch "L")];
          Re.OneOf [Re.Lit (ch "e"); Re.Lit (ch "E")];
          Re.lit ".";
          Re.OneOf [Re.Lit (ch "c"); Re.Lit (ch "C")];
          Re.OneOf [Re.Lit (ch "o"); Re.Lit (ch "O")];
          Re.OneOf [Re.Lit (ch "m"); Re.Lit (ch "M")]].

Definition compile_example (pattern : str) : option Re.regex :=
  if str_eqb pattern (u ".*@example\.com") then Some example_com else None.

Definition search_example (r : Re.regex) (s : str) : bool :=
  @Re.matches latin1 r s.

Definition target_by (author : string) : FixupTarget.t :=
  {| FixupTarget.commit_hash := u "abc123";
     FixupTarget.commit_message := u "message";
     FixupTarget.author := u author;
     FixupTarget.changed_lines := [new_ChangedLine (u "a.txt") 5 (u "x") modified];
     FixupTarget.files := [u "a.txt"] |}.

(** A target of the commit with the given hash. *)
Definition target_of_commit (hash : string) : FixupTarget.t :=
  {| FixupTarget.commit_hash := u hash;
     FixupTarget.commit_message := u "message";
     FixupTarget.author := u "Jane Doe <jane@example.com>";
     FixupTarget.changed_lines := [new_ChangedLine (u "a.txt") 5 (u "x") modified];
     FixupTarget.files := [u "a.txt"] |}.

(** A repository whose file [a.txt] has 22 lines, the first 19 last
    touched by commit [abc123] and the rest by [def456]; nothing else is
    tracked. *)
Definition example_blame (file : str) (n : Z) : result str :=
  if str_eqb file (u "a.txt") && (0 <? n) && (n <=? 22)
  then Ok ((if n <? 20 then u "abc123" else u "def456") ++ u " 5 5 1" ++ newline
           ++ u "author Jane Doe" ++ newline ++ [9%N] ++ u "helo world" ++ newline)
  else Raise GitCommandError.

Definition example_commit (h : str) : result Commit :=
  Ok {| message := u "Add greeting" ++ newline;
        author_name := u "Jane Doe";
        author_email := u "jane@example.com" |}.

(** A modified line, an added line with context, an added line in a file
    without history. *)
Definition example_changed_lines : list ChangedLine :=
  [new_ChangedLine (u "a.txt") 5 (u "hello world") modified;
   new_ChangedLine (u "a.txt") 22 (u "good bye") added;
   new_ChangedLine (u "b.txt") 3 (u "fresh") added].

(** The specification's pair: ["foo_bar = 1"] deleted and ["foo_baz = 1"]
    added, both at line 10. *)
Definition foo_bar_deleted : ChangedLine :=
  new_ChangedLine (u "a.py") 10 (u "foo_bar = 1") deleted.
Definition foo_baz_added : ChangedLine :=
  new_ChangedLine (u "a.py") 10 (u "foo_baz = 1") added.

(** A second deleted line as similar to the added one, and a pair that
    differs in indentation. *)
Definition foo_bat_deleted : ChangedLine :=
  new_ChangedLine (u "a.py") 11 (u "foo_bat = 1") deleted.

Definition total_deleted : ChangedLine :=
  new_ChangedLine (u "a.py") 3 (u "total = 1") deleted.
Definition total_added_indented : ChangedLine :=
  new_ChangedLine (u "a.py") 3 (u "                total = 2") added.

(** Two blank lines at the same position. *)
Definition blank_deleted : ChangedLine :=
  new_ChangedLine (u "a.py") 3 (u "    ") deleted.
Definition blank_added : ChangedLine :=
  new_ChangedLine (u "a.py") 3 (u "    ") added.

(** The working tree of the specification's end-to-end scenario: line 5
    of [a.txt] changed from ["helo world"] to ["hello world"], nothing
    staged. *)
Definition example_diff (arg : str) : result str :=
  if str_eqb arg (u "HEAD")
  then Ok (u "diff --git a/a.txt b/a.txt" ++ newline
           ++ u "index 3b18e51..95d09f2 100644" ++ newline
           ++ u "--- a/a.txt" ++ newline
           ++ u "+++ b/a.txt" ++ newline
           ++ u "@@ -5 +5 @@" ++ newline
           ++ u "-helo world" ++ newline
           ++ u "+hello world" ++ newline)
  else Ok [].

Definition example_rev_list (range : str) : result str := Raise GitCommandError.

(** A hunk and two changed lines before any file header. *)
Definition headerless_diff : str :=
  u "@@ -1 +1 @@" ++ newline ++ u "-foo" ++ newline ++ u "+bar".

(** The header of [x] and of a hunk at line 5, and the parser's local
    variables after them. *)
Definition hunk_of_x : str := u "diff --git a/x b/x" ++ newline ++ u "@@ -5,2 +5 @@".

Definition in_hunk_of_x : parse_locals :=
  {| changed_lines := []; current_file := Some (u "x");
     old_line_num := Some 5; new_line_num := Some 5 |}.

(** A deleted line that carries its surrounding lines. *)
Definition deleted_with_context : ChangedLine :=
  {| file_path := u "a.py"; line_number := 3; content := u "x = 1";
     change_type := deleted; classification := POSSIBLE_FIXUP;
     context_lines := Some [u "above"; u "below"] |}.

(** A separator of 120 ['='], and a commented-out definition of more than
    100 characters. *)
Definition separator_line : str := repeat 61%N 120.

Definition commented_out_def : str :=
  u "    # def compute_total(items): kept for reference until every caller has moved to the new billing module".

(** A working tree whose diff has a hunk header that does not parse, and
    one without changes. *)
Definition malformed_tree (arg : str) : result str := Ok diff_with_malformed_hunk.

Definition clean_tree (arg : str) : result str := Ok [].

(** A [git blame] that answers with white space only. *)
Definition blank_blame (file : str) (n : Z) : result str := Ok (u "  " ++ newline).

Definition jane : Commit :=
  {| message := u "Add greeting" ++ newline;
     author_name := u "Jane Doe";
     author_email := u "jane@example.com" |}.

(* ===================================================================== *)
(** * Properties                                                          *)
(* ===================================================================== *)

(** ** Equality tests *)

Lemma str_eqb_eq (a b : str) : str_eqb a b = true <-> a = b.
Proof.
  unfold str_eqb. destruct (list_eq_dec N.eq_dec a b); split; congruence.
Qed.

Lemma str_eqb_refl (a : str) : str_eqb a a = true.
Proof. apply str_eqb_eq. reflexivity. Qed.

Lemma str_eqb_neq (a b : str) : str_eqb a b = false <-> a <> b.
Proof.
  unfold str_eqb. destruct (list_eq_dec N.eq_dec a b); split; congruence.
Qed.

Lemma ChangedLine_eqb_eq (a b : ChangedLine) : ChangedLine_eqb a b = true <-> a = b.
Proof.
  unfold ChangedLine_eqb. destruct (ChangedLine_eq_dec a b); split; congruence.
Qed.

Lemma existsb_ChangedLine_eqb (x : ChangedLine) (s : list ChangedLine) :
  existsb (ChangedLine_eqb x) s = true <-> In x s.
Proof.
  rewrite existsb_exists. split.
  - intros [y [Hy Heq]]. apply ChangedLine_eqb_eq in Heq. subst. exact Hy.
  - intros Hin. exists x. split; [exact Hin | apply ChangedLine_eqb_eq; reflexivity].
Qed.

Lemma deleted_neq_added : str_eqb deleted added = false.
Proof. reflexivity. Qed.

Lemma added_neq_deleted : str_eqb added deleted = false.
Proof. reflexivity. Qed.

Create Rewrite HintDb pyeq.
#[local] Hint Rewrite str_eqb_refl deleted_neq_added added_neq_deleted : pyeq.

(** ** LineReconciler: a line left unpaired *)

(** C1 (the code departs from it): a deleted line that finds no partner is
    appended by the pairing loop ("keep as deleted") and once more by the
    loop over the remaining unmatched lines, so the reconciler's output
    holds it twice, not once. *)
Theorem C1_unpaired_deleted_line_is_emitted_twice :
  forall (ratio : str -> str -> Q) (f : str) (n : Z) (c : str),
    _enhance_change_detection ratio [new_ChangedLine f n c deleted]
    = Ok [new_ChangedLine f n c deleted; new_ChangedLine f n c deleted].
Proof.
  intros ratio f n c.
  unfold _enhance_change_detection, group_by_file, group_append. simpl.
  autorewrite with pyeq. simpl.
  unfold enhance_file. simpl.
  autorewrite with pyeq. simpl.
  reflexivity.
Qed.

(** ** DiffParser: body lines without a usable hunk header *)

(** C2 (the code departs from it): a hunk whose header does not parse is
    not skipped.  Its body lines are read with whatever the counters hold:
    before any good header they are unbound and the parser stops with
    [UnboundLocalError]; after a good hunk the lines are recorded under that
    hunk's numbering. *)
Theorem C2_malformed_hunk_is_not_skipped :
  (forall (U : UnicodeDB),
      _parse_diff diff_with_malformed_hunk (u "unstaged") = Raise UnboundLocalError)
  /\ (forall (U : UnicodeDB),
      _parse_diff (u " context") (u "unstaged") = Raise UnboundLocalError)
  /\ @_parse_diff latin1 diff_with_second_hunk_malformed (u "unstaged")
     = Ok [new_ChangedLine (u "x") 5 (u "a") deleted;
           new_ChangedLine (u "x") 6 (u "b") deleted].
Proof.
  split; [| split].
  - intros U. vm_compute. reflexivity.
  - intros U. vm_compute. reflexivity.
  - vm_compute. reflexivity.
Qed.

(** ** ChangeClassifier: a failing existence check *)

Section NewFile.
Context {U : UnicodeDB}.
Variable git_show : str -> result str.
Variable commit_age : str -> result Z.

Lemma classify_change_existing_file (change : ChangedLine) (target : option str) :
  _is_new_file git_show (file_path change) = Ok false ->
  exists c, classify_change git_show commit_age change target = Ok c
            /\ c <> NEW_FILE.
Proof.
  intros Hold. unfold classify_change. rewrite Hold. simpl.
  repeat match goal with
         | |- context [if ?b then _ else _] => destruct b
         end; eexists; (split; [reflexivity | discriminate]).
Qed.

End NewFile.

(** C3, as stated, fails: here the existence check errors and the
    classifier answers [NEW_FILE]. *)
Lemma C3_failed_check_gives_new_file :
  git_show_failing (u "HEAD:a.txt") = Raise GitCommandError
  /\ @classify_change latin1 git_show_failing no_commit_age
       (new_ChangedLine (u "a.txt") 1 (u "x = compute_total(items)") added) None
     = Ok NEW_FILE.
Proof. split; reflexivity. Qed.

(** C3 (amended): the classifier learns that a file is absent from the
    failure of [git show HEAD:<path>] and from nothing else.  When that
    call raises a git command error the class is [NEW_FILE], whatever made
    the command fail; any other exception leaves the classifier as it is;
    and when the call answers the class is never [NEW_FILE]. *)
Theorem C3_new_file_iff_show_fails :
  forall (U : UnicodeDB) (git_show : str -> result str)
         (commit_age : str -> result Z) (change : ChangedLine)
         (target : option str),
    match git_show (u "HEAD:" ++ file_path change) with
    | Raise GitCommandError =>
        classify_change git_show commit_age change target = Ok NEW_FILE
    | Raise e =>
        classify_change git_show commit_age change target = Raise e
    | Ok _ =>
        exists c, classify_change git_show commit_age change target = Ok c
                  /\ c <> NEW_FILE
    end.
Proof.
  intros U git_show commit_age change target.
  destruct (git_show (u "HEAD:" ++ file_path change)) as [out | e] eqn:Hshow.
  - apply classify_change_existing_file. unfold _is_new_file. rewrite Hshow.
    reflexivity.
  - destruct e;
      try (unfold classify_change, _is_new_file; rewrite Hshow; reflexivity).
Qed.

(** ** ChangeClassifier: short content *)

(** C9, as stated, fails: five characters of trimmed content, the file
    is in the committed tree, and the class is [POSSIBLE_FIXUP].  The
    length the code tests is that of the trimmed content after
    lower-casing, which here is ten. *)
Lemma C9_short_trimmed_content_possible_fixup :
  _is_new_file git_show_answering (u "a.txt") = Ok false
  /\ len (strip five_dotted_capital_I) = 5
  /\ @classify_change latin1 git_show_answering no_commit_age
       (new_ChangedLine (u "a.txt") 1 five_dotted_capital_I added) None
     = Ok POSSIBLE_FIXUP.
Proof. repeat split; reflexivity. Qed.

(** The short-content rule, on the string the code measures. *)
Lemma likely_fixup_when_short `{UnicodeDB} (change : ChangedLine) :
  len (str_lower (strip (content change))) < 10 ->
  _is_likely_fixup_content change = true.
Proof.
  intros Hshort. unfold _is_likely_fixup_content.
  destruct (existsb _ fixup_patterns); [reflexivity |].
  apply Z.ltb_lt in Hshort. rewrite Hshort. reflexivity.
Qed.

(** Where lower-casing does not lengthen the trimmed content (any content
    without U+0130), fewer than 10 trimmed characters are enough. *)
Lemma likely_fixup_when_trimmed_short `{UnicodeDB} (change : ChangedLine) :
  len (str_lower (strip (content change))) <= len (strip (content change)) ->
  len (strip (content change)) < 10 ->
  _is_likely_fixup_content change = true.
Proof. intros Hlower Hshort. apply likely_fixup_when_short. lia. Qed.

(** C9 (amended): for a line whose file is in the committed tree, if the
    trimmed and lower-cased content is shorter than 10 characters the class
    is [LIKELY_FIXUP], whether or not a fixup pattern matches and whatever
    the later rules (length over 100, age, structure) would say. *)
Theorem C9_short_content_is_likely_fixup :
  forall (U : UnicodeDB) (git_show : str -> result str)
         (commit_age : str -> result Z) (change : ChangedLine)
         (target : option str),
    _is_new_file git_show (file_path change) = Ok false ->
    len (str_lower (strip (content change))) < 10 ->
    classify_change git_show commit_age change target = Ok LIKELY_FIXUP.
Proof.
  intros U git_show commit_age change target Hold Hshort.
  unfold classify_change. rewrite Hold. simpl.
  rewrite (likely_fixup_when_short change Hshort). reflexivity.
Qed.

(** The specification's example: content ["x"]. *)
Lemma C9_content_x_is_likely_fixup :
  @classify_change latin1 git_show_answering no_commit_age
    (new_ChangedLine (u "a.txt") 1 (u "x") added) None
  = Ok LIKELY_FIXUP.
Proof.
  apply (C9_short_content_is_likely_fixup latin1 git_show_answering
           no_commit_age (new_ChangedLine (u "a.txt") 1 (u "x") added) None).
  - reflexivity.
  - vm_compute. reflexivity.
Defined.

(** ** Loops *)

Lemma for_each_app {A S : Type} (body : S -> A -> result S) (l1 l2 : list A) (s : S) :
  for_each body (l1 ++ l2) s = (s' <- for_each body l1 s ;; for_each body l2 s').
Proof.
  revert s. induction l1 as [| x l1 IH]; intros s; simpl.
  - reflexivity.
  - destruct (body s x) as [s' | e]; simpl; [apply IH | reflexivity].
Qed.

(** A loop that appends to a list the elements a test keeps is [filter]. *)
Lemma for_each_filter {A : Type} (keep : A -> bool)
    (body : list A -> A -> result (list A)) (l : list A) :
  (forall acc x, In x l ->
     body acc x = Ok (if keep x then acc ++ [x] else acc)) ->
  forall acc, for_each body l acc = Ok (acc ++ filter keep l).
Proof.
  induction l as [| x l IH]; intros Hbody acc; simpl.
  - rewrite app_nil_r. reflexivity.
  - rewrite Hbody by (left; reflexivity). simpl.
    rewrite IH by (intros; apply Hbody; right; assumption).
    destruct (keep x); [rewrite <- app_assoc |]; reflexivity.
Qed.

Lemma len_nil_iff {A : Type} (l : list A) : len l = 0 <-> l = [].
Proof.
  unfold len. destruct l; simpl; split; intros H0; try reflexivity;
    try discriminate; lia.
Qed.

(** ** ModeFilter *)

Lemma count_likely (ls : list ChangedLine) :
  count LIKELY_FIXUP (map classification ls)
  = len (filter (fun l => is_likely (classification l)) ls).
Proof.
  unfold count, len. f_equal.
  induction ls as [| l ls IH]; simpl; [reflexivity |].
  destruct (classification l); simpl; rewrite IH; reflexivity.
Qed.

Lemma count_new_work (ls : list ChangedLine) :
  count NEW_FILE (map classification ls) + count UNLIKELY_FIXUP (map classification ls)
  = len (filter (fun l => is_new_work (classification l)) ls).
Proof.
  unfold count, len. rewrite <- Nat2Z.inj_add. f_equal.
  induction ls as [| l ls IH]; simpl; [reflexivity |].
  destruct (classification l); simpl; lia.
Qed.

Lemma truediv_ok (a b : Z) :
  b <> 0 -> truediv a b = Ok (inject_Z a / inject_Z b)%Q.
Proof.
  intros Hb. unfold truediv. destruct (Z.eqb_spec b 0); [contradiction | reflexivity].
Qed.

Lemma mode_step_fixups_only (acc : list FixupTarget.t) (t : FixupTarget.t) :
  has_lines t ->
  mode_step FIXUPS_ONLY acc t = Ok (if keep_fixups_only t then acc ++ [t] else acc).
Proof.
  intros Hlines. unfold mode_step, keep_fixups_only, fraction_of.
  rewrite truediv_ok.
  - simpl. rewrite count_likely. unfold len at 2 4. rewrite length_map.
    destruct (Qgeb _ _); reflexivity.
  - unfold len. rewrite length_map. intros H0.
    apply Hlines. apply len_nil_iff. exact H0.
Qed.

Lemma mode_step_smart_default (acc : list FixupTarget.t) (t : FixupTarget.t) :
  has_lines t ->
  mode_step SMART_DEFAULT acc t = Ok (if keep_smart_default t then acc ++ [t] else acc).
Proof.
  intros Hlines. unfold mode_step, keep_smart_default, fraction_of.
  rewrite truediv_ok.
  - simpl. rewrite count_new_work. unfold len at 2 4. rewrite length_map.
    destruct (Qltb _ _); reflexivity.
  - unfold len. rewrite length_map. intros H0.
    apply Hlines. apply len_nil_iff. exact H0.
Qed.

Lemma filter_mode_ok (targets : list FixupTarget.t) (mode : FilterMode) :
  Forall has_lines targets ->
  _filter_targets_by_mode targets mode
  = Ok (match mode with
        | INCLUDE_ALL => targets
        | FIXUPS_ONLY => filter keep_fixups_only targets
        | SMART_DEFAULT => filter keep_smart_default targets
        end).
Proof.
  intros Hall. rewrite Forall_forall in Hall.
  destruct mode; unfold _filter_targets_by_mode.
  - rewrite (for_each_filter keep_smart_default); [reflexivity |].
    intros acc t Hin. apply mode_step_smart_default. apply Hall. exact Hin.
  - rewrite (for_each_filter keep_fixups_only); [reflexivity |].
    intros acc t Hin. apply mode_step_fixups_only. apply Hall. exact Hin.
  - reflexivity.
Qed.

(** On a target without lines the two counting modes divide by zero. *)
Lemma mode_step_no_lines (mode : FilterMode) (acc : list FixupTarget.t)
    (t : FixupTarget.t) :
  mode <> INCLUDE_ALL ->
  FixupTarget.changed_lines t = [] ->
  mode_step mode acc t = Raise ZeroDivisionError.
Proof.
  intros Hmode Hnone. unfold mode_step. rewrite Hnone.
  destruct mode; [reflexivity | reflexivity | contradiction].
Qed.

Lemma Qgeb_iff (a b : Q) : Qgeb a b = true <-> (b <= a)%Q.
Proof. unfold Qgeb. apply Qle_bool_iff. Qed.

Lemma Qltb_iff (a b : Q) : Qltb a b = true <-> (a < b)%Q.
Proof.
  unfold Qltb. rewrite negb_true_iff. split.
  - intros Hle. apply Qnot_le_lt. intros Hba.
    apply Qle_bool_iff in Hba. congruence.
  - intros Hlt. destruct (Qle_bool b a) eqn:Hle; [| reflexivity].
    apply Qle_bool_iff in Hle. exfalso. exact (Qlt_not_le _ _ Hlt Hle).
Qed.

Lemma Qgtb_iff (a b : Q) : Qgtb a b = true <-> (b < a)%Q.
Proof. unfold Qgtb. apply (Qltb_iff b a). Qed.

(** C5: [include_all] returns the list as it is.  On targets that have
    lines, [fixups_only] returns, in order, the targets whose fraction of
    [likely_fixup] lines is at least 0.5, and [smart_default] those whose
    fraction of [new_file] or [unlikely_fixup] lines is strictly below 0.7;
    so a target with 7 such lines out of 10 is dropped by [smart_default]. *)
Theorem C5_mode_filter_thresholds :
  forall targets : list FixupTarget.t,
    _filter_targets_by_mode targets INCLUDE_ALL = Ok targets
    /\ (Forall has_lines targets ->
        _filter_targets_by_mode targets FIXUPS_ONLY
        = Ok (filter keep_fixups_only targets)
        /\ _filter_targets_by_mode targets SMART_DEFAULT
           = Ok (filter keep_smart_default targets))
    /\ (forall t, keep_fixups_only t = true <-> (0.5 <= fraction_of is_likely t)%Q)
    /\ (forall t, keep_smart_default t = true <-> (fraction_of is_new_work t < 0.7)%Q)
    /\ (forall t,
          len (FixupTarget.changed_lines t) = 10 ->
          len (filter (fun l => is_new_work (classification l))
                 (FixupTarget.changed_lines t)) = 7 ->
          keep_smart_default t = false).
Proof.
  intros targets. split; [reflexivity |]. split; [| split; [| split]].
  - intros Hall. split.
    + apply (filter_mode_ok targets FIXUPS_ONLY Hall).
    + apply (filter_mode_ok targets SMART_DEFAULT Hall).
  - intros t. apply Qgeb_iff.
  - intros t. apply Qltb_iff.
  - intros t Hten Hseven. unfold keep_smart_default, fraction_of.
    rewrite Hten, Hseven. reflexivity.
Qed.

(** The specification's two examples: 2 of 3 likely passes [fixups_only];
    7 of 10 unlikely is dropped by [smart_default], 2 of 3 likely kept. *)
Lemma C5_examples :
  _filter_targets_by_mode [seven_of_ten_unlikely; two_of_three_likely] FIXUPS_ONLY
  = Ok [two_of_three_likely]
  /\ _filter_targets_by_mode [seven_of_ten_unlikely; two_of_three_likely] SMART_DEFAULT
     = Ok [two_of_three_likely].
Proof.
  destruct (C5_mode_filter_thresholds [seven_of_ten_unlikely; two_of_three_likely])
    as (_ & Hmodes & _).
  destruct Hmodes as [Hfix Hsmart].
  - repeat constructor; discriminate.
  - rewrite Hfix, Hsmart. split; reflexivity.
Defined.

(** ** The matcher against the reading of patterns *)

Section EngineFacts.
Import Re.
Context {U : UnicodeDB}.

Lemma eat_sound (p : N -> bool) (st : mstate) (k : mstate -> option mstate)
    (res : mstate) :
  eat p st k = Some res -> exists st', ate p st st' /\ k st' = Some res.
Proof.
  unfold eat. destruct (rest st) as [| c rest'] eqn:Hrest; [discriminate |].
  destruct (p c) eqn:Hp; [| discriminate].
  intros Hk. eexists. split; [| exact Hk]. apply ate_char; assumption.
Qed.

Lemma star_loop_sound (a : regex)
    (body : mstate -> (mstate -> option mstate) -> option mstate)
    (k : mstate -> option mstate) :
  (forall st k' res, body st k' = Some res ->
     exists st', steps a st st' /\ k' st' = Some res) ->
  forall fuel st res,
    star_loop body k fuel st = Some res ->
    exists st', steps (Star a) st st' /\ k st' = Some res.
Proof.
  intros Hbody. induction fuel as [| fuel IH]; intros st res; simpl.
  - intros Hk. exists st. split; [apply steps_Star_stop | exact Hk].
  - destruct (body st _) as [m |] eqn:Hround.
    + intros [= ->]. apply Hbody in Hround. destruct Hround as (mid & Hmid & Hnext).
      destruct (Nat.ltb (pos st) (pos mid)) eqn:Hlt; [| discriminate].
      apply Nat.ltb_lt in Hlt.
      destruct (IH mid res Hnext) as (st' & Hstar & Hk).
      exists st'. split; [| exact Hk].
      apply (steps_Star_more a st mid st'); assumption.
    + intros Hk. exists st. split; [apply steps_Star_stop | exact Hk].
Qed.

(** When the matcher succeeds, the continuation succeeded at a position
    the pattern leads to. *)
Lemma run_sound (r : regex) :
  forall st k res,
    run r st k = Some res -> exists st', steps r st st' /\ k st' = Some res.
Proof.
  induction r as [| i | items | items | | | | a IHa b IHb | a IHa b IHb | a IHa | n a IHa];
    intros st k res; simpl.
  - intros Hk. exists st. split; [constructor | exact Hk].
  - intros Hrun. apply eat_sound in Hrun. destruct Hrun as (st' & Hate & Hk).
    exists st'. split; [constructor; exact Hate | exact Hk].
  - intros Hrun. apply eat_sound in Hrun. destruct Hrun as (st' & Hate & Hk).
    exists st'. split; [constructor; exact Hate | exact Hk].
  - intros Hrun. apply eat_sound in Hrun. destruct Hrun as (st' & Hate & Hk).
    exists st'. split; [constructor; exact Hate | exact Hk].
  - destruct (Nat.eqb (pos st) 0) eqn:Hpos; [| discriminate].
    intros Hk. exists st. split; [| exact Hk].
    constructor. apply Nat.eqb_eq. exact Hpos.
  - destruct (rest st) as [| c [| c' rest']] eqn:Hrest; try discriminate.
    + intros Hk. exists st. split; [| exact Hk]. constructor. left. exact Hrest.
    + destruct c as [| p]; try discriminate.
      repeat (destruct p as [p | p |]; try discriminate).
      intros Hk. exists st. split; [| exact Hk]. constructor. right. exact Hrest.
    + destruct c as [| p]; try discriminate.
      repeat (destruct p as [p | p |]; try discriminate).
  - destruct (xorb _ _) eqn:Hb; [| discriminate].
    intros Hk. exists st. split; [constructor; exact Hb | exact Hk].
  - intros Hrun. apply IHa in Hrun. destruct Hrun as (mid & Ha & Hrun).
    apply IHb in Hrun. destruct Hrun as (st' & Hb & Hk).
    exists st'. split; [| exact Hk]. apply (steps_Seq a b st mid st'); assumption.
  - destruct (run a st k) as [m |] eqn:Hleft.
    + intros [= ->]. apply IHa in Hleft. destruct Hleft as (st' & Ha & Hk).
      exists st'. split; [apply steps_Alt_left; exact Ha | exact Hk].
    + intros Hright. apply IHb in Hright. destruct Hright as (st' & Hb & Hk).
      exists st'. split; [apply steps_Alt_right; exact Hb | exact Hk].
  - apply (star_loop_sound a (run a) k IHa).
  - intros Hrun. apply IHa in Hrun. destruct Hrun as (mid & Ha & Hk).
    eexists. split; [apply steps_Group; exact Ha | exact Hk].
Qed.

(** A pass consumes a piece of what is ahead and moves the position by its
    length. *)
Lemma ate_consumes (p : N -> bool) (st st' : mstate) :
  ate p st st' ->
  exists c, rest st = c :: rest st' /\ pos st' = S (pos st) /\ caps st' = caps st.
Proof. intros Hate. destruct Hate as [st c rest' Hrest _]. exists c. auto. Qed.

Lemma steps_consumes (r : regex) (st st' : mstate) :
  steps r st st' ->
  exists w, rest st = w ++ rest st' /\ pos st' = (pos st + length w)%nat.
Proof.
  induction 1 as [ st | i st st' Hate | items st st' Hate | items st st' Hate
                 | st _ | st _ | st _
                 | a b st mid st' _ IHa _ IHb
                 | a b st st' _ IH | a b st st' _ IH
                 | a st
                 | a st mid st' _ IHa _ _ IHs
                 | n a st mid _ IH ];
    try (exists []; simpl; split; [reflexivity | lia]);
    try (apply ate_consumes in Hate; destruct Hate as (c & Hrest & Hpos & _);
         exists [c]; simpl; split; [exact Hrest | lia]);
    try exact IH.
  - destruct IHa as (w1 & Hr1 & Hp1). destruct IHb as (w2 & Hr2 & Hp2).
    exists (w1 ++ w2). rewrite Hr1, Hr2, <- app_assoc, length_app.
    split; [reflexivity | lia].
  - destruct IHa as (w1 & Hr1 & Hp1). destruct IHs as (w2 & Hr2 & Hp2).
    exists (w1 ++ w2). rewrite Hr1, Hr2, <- app_assoc, length_app.
    split; [reflexivity | lia].
Qed.

Lemma skipn_step {A : Type} (p : nat) (s : list A) (c : A) (t : list A) :
  skipn p s = c :: t -> skipn (S p) s = t.
Proof.
  revert s. induction p as [| p IH]; intros s; destruct s as [| x s]; simpl;
    try discriminate.
  - intros [= _ ->]. reflexivity.
  - intros Hs. apply IH in Hs. exact Hs.
Qed.

(** A match found by [search] starts where the subject leaves what is
    ahead, and leads where the pattern leads. *)
Lemma search_from_sound (r : regex) (subject : str) :
  forall ahead p before m,
    ahead = skipn p subject ->
    search_from r subject p before ahead = Some m ->
    exists before' st',
      steps r {| pos := m_start m; prev := before';
                 rest := skipn (m_start m) subject; caps := [] |} st'
      /\ m_end m = pos st' /\ m_caps m = caps st' /\ m_subject m = subject.
Proof.
  induction ahead as [| c ahead IH]; intros p before m Hahead; simpl.
  - destruct (run r _ Some) as [st |] eqn:Hrun; [| discriminate].
    intros [= <-]. simpl. apply run_sound in Hrun.
    destruct Hrun as (st' & Hsteps & [= ->]).
    exists before, st. rewrite <- Hahead. auto.
  - destruct (run r _ Some) as [st |] eqn:Hrun.
    + intros [= <-]. simpl. apply run_sound in Hrun.
      destruct Hrun as (st' & Hsteps & [= ->]).
      exists before, st. rewrite <- Hahead. auto.
    + apply IH. symmetry. apply (skipn_step p subject c ahead). symmetry. exact Hahead.
Qed.

Lemma search_sound (r : regex) (subject : str) (m : match_object) :
  search r subject = Some m ->
  exists before st',
    steps r {| pos := m_start m; prev := before;
               rest := skipn (m_start m) subject; caps := [] |} st'
    /\ m_end m = pos st' /\ m_caps m = caps st' /\ m_subject m = subject.
Proof. unfold search. apply search_from_sound. reflexivity. Qed.

Lemma slice_not_nil (s : str) (i j : nat) (c : N) (t : str) :
  skipn i s = c :: t -> (i < j)%nat -> slice s i j <> [].
Proof.
  intros Hs Hlt. unfold slice. rewrite Hs.
  destruct (j - i)%nat as [| n] eqn:Hn; [lia | discriminate].
Qed.

(** The email [_extract_email_from_author] returns is never empty. *)
Lemma extracted_email_not_empty (author email : str) :
  _extract_email_from_author author = Some email -> email <> [].
Proof.
  unfold _extract_email_from_author.
  destruct (search bracketed_email author) as [m |] eqn:Hbracket.
  - apply search_sound in Hbracket.
    destruct Hbracket as (before & st' & Hsteps & _ & Hcaps & Hsubject).
    unfold group. rewrite Hcaps, Hsubject. clear Hcaps Hsubject.
    cbv [bracketed_email cat lit map u list_ascii_of_string Plus] in Hsteps.
    inversion Hsteps as [| | | | | | | ? ? ? st1 ? Hopen Hrest | | | | |]; subst.
    inversion Hrest as [| | | | | | | ? ? ? st3 ? Hgroup Hclose | | | | |]; subst.
    inversion Hgroup as [| | | | | | | | | | | | ? ? ? mid Hbody]; subst.
    inversion Hclose as [| ? ? ? Hate | | | | | | | | | | |]; subst.
    apply ate_consumes in Hate. destruct Hate as (_ & _ & _ & Hc).
    simpl in Hc.
    inversion Hbody as [| | | | | | | ? ? ? st2 ? Hfirst Hmore | | | | |]; subst.
    inversion Hfirst as [| | | ? ? ? Hate1 | | | | | | | | |]; subst.
    apply ate_consumes in Hate1. destruct Hate1 as (c1 & Hr1 & Hp1 & _).
    apply steps_consumes in Hmore. destruct Hmore as (w & _ & Hp2).
    inversion Hopen as [| ? ? ? Hate0 | | | | | | | | | | |]; subst.
    apply ate_consumes in Hate0. destruct Hate0 as (c0 & Hr0 & Hp0 & _).
    simpl in Hr0, Hp0.
    rewrite Hc. simpl.
    intros [= <-].
    apply (slice_not_nil author (pos st1) (pos mid) c1 (rest st2)); [| lia].
    rewrite Hp0. rewrite <- Hr1. apply (skipn_step _ _ c0). exact Hr0.
  - destruct (contains_char _ _ && contains_char _ _); [| discriminate].
    destruct (search bare_email author) as [m |] eqn:Hbare; [| discriminate].
    apply search_sound in Hbare.
    destruct Hbare as (before & st' & Hsteps & Hend & _ & Hsubject).
    unfold group. rewrite Hsubject, Hend. clear Hsubject Hend.
    cbv [bare_email cat lit map u list_ascii_of_string Plus] in Hsteps.
    inversion Hsteps as [| | | | | | | ? ? ? st1 ? Hplus Hrest | | | | |]; subst.
    inversion Hplus as [| | | | | | | ? ? ? st2 ? Hfirst Hmore | | | | |]; subst.
    inversion Hfirst as [| ? ? ? Hate | | | | | | | | | | |]; subst.
    apply ate_consumes in Hate. destruct Hate as (c & Hr & Hp & _).
    simpl in Hr, Hp.
    apply steps_consumes in Hmore. destruct Hmore as (w1 & _ & Hp1).
    apply steps_consumes in Hrest. destruct Hrest as (w2 & _ & Hp2).
    intros [= <-].
    apply (slice_not_nil author (m_start m) (pos st') c (rest st2)); [exact Hr | lia].
Qed.

End EngineFacts.

(** ** OrganizationFilter *)

Section OrganizationFilterFacts.
Context {U : UnicodeDB}.
Variable Pattern : Type.
Variable pattern_search : Pattern -> str -> bool.

Lemma author_matches_iff (pattern : Pattern) (author : str) :
  author_matches Pattern pattern_search pattern author = true
  <-> exists email, _extract_email_from_author author = Some email
                    /\ email <> []
                    /\ pattern_search pattern email = true.
Proof.
  unfold author_matches.
  destruct (_extract_email_from_author author) as [email |]; split.
  - intros Hb. apply andb_true_iff in Hb. destruct Hb as [Hne Hs].
    exists email. repeat split; [| exact Hs].
    destruct email; [discriminate | discriminate].
  - intros (e & He & Hne & Hs). injection He as <-.
    apply andb_true_iff. split; [| exact Hs].
    destruct email; [contradiction | reflexivity].
  - discriminate.
  - intros (e & He & _). discriminate.
Qed.

End OrganizationFilterFacts.

(** C7: the organization filter raises when the pattern does not
    compile.  When it compiles, the filter returns, in order, exactly the
    targets from whose author string an email is extracted and in whose
    email the pattern matches somewhere; a target with no extractable email
    is dropped and nothing is raised.  The email is the bracketed part when
    the author string has one, else what the bare scan finds. *)
Theorem C7_organization_filter :
  forall (U : UnicodeDB) (Pattern : Type)
         (re_compile_ignorecase : str -> option Pattern)
         (pattern_search : Pattern -> str -> bool)
         (targets : list FixupTarget.t) (org_email_pattern : str),
    match re_compile_ignorecase org_email_pattern with
    | None =>
        filter_targets_by_organization Pattern re_compile_ignorecase
          pattern_search targets org_email_pattern = Raise ValueError
    | Some pattern =>
        filter_targets_by_organization Pattern re_compile_ignorecase
          pattern_search targets org_email_pattern
        = Ok (filter (fun t => author_matches Pattern pattern_search pattern
                                 (FixupTarget.author t)) targets)
        /\ (forall t,
              author_matches Pattern pattern_search pattern (FixupTarget.author t) = true
              <-> exists email,
                    _extract_email_from_author (FixupTarget.author t) = Some email
                    /\ pattern_search pattern email = true)
        /\ (forall t,
              _extract_email_from_author (FixupTarget.author t) = None ->
              author_matches Pattern pattern_search pattern (FixupTarget.author t) = false)
        /\ (forall author m,
              Re.search bracketed_email author = Some m ->
              _extract_email_from_author author = Re.group m 1)
        /\ (forall author,
              Re.search bracketed_email author = None ->
              _extract_email_from_author author
              = if contains_char (ch "@") author && contains_char (ch ".") author
                then match Re.search bare_email author with
                     | Some m => Re.group m 0
                     | None => None
                     end
                else None)
    end.
Proof.
  intros U Pattern compile psearch targets p.
  unfold filter_targets_by_organization.
  destruct (compile p) as [pattern |]; [| reflexivity].
  split; [| split; [| split; [| split]]].
  - rewrite (for_each_filter
               (fun t => author_matches Pattern psearch pattern (FixupTarget.author t)));
      [reflexivity |].
    intros acc t _. unfold author_matches.
    destruct (_extract_email_from_author (FixupTarget.author t)) as [email |];
      [destruct (truthy email && psearch pattern email) |]; reflexivity.
  - intros t. rewrite author_matches_iff. split.
    + intros (email & He & _ & Hs). exists email. split; assumption.
    + intros (email & He & Hs). exists email.
      split; [exact He |]. split; [| exact Hs].
      apply (extracted_email_not_empty _ _ He).
  - intros t Hnone. unfold author_matches. rewrite Hnone. reflexivity.
  - intros author m Hm. unfold _extract_email_from_author. rewrite Hm. reflexivity.
  - intros author Hnone. unfold _extract_email_from_author. rewrite Hnone.
    reflexivity.
Qed.

(** The specification's examples: ["Jane Doe <jane@example.com>"] is kept
    by [.*@example\.com], ["Jane Doe"] has no email and is dropped, an
    address elsewhere is dropped; the bracketed form wins over a bare
    address; a pattern that does not compile raises. *)
Lemma C7_jane_doe_examples :
  @filter_targets_by_organization latin1 Re.regex compile_example search_example
    [target_by "Jane Doe <jane@example.com>"; target_by "Jane Doe";
     target_by "bob@elsewhere.org"]
    (u ".*@example\.com")
  = Ok [target_by "Jane Doe <jane@example.com>"]
  /\ @_extract_email_from_author latin1 (u "jane@example.com <j.doe@work.example>")
     = Some (u "j.doe@work.example")
  /\ @_extract_email_from_author latin1 (u "mail bob@elsewhere.org please")
     = Some (u "bob@elsewhere.org")
  /\ @filter_targets_by_organization latin1 Re.regex compile_example search_example
       [target_by "Jane Doe <jane@example.com>"] (u "(")
     = Raise ValueError.
Proof.
  pose proof (C7_organization_filter latin1 Re.regex compile_example
                search_example
                [target_by "Jane Doe <jane@example.com>"; target_by "Jane Doe";
                 target_by "bob@elsewhere.org"]
                (u ".*@example\.com")) as Hkept.
  change (compile_example (u ".*@example\.com")) with (Some example_com) in Hkept.
  cbv beta iota in Hkept. destruct Hkept as [Hkept _].
  split; [rewrite Hkept; vm_compute; reflexivity |].
  split; [vm_compute; reflexivity |].
  split; [vm_compute; reflexivity |].
  exact (C7_organization_filter latin1 Re.regex compile_example search_example
           [target_by "Jane Doe <jane@example.com>"] (u "(")).
Defined.

(** ** Insertion-ordered dictionaries *)

Section DictFacts.
Context {V : Type}.
Implicit Types (d : list (str * V)) (k : str) (v : V).

Lemma dict_get_set_same d k v : dict_get k (dict_set k v d) = Some v.
Proof.
  induction d as [| [k' v'] d IH]; simpl.
  - rewrite str_eqb_refl. reflexivity.
  - destruct (str_eqb k k') eqn:Heq; simpl; rewrite Heq; [reflexivity | exact IH].
Qed.

Lemma dict_get_set_other d k k0 v :
  k0 <> k -> dict_get k0 (dict_set k v d) = dict_get k0 d.
Proof.
  intros Hne. induction d as [| [k' v'] d IH]; simpl.
  - apply str_eqb_neq in Hne. rewrite Hne. reflexivity.
  - destruct (str_eqb k k') eqn:Heq; simpl.
    + apply str_eqb_eq in Heq. subst k'.
      apply str_eqb_neq in Hne. rewrite Hne. reflexivity.
    + rewrite IH. reflexivity.
Qed.

Lemma keys_dict_set d k v :
  map fst (dict_set k v d)
  = if dict_contains k d then map fst d else map fst d ++ [k].
Proof.
  unfold dict_contains. induction d as [| [k' v'] d IH]; simpl.
  - reflexivity.
  - destruct (str_eqb k k') eqn:Heq; simpl; [reflexivity |].
    rewrite IH. destruct (dict_get k d); reflexivity.
Qed.

Lemma dict_get_In d k v : dict_get k d = Some v -> In (k, v) d.
Proof.
  induction d as [| [k' v'] d IH]; simpl; [discriminate |].
  destruct (str_eqb k k') eqn:Heq.
  - apply str_eqb_eq in Heq. subst k'. intros [= ->]. left. reflexivity.
  - intros Hget. right. apply IH. exact Hget.
Qed.

Lemma dict_get_None d k : dict_get k d = None <-> ~ In k (map fst d).
Proof.
  induction d as [| [k' v'] d IH]; simpl.
  - split; [intros _ [] | reflexivity].
  - destruct (str_eqb k k') eqn:Heq.
    + apply str_eqb_eq in Heq. subst k'. split; [discriminate |].
      intros Hnot. exfalso. apply Hnot. left. reflexivity.
    + apply str_eqb_neq in Heq. rewrite IH. split.
      * intros Hnot [Hk | Hin]; [congruence | contradiction].
      * intros Hnot Hin. apply Hnot. right. exact Hin.
Qed.

Lemma In_dict_get d k v :
  NoDup (map fst d) -> In (k, v) d -> dict_get k d = Some v.
Proof.
  induction d as [| [k' v'] d IH]; simpl; [intros _ [] |].
  intros Hnd [Heq | Hin].
  - injection Heq as -> ->. rewrite str_eqb_refl. reflexivity.
  - inversion Hnd as [| ? ? Hnotin Hnd']; subst.
    destruct (str_eqb k k') eqn:Heq.
    + apply str_eqb_eq in Heq. subst k'. exfalso. apply Hnotin.
      apply (in_map fst) in Hin. exact Hin.
    + apply IH; assumption.
Qed.

End DictFacts.

Section GroupFacts.
Context {A : Type}.
Implicit Types (d : list (str * list A)) (k : str) (x : A).

Lemma dict_get_append_same d k x :
  dict_get k (dict_append k x d)
  = option_map (fun ls => ls ++ [x]) (dict_get k d).
Proof.
  induction d as [| [k' v'] d IH]; simpl; [reflexivity |].
  destruct (str_eqb k k') eqn:Heq; simpl; rewrite Heq; [reflexivity | exact IH].
Qed.

Lemma dict_get_append_other d k k0 x :
  k0 <> k -> dict_get k0 (dict_append k x d) = dict_get k0 d.
Proof.
  intros Hne. induction d as [| [k' v'] d IH]; simpl; [reflexivity |].
  destruct (str_eqb k k') eqn:Heq; simpl.
  - apply str_eqb_eq in Heq. subst k'.
    apply str_eqb_neq in Hne. rewrite Hne. reflexivity.
  - rewrite IH. reflexivity.
Qed.

Lemma keys_dict_append d k x : map fst (dict_append k x d) = map fst d.
Proof.
  induction d as [| [k' v'] d IH]; simpl; [reflexivity |].
  destruct (str_eqb k k'); simpl; [reflexivity | rewrite IH; reflexivity].
Qed.

Lemma dict_get_group_append_same d k x :
  dict_get k (group_append k x d)
  = Some (match dict_get k d with Some ls => ls ++ [x] | None => [x] end).
Proof.
  unfold group_append, dict_contains. rewrite dict_get_append_same.
  destruct (dict_get k d) as [ls |] eqn:Hget; simpl.
  - rewrite Hget. reflexivity.
  - rewrite dict_get_set_same. reflexivity.
Qed.

Lemma dict_get_group_append_other d k k0 x :
  k0 <> k -> dict_get k0 (group_append k x d) = dict_get k0 d.
Proof.
  intros Hne. unfold group_append.
  rewrite dict_get_append_other by exact Hne.
  destruct (negb (dict_contains k d)); [apply dict_get_set_other; exact Hne | reflexivity].
Qed.

Lemma keys_group_append d k x :
  map fst (group_append k x d)
  = if dict_contains k d then map fst d else map fst d ++ [k].
Proof.
  unfold group_append. rewrite keys_dict_append.
  destruct (dict_contains k d) eqn:Hc; simpl; [reflexivity |].
  rewrite keys_dict_set, Hc. reflexivity.
Qed.

Lemma NoDup_group_append d k x :
  NoDup (map fst d) -> NoDup (map fst (group_append k x d)).
Proof.
  intros Hnd. rewrite keys_group_append. unfold dict_contains.
  destruct (dict_get k d) eqn:Hget; [exact Hnd |].
  apply dict_get_None in Hget.
  apply NoDup_app; [exact Hnd | repeat constructor; intros [] |].
  intros y Hy [<- | []]. contradiction.
Qed.

Variable key : A -> option str.

Lemma group_by_snoc (l : list A) (x : A) :
  group_by key (l ++ [x])
  = match key x with
    | Some k => group_append k x (group_by key l)
    | None => group_by key l
    end.
Proof. unfold group_by. rewrite fold_left_app. reflexivity. Qed.

Lemma group_by_NoDup (l : list A) : NoDup (map fst (group_by key l)).
Proof.
  induction l as [| x l IH] using rev_ind.
  - constructor.
  - rewrite group_by_snoc. destruct (key x);
      [apply NoDup_group_append |]; exact IH.
Qed.

(** The group of a key holds the elements with that key, in order; a key
    without elements has no group. *)
Lemma group_by_get (l : list A) (k : str) :
  dict_get k (group_by key l)
  = match filter (has_key key k) l with
    | [] => None
    | ls => Some ls
    end.
Proof.
  induction l as [| x l IH] using rev_ind; [reflexivity |].
  rewrite group_by_snoc, filter_app. simpl. unfold has_key at 2.
  destruct (key x) as [k' |] eqn:Hkey.
  - destruct (str_eqb k' k) eqn:Heq.
    + apply str_eqb_eq in Heq. subst k'.
      rewrite dict_get_group_append_same, IH.
      destruct (filter (has_key key k) l); reflexivity.
    + apply str_eqb_neq in Heq.
      rewrite dict_get_group_append_other by congruence.
      rewrite IH, app_nil_r. reflexivity.
  - rewrite IH, app_nil_r. reflexivity.
Qed.

Lemma group_by_In (l : list A) (k : str) (ls : list A) :
  In (k, ls) (group_by key l)
  <-> ls = filter (has_key key k) l /\ ls <> [].
Proof.
  split.
  - intros Hin. apply (In_dict_get _ _ _ (group_by_NoDup l)) in Hin.
    rewrite group_by_get in Hin.
    destruct (filter (has_key key k) l) eqn:Hf; [discriminate |].
    injection Hin as <-. split; [reflexivity | discriminate].
  - intros [-> Hne]. apply dict_get_In. rewrite group_by_get.
    destruct (filter (has_key key k) l); [contradiction | reflexivity].
Qed.

End GroupFacts.

(** ** [dict.fromkeys] keeps first occurrences *)

Lemma filter_absent_from_snoc (ks : list str) (x : str) (l : list str) :
  filter (absent_from (ks ++ [x])) l
  = filter (absent_from ks) (filter (fun y => negb (str_eqb x y)) l).
Proof.
  induction l as [| y l IH]; simpl; [reflexivity |].
  unfold absent_from at 1. rewrite existsb_app. simpl. rewrite orb_false_r.
  destruct (str_eqb x y) eqn:Hxy; simpl.
  - apply str_eqb_eq in Hxy. subst y. rewrite str_eqb_refl, orb_true_r. simpl.
    exact IH.
  - assert (Hyx : str_eqb y x = false).
    { apply str_eqb_neq. apply str_eqb_neq in Hxy. congruence. }
    rewrite Hyx, orb_false_r. fold (absent_from ks y).
    destruct (absent_from ks y); simpl; rewrite IH; reflexivity.
Qed.

Lemma filter_absent_from_member (ks : list str) (x : str) (l : list str) :
  existsb (str_eqb x) ks = true ->
  filter (absent_from ks) (filter (fun y => negb (str_eqb x y)) l)
  = filter (absent_from ks) l.
Proof.
  intros Hx. induction l as [| y l IH]; simpl; [reflexivity |].
  destruct (str_eqb x y) eqn:Hxy; simpl.
  - apply str_eqb_eq in Hxy. subst y. unfold absent_from at 2. rewrite Hx. simpl.
    exact IH.
  - rewrite IH. reflexivity.
Qed.

Lemma dict_contains_keys {V : Type} (d : list (str * V)) (k : str) :
  dict_contains k d = existsb (str_eqb k) (map fst d).
Proof.
  unfold dict_contains. induction d as [| [k' v] d IH]; simpl; [reflexivity |].
  destruct (str_eqb k k'); simpl; [reflexivity | exact IH].
Qed.

Lemma fromkeys_fold (l : list str) (d : list (str * unit)) :
  map fst (fold_left (fun d k => dict_set k tt d) l d)
  = map fst d ++ filter (absent_from (map fst d)) (first_occurrences l).
Proof.
  revert d. induction l as [| x l IH]; intros d; simpl.
  - rewrite app_nil_r. reflexivity.
  - rewrite IH, keys_dict_set, dict_contains_keys.
    unfold absent_from at 2.
    destruct (existsb (str_eqb x) (map fst d)) eqn:Hx; simpl.
    + rewrite filter_absent_from_member by exact Hx. reflexivity.
    + rewrite filter_absent_from_snoc, <- app_assoc. reflexivity.
Qed.

Lemma dict_fromkeys_first_occurrences (l : list str) :
  dict_fromkeys l = first_occurrences l.
Proof.
  unfold dict_fromkeys. rewrite fromkeys_fold. simpl.
  induction (first_occurrences l) as [| y r IH]; simpl; [reflexivity |].
  f_equal. exact IH.
Qed.

Lemma first_occurrences_In (l : list str) (x : str) :
  In x (first_occurrences l) <-> In x l.
Proof.
  induction l as [| y l IH]; simpl; [reflexivity |].
  rewrite filter_In, IH. split.
  - intros [Hy | [Hin _]]; [left | right]; assumption.
  - intros [Hy | Hin]; [left; exact Hy |].
    destruct (str_eqb y x) eqn:Hyx.
    + left. apply str_eqb_eq. exact Hyx.
    + right. split; [exact Hin | reflexivity].
Qed.

Lemma first_occurrences_NoDup (l : list str) : NoDup (first_occurrences l).
Proof.
  induction l as [| y l IH]; simpl; constructor.
  - rewrite filter_In. intros [_ Hneq]. rewrite str_eqb_refl in Hneq. discriminate.
  - apply NoDup_filter. exact IH.
Qed.

(** ** Computations in [Git] *)

Lemma uniform_gret {A : Type} (a : A) : uniform (gret a).
Proof. intros log. unfold gret, value, calls. simpl. rewrite app_nil_r. reflexivity. Qed.

Lemma uniform_glift {A : Type} (r : result A) : uniform (glift r).
Proof. intros log. unfold glift, value, calls. simpl. rewrite app_nil_r. reflexivity. Qed.

Lemma gbind_run {A B : Type} (c : Git A) (k : A -> Git B) :
  uniform c -> (forall a, uniform (k a)) ->
  forall log,
    gbind c k log
    = match value c with
      | Ok a => (value (k a), log ++ calls c ++ calls (k a))
      | Raise e => (Raise e, log ++ calls c)
      end.
Proof.
  intros Hc Hk log. unfold gbind. rewrite (Hc log).
  destruct (value c) as [a | e]; [| reflexivity].
  rewrite (Hk a). rewrite <- app_assoc. reflexivity.
Qed.

Lemma uniform_gbind {A B : Type} (c : Git A) (k : A -> Git B) :
  uniform c -> (forall a, uniform (k a)) -> uniform (gbind c k).
Proof.
  intros Hc Hk log. unfold value, calls.
  rewrite (gbind_run c k Hc Hk log), (gbind_run c k Hc Hk []).
  destruct (value c); reflexivity.
Qed.

Lemma uniform_gfor_each {A S : Type} (body : S -> A -> Git S) (l : list A) :
  (forall s x, uniform (body s x)) -> forall s, uniform (gfor_each body l s).
Proof.
  intros Hbody. induction l as [| x l IH]; intros s; simpl.
  - apply uniform_gret.
  - apply uniform_gbind; [apply Hbody | exact IH].
Qed.

Section BlameFacts.
Variable git_blame : str -> Z -> result str.
Variable repo_commit : str -> result Commit.

#[local] Abbreviation get_blame_info' := (get_blame_info git_blame repo_commit).
#[local] Abbreviation find_context' := (_find_context_commits git_blame repo_commit).
#[local] Abbreviation group_step' := (group_step git_blame repo_commit).
#[local] Abbreviation blame_of' := (blame_of git_blame repo_commit).

(** [get_blame_info] makes one call, for the line it is asked about. *)
Lemma get_blame_info_run (file : str) (n : Z) (log : list query) :
  get_blame_info' file n log = (blame_of' file n, log ++ [(file, n)]).
Proof.
  unfold blame_of, value, get_blame_info, gcatch, gbind,
    repo_git_blame, glift, gret.
  simpl.
  destruct (git_blame file n) as [out | e].
  - destruct (split_on 10 (strip out)) as [| first_line rest]; [reflexivity |].
    destruct (split_ws first_line) as [| h ws]; [reflexivity |].
    destruct (repo_commit h) as [c | e]; [reflexivity |].
    destruct e; reflexivity.
  - destruct e; reflexivity.
Qed.

Lemma uniform_get_blame_info (file : str) (n : Z) : uniform (get_blame_info' file n).
Proof.
  intros log. rewrite get_blame_info_run. unfold calls.
  rewrite get_blame_info_run. reflexivity.
Qed.

Lemma calls_get_blame_info (file : str) (n : Z) :
  calls (get_blame_info' file n) = [(file, n)].
Proof. unfold calls. rewrite get_blame_info_run. reflexivity. Qed.

(** Whatever the repository answers, what the aggregator computes does not
    depend on the calls recorded before it starts, and it only adds to
    them. *)
Lemma uniform_find_context_commits (file : str) (n : Z) :
  uniform (find_context' file n).
Proof.
  unfold _find_context_commits.
  apply uniform_gbind; [| intros; apply uniform_gret].
  apply uniform_gfor_each. intros acc offset. simpl.
  destruct (n + offset >? 0); [| apply uniform_gret].
  apply uniform_gbind; [apply uniform_get_blame_info |].
  intros [b |]; apply uniform_gret.
Qed.

Lemma uniform_group_step (groups : list (str * list ChangedLine))
    (l : ChangedLine) :
  uniform (group_step' groups l).
Proof.
  unfold group_step.
  destruct (_ || _).
  - apply uniform_gbind; [apply uniform_get_blame_info |].
    intros [b |]; apply uniform_gret.
  - destruct (str_eqb _ added); [| apply uniform_gret].
    apply uniform_gbind; [apply uniform_find_context_commits |].
    intros [| h hs]; apply uniform_gret.
Qed.

Lemma uniform_aggregate (lines : list ChangedLine) :
  uniform (aggregate git_blame repo_commit lines).
Proof.
  unfold aggregate, group_by_commit.
  apply uniform_gbind; [| intros; apply uniform_glift].
  apply uniform_gfor_each. intros groups l. apply uniform_group_step.
Qed.

End BlameFacts.

Lemma for_each_invariant {A S : Type} (body : S -> A -> result S) (I : S -> Prop)
    (l : list A) :
  (forall s x s', In x l -> I s -> body s x = Ok s' -> I s') ->
  forall s s', I s -> for_each body l s = Ok s' -> I s'.
Proof.
  induction l as [| x l IH]; intros Hbody s s' Hs Hrun; simpl in Hrun.
  - injection Hrun as <-. exact Hs.
  - destruct (body s x) as [s1 | e] eqn:Hstep; simpl in Hrun; [| discriminate].
    apply (IH (fun s0 y s0' Hy => Hbody s0 y s0' (or_intror Hy)) s1 s');
      [| exact Hrun].
    apply (Hbody s x s1); [left; reflexivity | exact Hs | exact Hstep].
Qed.

Lemma for_each_total {A S : Type} (body : S -> A -> result S) (I : S -> Prop)
    (l : list A) :
  (forall s x, In x l -> I s -> exists s', body s x = Ok s' /\ I s') ->
  forall s, I s -> exists s', for_each body l s = Ok s' /\ I s'.
Proof.
  induction l as [| x l IH]; intros Hbody s Hs; simpl.
  - exists s. split; [reflexivity | exact Hs].
  - destruct (Hbody s x (or_introl eq_refl) Hs) as (s1 & Hstep & Hs1).
    rewrite Hstep. simpl.
    apply IH; [| exact Hs1].
    intros s0 y Hy. apply Hbody. right. exact Hy.
Qed.

Lemma gfor_each_invariant {A S : Type} (body : S -> A -> Git S) (I : S -> Prop)
    (l : list A) :
  (forall s x log s' log', I s -> body s x log = (Ok s', log') -> I s') ->
  forall s log s' log', I s -> gfor_each body l s log = (Ok s', log') -> I s'.
Proof.
  intros Hbody. induction l as [| x l IH]; intros s log s' log' Hs Hrun;
    simpl in Hrun.
  - unfold gret in Hrun. injection Hrun as <- _. exact Hs.
  - unfold gbind in Hrun.
    destruct (body s x log) as [[s1 | e] log1] eqn:Hstep; [| discriminate].
    apply (IH s1 log1 s' log'); [| exact Hrun].
    apply (Hbody s x log s1 log1); assumption.
Qed.

(** ** Groups are never empty *)

Lemma dict_append_fresh {A : Type} (d : list (str * list A)) (k : str) (x : A) :
  dict_contains k d = false ->
  dict_append k x (dict_set k [] d) = d ++ [(k, [x])].
Proof.
  unfold dict_contains. induction d as [| [k' v] d IH]; simpl.
  - rewrite str_eqb_refl. reflexivity.
  - destruct (str_eqb k k') eqn:Heq; [discriminate |].
    intros Hget. simpl. rewrite Heq, IH by exact Hget. reflexivity.
Qed.

Lemma dict_append_nonempty {A : Type} (d : list (str * list A)) (k : str) (x : A) :
  Forall nonempty_group d -> Forall nonempty_group (dict_append k x d).
Proof.
  induction 1 as [| [k' v] d Hv Hd IH]; simpl; [constructor |].
  destruct (str_eqb k k'); constructor; try assumption.
  unfold nonempty_group. simpl. destruct v; discriminate.
Qed.

Lemma group_append_nonempty {A : Type} (d : list (str * list A)) (k : str) (x : A) :
  Forall nonempty_group d -> Forall nonempty_group (group_append k x d).
Proof.
  intros Hd. unfold group_append.
  destruct (dict_contains k d) eqn:Hc; simpl.
  - apply dict_append_nonempty. exact Hd.
  - rewrite dict_append_fresh by exact Hc.
    apply Forall_app. split; [exact Hd |].
    constructor; [discriminate | constructor].
Qed.

Section AggregatorFacts.
Variable git_blame : str -> Z -> result str.
Variable repo_commit : str -> result Commit.

#[local] Abbreviation blame := (get_blame_info git_blame repo_commit).
#[local] Abbreviation find_context := (_find_context_commits git_blame repo_commit).
#[local] Abbreviation step := (group_step git_blame repo_commit).
#[local] Abbreviation grouping := (group_by_commit git_blame repo_commit).
#[local] Abbreviation blame_at := (blame_of git_blame repo_commit).
#[local] Abbreviation origin_of := (origin git_blame repo_commit).
#[local] Abbreviation resolved := (resolved_hashes git_blame repo_commit).
#[local] Abbreviation context_of := (context_commits_of git_blame repo_commit).

Lemma group_step_nonempty groups l log groups' log' :
  Forall nonempty_group groups ->
  step groups l log = (Ok groups', log') ->
  Forall nonempty_group groups'.
Proof.
  intros Hg. unfold group_step, gbind, gret.
  destruct (str_eqb (change_type l) deleted || str_eqb (change_type l) modified).
  - destruct (blame (file_path l) (line_number l) log) as [[[b |] | e] log1];
      intros [= <- _]; [apply group_append_nonempty |]; exact Hg.
  - destruct (str_eqb (change_type l) added).
    + destruct (find_context (file_path l) (line_number l) log)
        as [[[| h hs] | e] log1];
        intros [= <- _]; [| apply group_append_nonempty]; exact Hg.
    + intros [= <- _]. exact Hg.
Qed.

Lemma group_by_commit_nonempty lines log groups log' :
  grouping lines log = (Ok groups, log') -> Forall nonempty_group groups.
Proof.
  unfold group_by_commit. intros Hrun.
  refine (gfor_each_invariant step (Forall nonempty_group) lines _
            [] log groups log' _ Hrun); [| constructor].
  intros s x lg s' lg' Hs Hstep. exact (group_step_nonempty _ _ _ _ _ Hs Hstep).
Qed.

(** A target's lines are the lines of one of the groups. *)
Lemma targets_from_groups groups targets :
  for_each (target_step repo_commit) groups [] = Ok targets ->
  forall t, In t targets ->
    In (FixupTarget.commit_hash t, FixupTarget.changed_lines t) groups.
Proof.
  intros Hrun.
  refine (for_each_invariant (target_step repo_commit)
            (fun ts => forall t, In t ts ->
               In (FixupTarget.commit_hash t, FixupTarget.changed_lines t) groups)
            groups _ [] targets _ Hrun); [| intros t []].
  intros ts [h ls] ts' Hin Hts. unfold target_step.
  destruct (repo_commit h) as [c | e].
  - intros [= <-] t Ht. apply in_app_or in Ht. destruct Ht as [Ht | [<- | []]].
    + apply Hts. exact Ht.
    + simpl. exact Hin.
  - destruct e; try discriminate. intros [= <-]. exact Hts.
Qed.

Lemma aggregate_inv lines log targets log' :
  aggregate git_blame repo_commit lines log = (Ok targets, log') ->
  exists groups,
    grouping lines log = (Ok groups, log')
    /\ for_each (target_step repo_commit) groups [] = Ok targets.
Proof.
  unfold aggregate, gbind, glift.
  destruct (grouping lines log) as [[groups | e] log1]; [| discriminate].
  intros [= Hts <-]. exists groups. split; [reflexivity | exact Hts].
Qed.

Lemma aggregate_has_lines lines log targets log' :
  aggregate git_blame repo_commit lines log = (Ok targets, log') ->
  Forall has_lines targets.
Proof.
  intros Hrun. apply aggregate_inv in Hrun. destruct Hrun as (groups & Hg & Hts).
  apply group_by_commit_nonempty in Hg. rewrite Forall_forall in Hg.
  apply Forall_forall. intros t Ht.
  apply (Hg _ (targets_from_groups _ _ Hts t Ht)).
Qed.

End AggregatorFacts.

(** ** TargetAggregator: no target without lines *)

(** C8: every target the aggregation pass produces has at least one
    changed line (a group exists only once a line has been put in it), so
    the mode filter, applied to those targets, divides by a non-zero count
    and returns in every mode. *)
Theorem C8_aggregated_targets_have_lines :
  forall (git_blame : str -> Z -> result str) (repo_commit : str -> result Commit)
         (changed_lines : list ChangedLine) (log : list query)
         (targets : list FixupTarget.t) (log' : list query),
    aggregate git_blame repo_commit changed_lines log = (Ok targets, log') ->
    Forall (fun t => 1 <= len (FixupTarget.changed_lines t)) targets
    /\ forall mode, exists kept, _filter_targets_by_mode targets mode = Ok kept.
Proof.
  intros git_blame repo_commit lines log targets log' Hrun.
  apply aggregate_has_lines in Hrun. split.
  - rewrite Forall_forall in *. intros t Ht. specialize (Hrun t Ht).
    unfold has_lines in Hrun.
    destruct (FixupTarget.changed_lines t); [contradiction |].
    unfold len. simpl. lia.
  - intros mode. eexists. apply filter_mode_ok. exact Hrun.
Qed.

(** The aggregation of the example's lines: one target per commit, and the
    mode filter returns on them. *)
Lemma C8_example_targets :
  exists targets log',
    aggregate example_blame example_commit example_changed_lines [] = (Ok targets, log')
    /\ map FixupTarget.commit_hash targets = [u "abc123"; u "def456"]
    /\ Forall (fun t => 1 <= len (FixupTarget.changed_lines t)) targets
    /\ forall mode, exists kept, _filter_targets_by_mode targets mode = Ok kept.
Proof.
  eexists. eexists. split; [vm_compute; reflexivity |].
  split; [reflexivity |].
  eapply (C8_aggregated_targets_have_lines example_blame example_commit
            example_changed_lines []).
  vm_compute. reflexivity.
Defined.

(** ** TargetAggregator: where an added line goes *)

Section ContextFacts.
Variable git_blame : str -> Z -> result str.
Variable repo_commit : str -> result Commit.
Hypothesis answers : blame_answers git_blame repo_commit.

#[local] Abbreviation blame1 := (get_blame_info git_blame repo_commit).
#[local] Abbreviation blame_at1 := (blame_of git_blame repo_commit).
#[local] Abbreviation origin1 := (origin git_blame repo_commit).
#[local] Abbreviation resolved1 := (resolved_hashes git_blame repo_commit).
#[local] Abbreviation context1 := (context_commits_of git_blame repo_commit).

(** The loop over the offsets, from any list of offsets and any
    intermediate list of commits. *)
Lemma context_loop_run (file : str) (n : Z) (offsets : list Z) :
  forall (acc : list str) (log : list query),
    gfor_each
      (fun context_commits offset =>
         let target_line := n + offset in
         if target_line >? 0 then
           gbind (blame1 file target_line)
             (fun blame_info =>
                match blame_info with
                | Some b => gret (context_commits ++ [BlameInfo.commit_hash b])
                | None => gret context_commits
                end)
         else gret context_commits)
      offsets acc log
    = (Ok (acc ++ resolved1 file (filter (fun p => p >? 0) (map (Z.add n) offsets))),
       log ++ map (pair file) (filter (fun p => p >? 0) (map (Z.add n) offsets))).
Proof.
  induction offsets as [| o offsets IH]; intros acc log; simpl.
  - unfold gret. rewrite !app_nil_r. reflexivity.
  - unfold gbind at 1. destruct (n + o >? 0) eqn:Hpos; simpl.
    + unfold gbind at 1. rewrite get_blame_info_run.
      destruct (answers file (n + o)) as [r Hr]. rewrite Hr.
      destruct r as [b |]; unfold gret; rewrite IH; simpl;
        rewrite <- !app_assoc; reflexivity.
    + unfold gret. apply IH.
Qed.

Lemma find_context_commits_run (file : str) (n : Z) (log : list query) :
  _find_context_commits git_blame repo_commit file n log
  = (Ok (context1 file n), log ++ map (pair file) (context_positions n)).
Proof.
  unfold _find_context_commits. unfold gbind at 1.
  rewrite context_loop_run. unfold gret. simpl app at 1.
  rewrite dict_fromkeys_first_occurrences. reflexivity.
Qed.

Lemma group_step_run (groups : list (str * list ChangedLine)) (l : ChangedLine)
    (log : list query) :
  group_step git_blame repo_commit groups l log
  = (Ok (match origin1 l with
         | Some h => group_append h l groups
         | None => groups
         end),
     log ++ queries_of l).
Proof.
  unfold group_step, origin, queries_of.
  destruct (str_eqb (change_type l) deleted || str_eqb (change_type l) modified).
  - unfold gbind. rewrite get_blame_info_run.
    destruct (answers (file_path l) (line_number l)) as [r Hr]. rewrite Hr.
    destruct r; reflexivity.
  - destruct (str_eqb (change_type l) added).
    + unfold gbind. rewrite find_context_commits_run.
      destruct (context1 (file_path l) (line_number l)); reflexivity.
    + unfold gret. rewrite app_nil_r. reflexivity.
Qed.

Lemma grouping_loop_run (lines : list ChangedLine) :
  forall groups log,
    gfor_each (group_step git_blame repo_commit) lines groups log
    = (Ok (fold_left
             (fun groups l =>
                match origin1 l with
                | Some h => group_append h l groups
                | None => groups
                end) lines groups),
       log ++ flat_map queries_of lines).
Proof.
  induction lines as [| l lines IH]; intros groups log; simpl.
  - unfold gret. rewrite app_nil_r. reflexivity.
  - unfold gbind. rewrite group_step_run, IH, <- app_assoc. reflexivity.
Qed.

Lemma group_by_commit_run (lines : list ChangedLine) (log : list query) :
  group_by_commit git_blame repo_commit lines log
  = (Ok (group_by origin1 lines), log ++ flat_map queries_of lines).
Proof. unfold group_by_commit, group_by. apply grouping_loop_run. Qed.

(** Every line of a group was attributed to the group's commit, and every
    attributed line is in the group of its commit. *)
Lemma group_by_commit_members (lines : list ChangedLine) (h : str)
    (ls : list ChangedLine) (l : ChangedLine) :
  In (h, ls) (group_by origin1 lines) -> In l ls ->
  In l lines /\ origin1 l = Some h.
Proof.
  intros Hg Hl. apply group_by_In in Hg. destruct Hg as [-> _].
  apply filter_In in Hl. destruct Hl as [Hin Hkey]. split; [exact Hin |].
  unfold has_key in Hkey. destruct (origin1 l) as [h' |]; [| discriminate].
  apply str_eqb_eq in Hkey. congruence.
Qed.

Lemma group_by_commit_complete (lines : list ChangedLine) (h : str)
    (l : ChangedLine) :
  In l lines -> origin1 l = Some h ->
  exists ls, In (h, ls) (group_by origin1 lines) /\ In l ls.
Proof.
  intros Hin Ho.
  assert (Hl : In l (filter (has_key origin1 h) lines)).
  { apply filter_In. split; [exact Hin |]. unfold has_key. rewrite Ho.
    apply str_eqb_refl. }
  exists (filter (has_key origin1 h) lines). split; [| exact Hl].
  apply group_by_In. split; [reflexivity |].
  intros Hnil. rewrite Hnil in Hl. destruct Hl.
Qed.

Lemma origin_added (l : ChangedLine) :
  change_type l = added ->
  origin1 l = hd_error (context1 (file_path l) (line_number l)).
Proof. intros Ht. unfold origin. rewrite Ht. reflexivity. Qed.

Lemma origin_unresolved (l : ChangedLine) :
  blame_at1 (file_path l) (line_number l) = Ok None ->
  context1 (file_path l) (line_number l) = [] ->
  origin1 l = None.
Proof.
  intros Hb Hc. unfold origin. rewrite Hb, Hc.
  destruct (_ || _); [reflexivity |]. destruct (str_eqb _ added); reflexivity.
Qed.

(** The aggregation pass returns when commit look-ups answer or fail with
    [BadName] (such a group is left out). *)
Lemma aggregate_returns (lines : list ChangedLine) (log : list query) :
  (forall h, (exists c, repo_commit h = Ok c) \/ repo_commit h = Raise BadName) ->
  exists targets,
    aggregate git_blame repo_commit lines log
    = (Ok targets, log ++ flat_map queries_of lines).
Proof.
  intros Hcommit. unfold aggregate, gbind, glift.
  rewrite group_by_commit_run.
  destruct (for_each_total (target_step repo_commit) (fun _ => True)
              (group_by origin1 lines)) with (s := @nil FixupTarget.t)
    as (targets & Hrun & _); [| exact I |].
  - intros ts [h ls] _ _. unfold target_step.
    destruct (Hcommit h) as [[c Hc] | Hbad]; [rewrite Hc | rewrite Hbad];
      eexists; (split; [reflexivity | exact I]).
  - exists targets. rewrite Hrun. reflexivity.
Qed.

End ContextFacts.

(** C6: when the history queries answer or report "not found", the
    context search for line [n] of a file calls blame at [n-2], [n-1],
    [n+1], [n+2], in that order and leaving out the positions that are not
    positive, and returns the commits resolved there without repetitions,
    each at its first place (which is what [dict.fromkeys] makes of a
    list).  Grouping makes exactly these calls for an
    added line and puts the line in the group of the first commit of that
    list; a line is only ever in the group of the commit it was attributed
    to; and a line for which blame finds nothing and the context list is
    empty is in no group and in no target. *)
Theorem C6_context_attribution :
  forall (git_blame : str -> Z -> result str) (repo_commit : str -> result Commit),
    blame_answers git_blame repo_commit ->
    (forall file n log,
        _find_context_commits git_blame repo_commit file n log
        = (Ok (first_occurrences
                 (resolved_hashes git_blame repo_commit file
                    (filter (fun p => p >? 0) [n + -2; n + -1; n + 1; n + 2]))),
           log ++ map (pair file)
                    (filter (fun p => p >? 0) [n + -2; n + -1; n + 1; n + 2])))
    /\ (forall hashes,
           dict_fromkeys hashes = first_occurrences hashes
           /\ NoDup (first_occurrences hashes)
           /\ (forall h, In h (first_occurrences hashes) <-> In h hashes)
           /\ hd_error (first_occurrences hashes) = hd_error hashes)
    /\ (forall l,
           change_type l = added ->
           queries_of l
           = map (pair (file_path l))
               (filter (fun p => p >? 0)
                  [line_number l + -2; line_number l + -1;
                   line_number l + 1; line_number l + 2]))
    /\ (forall lines log, exists groups,
           group_by_commit git_blame repo_commit lines log
           = (Ok groups, log ++ flat_map queries_of lines)
           /\ (forall l c rest,
                  In l lines -> change_type l = added ->
                  context_commits_of git_blame repo_commit
                    (file_path l) (line_number l) = c :: rest ->
                  exists ls, In (c, ls) groups /\ In l ls)
           /\ (forall h ls l,
                  In (h, ls) groups -> In l ls ->
                  In l lines /\ origin git_blame repo_commit l = Some h)
           /\ (forall l,
                  blame_of git_blame repo_commit (file_path l) (line_number l)
                  = Ok None ->
                  context_commits_of git_blame repo_commit
                    (file_path l) (line_number l) = [] ->
                  forall h ls, In (h, ls) groups -> ~ In l ls))
    /\ (forall lines log targets log',
           aggregate git_blame repo_commit lines log = (Ok targets, log') ->
           forall l,
             blame_of git_blame repo_commit (file_path l) (line_number l)
             = Ok None ->
             context_commits_of git_blame repo_commit
               (file_path l) (line_number l) = [] ->
             forall t, In t targets -> ~ In l (FixupTarget.changed_lines t)).
Proof.
  intros git_blame repo_commit Hans.
  assert (Hout :
    forall lines l,
      blame_of git_blame repo_commit (file_path l) (line_number l) = Ok None ->
      context_commits_of git_blame repo_commit (file_path l) (line_number l) = [] ->
      forall h ls,
        In (h, ls) (group_by (origin git_blame repo_commit) lines) -> ~ In l ls).
  { intros lines l Hb Hc h ls Hg Hl.
    destruct (group_by_commit_members _ _ lines h ls l Hg Hl) as [_ Ho].
    rewrite (origin_unresolved _ _ l Hb Hc) in Ho. discriminate. }
  split; [| split; [| split; [| split]]].
  - intros file n log. apply find_context_commits_run. exact Hans.
  - intros hashes. split; [apply dict_fromkeys_first_occurrences |].
    split; [apply first_occurrences_NoDup |].
    split; [intros h; apply first_occurrences_In |].
    destruct hashes; reflexivity.
  - intros l Hadded. unfold queries_of. rewrite Hadded. reflexivity.
  - intros lines log.
    exists (group_by (origin git_blame repo_commit) lines).
    split; [apply group_by_commit_run; exact Hans |].
    split; [| split].
    + intros l c rest Hin Hadded Hctx.
      apply group_by_commit_complete; [exact Hin |].
      rewrite origin_added by exact Hadded. rewrite Hctx. reflexivity.
    + intros h ls l. apply group_by_commit_members.
    + apply Hout.
  - intros lines log targets log' Hrun l Hb Hc t Ht.
    apply aggregate_inv in Hrun. destruct Hrun as (groups & Hg & Hts).
    rewrite (group_by_commit_run _ _ Hans) in Hg. injection Hg as <- _.
    apply (Hout lines l Hb Hc (FixupTarget.commit_hash t)).
    apply (targets_from_groups _ _ _ Hts t Ht).
Qed.

Lemma example_blame_answers : blame_answers example_blame example_commit.
Proof.
  intros file n.
  unfold blame_of, value, get_blame_info, gcatch, gbind, repo_git_blame, glift,
    gret, example_blame.
  destruct (str_eqb file (u "a.txt") && (0 <? n) && (n <=? 22));
    [destruct (n <? 20) |]; eexists; reflexivity.
Qed.

(** In the example repository: around line 20 the four neighbours are
    asked and two commits come back, the nearer first; around line 1 only
    lines 2 and 3 are asked. *)
Lemma C6_example_context :
  _find_context_commits example_blame example_commit (u "a.txt") 20 []
  = (Ok [u "abc123"; u "def456"],
     [(u "a.txt", 18); (u "a.txt", 19); (u "a.txt", 21); (u "a.txt", 22)])
  /\ _find_context_commits example_blame example_commit (u "a.txt") 1 []
     = (Ok [u "abc123"], [(u "a.txt", 2); (u "a.txt", 3)]).
Proof.
  destruct (C6_context_attribution example_blame example_commit
              example_blame_answers) as [Hcontext _].
  rewrite !Hcontext. split; vm_compute; reflexivity.
Defined.

(** ** DiffParser: what it makes can be hashed *)

Lemma parse_line_hashable `{UnicodeDB} (st st' : parse_locals) (line : str) :
  all_hashable (changed_lines st) ->
  parse_line st line = Ok st' ->
  all_hashable (changed_lines st').
Proof.
  intros Hst. unfold parse_line, int, local.
  repeat match goal with
         | |- context [if ?b then _ else _] => destruct b
         | |- context [match ?o with Some _ => _ | None => _ end] => destruct o
         end;
    simpl; try discriminate; intros [= <-]; simpl; try exact Hst;
    apply Forall_app; (split; [exact Hst | repeat constructor]).
Qed.

(** The lines the parser returns carry no [context_lines]: the
    reconciler can hash each of them. *)
Lemma parse_diff_hashable `{UnicodeDB} (diff_output change_source : str)
    (lines : list ChangedLine) :
  _parse_diff diff_output change_source = Ok lines -> all_hashable lines.
Proof.
  unfold _parse_diff.
  destruct (for_each parse_line _ _) as [st |] eqn:Hrun; simpl; [| discriminate].
  intros [= <-].
  refine (for_each_invariant parse_line (fun s => all_hashable (changed_lines s))
            _ _ _ st _ Hrun); [| constructor].
  intros s line s' _ Hs Hstep. exact (parse_line_hashable s s' line Hs Hstep).
Qed.

(** ** LineReconciler: the choice of a partner *)

Lemma set_contains_hashable (x : ChangedLine) (s : list ChangedLine) :
  context_lines x = None ->
  set_contains x s = Ok (existsb (ChangedLine_eqb x) s).
Proof. intros Hx. unfold set_contains, hashable. rewrite Hx. reflexivity. Qed.

Lemma set_add_fresh (x : ChangedLine) (s : list ChangedLine) :
  context_lines x = None -> ~ In x s -> set_add x s = Ok (x :: s).
Proof.
  intros Hx Hnot. unfold set_add, hashable. rewrite Hx.
  destruct (existsb (ChangedLine_eqb x) s) eqn:Hin; [| reflexivity].
  apply existsb_ChangedLine_eqb in Hin. contradiction.
Qed.

Lemma existsb_false_not_In (x : ChangedLine) (s : list ChangedLine) :
  existsb (ChangedLine_eqb x) s = false <-> ~ In x s.
Proof.
  rewrite <- existsb_ChangedLine_eqb. destruct (existsb _ s); split; intros H0;
    try reflexivity; try discriminate; try congruence.
Qed.

Section ChoiceFacts.
Variable ratio : str -> str -> Q.

#[local] Abbreviation sim d a := (_calculate_similarity ratio (content d) (content a)).

Lemma best_match_step_spec (d : ChangedLine) (used prefix : list ChangedLine)
    (best : option ChangedLine * Q) (x : ChangedLine) :
  context_lines x = None ->
  choice_after ratio d used prefix best ->
  exists best',
    best_match_step ratio d used best x = Ok best'
    /\ choice_after ratio d used (prefix ++ [x]) best'.
Proof.
  intros Hx [Hchoice Hsim]. unfold best_match_step.
  rewrite set_contains_hashable by exact Hx. simpl.
  (* the three ways [x] leaves the best match as it is *)
  assert (Hkeep :
    (candidate ratio d used x ->
     (sim d x <= snd best)%Q /\ fst best <> None) ->
    choice_after ratio d used (prefix ++ [x]) best).
  { intros Hx'. split; [| exact Hsim].
    destruct best as [[a |] s]; simpl in *.
    - destruct Hchoice as (Hcand & before & after & -> & Hbefore & Hafter).
      split; [exact Hcand |].
      exists before, (after ++ [x]). rewrite <- app_assoc. split; [reflexivity |].
      split; [exact Hbefore |].
      intros c Hc Hcc. apply in_app_or in Hc. destruct Hc as [Hc | [<- | []]].
      + apply Hafter; assumption.
      + rewrite <- Hsim. apply Hx'. exact Hcc.
    - intros a Ha Hcand. apply in_app_or in Ha. destruct Ha as [Ha | [<- | []]].
      + exact (Hchoice a Ha Hcand).
      + destruct (Hx' Hcand) as [_ Hnone]. apply Hnone. reflexivity. }
  destruct (existsb (ChangedLine_eqb x) used) eqn:Hused.
  { exists best. split; [reflexivity |]. apply Hkeep.
    intros (Hnot & _). apply existsb_ChangedLine_eqb in Hused. contradiction. }
  apply existsb_false_not_In in Hused.
  destruct (Z.abs (line_number x - line_number d) >? 5) eqn:Hfar.
  { exists best. split; [reflexivity |]. apply Hkeep.
    intros (_ & Hnear & _). apply Z.gtb_lt in Hfar. lia. }
  assert (Hnear : Z.abs (line_number x - line_number d) <= 5).
  { destruct (Z.gtb_spec (Z.abs (line_number x - line_number d)) 5);
      [discriminate | assumption]. }
  destruct (Qgtb (sim d x) 0.6) eqn:Hhigh; simpl.
  2:{ exists best. split; [reflexivity |]. apply Hkeep.
      intros (_ & _ & Hgt). apply Qgtb_iff in Hgt. congruence. }
  apply Qgtb_iff in Hhigh.
  destruct (Qgtb (sim d x) (snd best)) eqn:Hbetter.
  2:{ exists best. split; [reflexivity |]. apply Hkeep. intros _.
      assert (Hle : (sim d x <= snd best)%Q).
      { apply Qnot_lt_le. intros Hlt. apply Qgtb_iff in Hlt. congruence. }
      split; [exact Hle |].
      destruct best as [[a |] s]; simpl in *; [discriminate |].
      subst s. exfalso.
      apply (Qlt_irrefl 0.6). apply (Qlt_le_trans _ _ _ Hhigh).
      apply (Qle_trans _ _ _ Hle). discriminate. }
  apply Qgtb_iff in Hbetter.
  exists (Some x, sim d x). split; [reflexivity |].
  split; [| reflexivity]. simpl.
  split; [repeat split; assumption |].
  exists prefix, []. split; [reflexivity |]. split; [| intros c []].
  intros c Hc Hcc.
  destruct best as [[a |] s]; simpl in *.
  - destruct Hchoice as (Hcand & before & after & -> & Hbefore & Hafter).
    subst s. apply in_app_or in Hc. destruct Hc as [Hc | [<- | Hc]].
    + apply (Qlt_trans _ (sim d a)); [apply Hbefore; assumption | exact Hbetter].
    + exact Hbetter.
    + apply (Qle_lt_trans _ (sim d a)); [apply Hafter; assumption | exact Hbetter].
  - exfalso. exact (Hchoice c Hc Hcc).
Qed.

(** The loop over the added lines makes the best choice. *)
Lemma best_match_loop (d : ChangedLine) (used added_lines : list ChangedLine) :
  all_hashable added_lines ->
  exists best,
    for_each (best_match_step ratio d used) added_lines (None, 0%Q) = Ok best
    /\ choice_after ratio d used added_lines best.
Proof.
  induction added_lines as [| x l IH] using rev_ind; intros Hhash.
  - exists (None, 0%Q). split; [reflexivity |].
    split; [intros a [] | reflexivity].
  - apply Forall_app in Hhash. destruct Hhash as [Hl Hx].
    inversion Hx as [| ? ? Hx' _]; subst.
    destruct (IH Hl) as (best & Hrun & Hinv).
    destruct (best_match_step_spec d used l best x Hx' Hinv) as (best' & Hstep & Hinv').
    exists best'. split; [| exact Hinv'].
    rewrite for_each_app, Hrun. simpl. rewrite Hstep. reflexivity.
Qed.

End ChoiceFacts.

(** ** LineReconciler: one file, then all files *)

Lemma for_each_appending {A B : Type} (body : list B -> A -> result (list B))
    (P : A -> list B -> Prop) (l : list A) :
  (forall acc x, In x l -> exists extra, body acc x = Ok (acc ++ extra) /\ P x extra) ->
  forall acc,
  exists out,
    for_each body l acc = Ok (acc ++ out)
    /\ (forall r, In r out -> exists x extra, In x l /\ P x extra /\ In r extra)
    /\ (forall x, In x l -> exists extra, P x extra /\ incl extra out).
Proof.
  induction l as [| x l IH]; intros Hbody acc; simpl.
  - exists []. rewrite app_nil_r. split; [reflexivity |].
    split; [intros r [] | intros x []].
  - destruct (Hbody acc x (or_introl eq_refl)) as (extra & Hstep & HP).
    rewrite Hstep. simpl.
    destruct (IH (fun a y Hy => Hbody a y (or_intror Hy)) (acc ++ extra))
      as (out & Hrun & Hfrom & Hto).
    exists (extra ++ out). rewrite app_assoc. split; [exact Hrun |]. split.
    + intros r Hr. apply in_app_or in Hr. destruct Hr as [Hr | Hr].
      * exists x, extra. split; [left; reflexivity | split; assumption].
      * destruct (Hfrom r Hr) as (y & e & Hy & HPy & Hre).
        exists y, e. split; [right; exact Hy | split; assumption].
    + intros y [<- | Hy].
      * exists extra. split; [exact HP |]. apply incl_appl. apply incl_refl.
      * destruct (Hto y Hy) as (e & HPy & Hincl).
        exists e. split; [exact HPy |]. apply incl_appr. exact Hincl.
Qed.

Section ReconcilerFacts.
Variable ratio : str -> str -> Q.

Lemma similarity_blank (s1 s2 : str) :
  strip s1 = [] \/ strip s2 = [] -> _calculate_similarity ratio s1 s2 = 0%Q.
Proof.
  intros Hblank. unfold _calculate_similarity.
  destruct Hblank as [-> | ->]; simpl; [reflexivity |].
  rewrite orb_true_r. reflexivity.
Qed.

Lemma candidate_not_blank (d a : ChangedLine) (used : list ChangedLine) :
  candidate ratio d used a ->
  strip (content d) <> [] /\ strip (content a) <> [].
Proof.
  intros (_ & _ & Hsim).
  split; intros Hblank;
    rewrite similarity_blank in Hsim by (first [left; exact Hblank | right; exact Hblank]);
    discriminate.
Qed.

Lemma pair_step_spec (deleted_lines added_lines before : list ChangedLine)
    (st : pairing) (d : ChangedLine) :
  all_hashable added_lines ->
  context_lines d = None ->
  In d deleted_lines ->
  pairing_ok ratio deleted_lines added_lines before st ->
  exists st',
    pair_step ratio added_lines st d = Ok st'
    /\ pairing_ok ratio deleted_lines added_lines before st'.
Proof.
  intros Hadded Hd Hin Hst. unfold pair_step.
  rewrite set_contains_hashable by exact Hd. simpl.
  destruct (existsb (ChangedLine_eqb d) (used_deleted st)) eqn:Hseen.
  { exists st. split; [reflexivity | exact Hst]. }
  apply existsb_false_not_In in Hseen.
  destruct (best_match_loop ratio d (used_added st) added_lines Hadded)
    as (best & Hrun & Hchoice & _).
  rewrite Hrun. simpl.
  destruct Hst as ((extra & Henh & Hextra) & Hua & Hud).
  destruct (fst best) as [a |] eqn:Hbest.
  - simpl in Hchoice.
    assert (Hcand : candidate ratio d (used_added st) a) by apply Hchoice.
    assert (Ha : In a added_lines).
    { destruct Hchoice as (_ & l1 & l2 & -> & _).
      apply in_or_app. right. left. reflexivity. }
    assert (Hahash : context_lines a = None).
    { unfold all_hashable in Hadded. rewrite Forall_forall in Hadded.
      apply Hadded. exact Ha. }
    rewrite (set_add_fresh d _ Hd Hseen). simpl.
    rewrite (set_add_fresh a _ Hahash (proj1 Hcand)). simpl.
    eexists. split; [reflexivity |].
    destruct (candidate_not_blank d a _ Hcand) as [Hdn Han].
    split; [| split]; simpl.
    + exists (extra ++ [modified_from d a]). rewrite Henh, app_assoc.
      split; [reflexivity |].
      intros r Hr. apply in_app_or in Hr. destruct Hr as [Hr | [<- | []]].
      * apply Hextra. exact Hr.
      * right. exists d, a, (used_added st).
        split; [exact Hin |]. split; [exact Ha |].
        split; [intros x Hx; apply Hua; exact Hx |].
        split; [exact Hchoice | reflexivity].
    + intros x [<- | Hx]; [split; assumption | apply Hua; exact Hx].
    + intros x [<- | Hx]; [assumption | apply Hud; exact Hx].
  - eexists. split; [reflexivity |].
    split; [| split]; simpl; try assumption.
    exists (extra ++ [d]). rewrite Henh, app_assoc. split; [reflexivity |].
    intros r Hr. apply in_app_or in Hr. destruct Hr as [Hr | [<- | []]].
    + apply Hextra. exact Hr.
    + left. exact Hin.
Qed.

Lemma keep_unused_loop (used ls acc : list ChangedLine) :
  all_hashable ls ->
  for_each (keep_unused used) ls acc
  = Ok (acc ++ filter (fun l => negb (existsb (ChangedLine_eqb l) used)) ls).
Proof.
  intros Hls. apply for_each_filter.
  intros acc0 x Hx. unfold keep_unused.
  unfold all_hashable in Hls. rewrite Forall_forall in Hls.
  rewrite set_contains_hashable by (apply Hls; exact Hx). simpl.
  destruct (existsb (ChangedLine_eqb x) used); reflexivity.
Qed.

Lemma all_hashable_filter (p : ChangedLine -> bool) (ls : list ChangedLine) :
  all_hashable ls -> all_hashable (filter p ls).
Proof.
  unfold all_hashable. rewrite !Forall_forall. intros Hls x Hx.
  apply filter_In in Hx. apply Hls. apply Hx.
Qed.

Lemma enhance_file_spec (before : list ChangedLine) (file : str)
    (ls : list ChangedLine) :
  all_hashable ls ->
  exists extra,
    enhance_file ratio before (file, ls) = Ok (before ++ extra)
    /\ file_output ratio ls extra.
Proof.
  intros Hls. unfold enhance_file. simpl snd.
  set (deleted_lines := filter (fun l => str_eqb (change_type l) deleted) ls).
  set (added_lines := filter (fun l => str_eqb (change_type l) added) ls).
  set (other_lines :=
         filter (fun l => negb (str_eqb (change_type l) deleted
                                || str_eqb (change_type l) added)) ls).
  assert (Hdel : all_hashable deleted_lines) by (apply all_hashable_filter; exact Hls).
  assert (Hadd : all_hashable added_lines) by (apply all_hashable_filter; exact Hls).
  destruct (for_each_total (pair_step ratio added_lines)
              (pairing_ok ratio deleted_lines added_lines before) deleted_lines)
    with (s := {| used_deleted := []; used_added := []; enhanced_lines := before |})
    as (st & Hrun & (extra & Henh & Hextra) & Hua & Hud).
  { intros s d Hd Hs. apply pair_step_spec; try assumption.
    unfold all_hashable in Hdel. rewrite Forall_forall in Hdel. apply Hdel. exact Hd. }
  { split; [| split]; simpl; try (intros x []).
    exists []. rewrite app_nil_r. split; [reflexivity | intros r []]. }
  rewrite Hrun. simpl.
  rewrite keep_unused_loop by exact Hdel. simpl.
  rewrite keep_unused_loop by exact Hadd. simpl.
  rewrite Henh, <- !app_assoc.
  eexists. split; [reflexivity |]. split.
  - intros r Hr.
    apply in_app_or in Hr. destruct Hr as [Hr | Hr].
    { destruct (Hextra r Hr) as [Hd | Hp]; [left | right; exact Hp].
      apply filter_In in Hd. apply Hd. }
    left.
    repeat (apply in_app_or in Hr; destruct Hr as [Hr | Hr]);
      repeat (apply filter_In in Hr; destruct Hr as [Hr _]); exact Hr.
  - intros l Hl Hblank.
    apply in_or_app. right.
    destruct (str_eqb (change_type l) deleted) eqn:Htd.
    { apply in_or_app. left. apply filter_In. split.
      - apply filter_In. split; assumption.
      - apply negb_true_iff. apply existsb_false_not_In. intros Hused.
        apply (Hud l Hused). exact Hblank. }
    apply in_or_app. right.
    destruct (str_eqb (change_type l) added) eqn:Hta.
    { apply in_or_app. left. apply filter_In. split.
      - apply filter_In. split; assumption.
      - apply negb_true_iff. apply existsb_false_not_In. intros Hused.
        apply (proj2 (Hua l Hused)). exact Hblank. }
    apply in_or_app. right. apply filter_In. split; [exact Hl |].
    rewrite Htd, Hta. reflexivity.
Qed.

Lemma group_by_file_groups (lines : list ChangedLine) (file : str)
    (ls : list ChangedLine) :
  In (file, ls) (group_by_file lines)
  <-> ls = filter (fun l => str_eqb (file_path l) file) lines /\ ls <> [].
Proof.
  exact (group_by_In (fun l => Some (file_path l)) lines file ls).
Qed.

(** The reconciler returns on hashable lines; each record of its output is
    an input line or the record of a pairing within one file; every blank
    input line is in the output. *)
Lemma enhance_change_detection_spec (lines : list ChangedLine) :
  all_hashable lines ->
  exists out,
    _enhance_change_detection ratio lines = Ok out
    /\ (forall r, In r out ->
          In r lines
          \/ exists file,
               paired_in ratio (deleted_in file lines) (added_in file lines) r)
    /\ (forall l, In l lines -> strip (content l) = [] -> In l out).
Proof.
  intros Hlines. unfold _enhance_change_detection.
  destruct (for_each_appending (enhance_file ratio)
              (fun g extra => file_output ratio (snd g) extra)
              (group_by_file lines)) with (acc := @nil ChangedLine)
    as (out & Hrun & Hfrom & Hto).
  { intros acc [file ls] Hg. apply group_by_file_groups in Hg.
    destruct Hg as [-> _]. apply enhance_file_spec.
    apply all_hashable_filter. exact Hlines. }
  exists out. split; [exact Hrun |]. split.
  - intros r Hr. destruct (Hfrom r Hr) as ([file ls] & extra & Hg & [Hout _] & Hre).
    apply group_by_file_groups in Hg. destruct Hg as [-> _]. simpl in Hout.
    destruct (Hout r Hre) as [Hin | Hp].
    + left. apply filter_In in Hin. apply Hin.
    + right. exists file. exact Hp.
  - intros l Hl Hblank.
    destruct (Hto (file_path l,
                   filter (fun l0 => str_eqb (file_path l0) (file_path l)) lines))
      as (extra & [_ Hpass] & Hincl).
    + apply group_by_file_groups. split; [reflexivity |].
      intros Hnil.
      assert (Hin : In l (filter (fun l0 => str_eqb (file_path l0) (file_path l)) lines)).
      { apply filter_In. split; [exact Hl | apply str_eqb_refl]. }
      rewrite Hnil in Hin. destruct Hin.
    + apply Hincl. apply Hpass; [| exact Hblank]. simpl.
      apply filter_In. split; [exact Hl | apply str_eqb_refl].
Qed.

End ReconcilerFacts.

Section PairStepFacts.
Variable ratio : str -> str -> Q.

(** One round of the pairing loop, for a deleted line not yet paired. *)
Lemma pair_step_run (added_lines : list ChangedLine) (st : pairing)
    (d : ChangedLine) :
  all_hashable added_lines ->
  context_lines d = None ->
  ~ In d (used_deleted st) ->
  exists choice,
    best_choice ratio d (used_added st) added_lines choice
    /\ pair_step ratio added_lines st d
       = Ok match choice with
            | Some a =>
                {| used_deleted := d :: used_deleted st;
                   used_added := a :: used_added st;
                   enhanced_lines :=
                     enhanced_lines st
                     ++ [new_ChangedLine (file_path d) (line_number d)
                           (content a) modified] |}
            | None =>
                {| used_deleted := used_deleted st;
                   used_added := used_added st;
                   enhanced_lines := enhanced_lines st ++ [d] |}
            end.
Proof.
  intros Hadded Hd Hfresh. unfold pair_step.
  rewrite set_contains_hashable by exact Hd. simpl.
  apply existsb_false_not_In in Hfresh. rewrite Hfresh.
  apply existsb_false_not_In in Hfresh.
  destruct (best_match_loop ratio d (used_added st) added_lines Hadded)
    as (best & Hrun & Hchoice & _).
  rewrite Hrun. simpl. exists (fst best). split; [exact Hchoice |].
  destruct (fst best) as [a |]; [| reflexivity].
  destruct Hchoice as (Hcand & l1 & l2 & Hsplit & _).
  assert (Hahash : context_lines a = None).
  { unfold all_hashable in Hadded. rewrite Forall_forall in Hadded.
    apply Hadded. rewrite Hsplit. apply in_or_app. right. left. reflexivity. }
  rewrite (set_add_fresh d _ Hd Hfresh). simpl.
  rewrite (set_add_fresh a _ Hahash (proj1 Hcand)). reflexivity.
Qed.

(** A deleted line and an added line of one file with nothing in common
    as far as pairing goes: the output is the deleted line (twice, see C1)
    and the added line. *)
Lemma enhance_unpaired_pair (file : str) (n m : Z) (c1 c2 : str) :
  (Z.abs (m - n) >? 5) = true
  \/ Qgtb (_calculate_similarity ratio c1 c2) 0.6 = false ->
  _enhance_change_detection ratio
    [new_ChangedLine file n c1 deleted; new_ChangedLine file m c2 added]
  = Ok [new_ChangedLine file n c1 deleted; new_ChangedLine file n c1 deleted;
        new_ChangedLine file m c2 added].
Proof.
  intros Hno.
  unfold _enhance_change_detection, group_by_file, group_append, dict_contains.
  simpl. autorewrite with pyeq. simpl. autorewrite with pyeq. simpl.
  unfold enhance_file. simpl. autorewrite with pyeq. simpl.
  unfold pair_step, best_match_step, keep_unused. simpl.
  destruct Hno as [Hfar | Hlow].
  - rewrite Hfar. simpl. reflexivity.
  - destruct (Z.abs (m - n) >? 5); simpl; [reflexivity |].
    rewrite Hlow. simpl. reflexivity.
Qed.

End PairStepFacts.

(** ** LineReconciler: the pairing of a whole file *)

Section PairingFacts.
Variable ratio : str -> str -> Q.

(** The similarity the code computes is the ratio of the stripped
    contents, for two lines that are not blank. *)
Lemma similarity_stripped (d a : ChangedLine) :
  strip (content d) <> [] -> strip (content a) <> [] ->
  _calculate_similarity ratio (content d) (content a) = stripped_ratio ratio d a.
Proof.
  intros Hd Ha. unfold _calculate_similarity, stripped_ratio.
  destruct (strip (content d)); [contradiction |].
  destruct (strip (content a)); [contradiction | reflexivity].
Qed.

Lemma candidate_eligible (d a : ChangedLine) (used : list ChangedLine) :
  candidate ratio d used a <-> eligible ratio d used a.
Proof.
  unfold candidate, eligible. split.
  - intros (Hfresh & Hnear & Hsim).
    assert (Hd : strip (content d) <> []).
    { intros Hblank. rewrite similarity_blank in Hsim by (left; exact Hblank).
      discriminate. }
    assert (Ha : strip (content a) <> []).
    { intros Hblank. rewrite similarity_blank in Hsim by (right; exact Hblank).
      discriminate. }
    rewrite (similarity_stripped d a Hd Ha) in Hsim. tauto.
  - intros (Hfresh & Hnear & Hd & Ha & Hsim).
    rewrite (similarity_stripped d a Hd Ha). tauto.
Qed.

Lemma best_choice_first_best (d : ChangedLine) (used added_lines : list ChangedLine)
    (choice : option ChangedLine) :
  best_choice ratio d used added_lines choice ->
  first_best ratio d used added_lines choice.
Proof.
  destruct choice as [a |]; simpl.
  - intros (Hcand & before & after & Hsplit & Hbefore & Hafter).
    apply candidate_eligible in Hcand. split; [exact Hcand |].
    exists before, after. split; [exact Hsplit |].
    destruct Hcand as (_ & _ & Hd & Ha & _).
    split; intros c Hc Hel.
    + pose proof (proj2 (candidate_eligible d c used) Hel) as Hcc.
      destruct Hel as (_ & _ & _ & Hcn & _).
      rewrite <- (similarity_stripped d c Hd Hcn), <- (similarity_stripped d a Hd Ha).
      exact (Hbefore c Hc Hcc).
    + pose proof (proj2 (candidate_eligible d c used) Hel) as Hcc.
      destruct Hel as (_ & _ & _ & Hcn & _).
      rewrite <- (similarity_stripped d c Hd Hcn), <- (similarity_stripped d a Hd Ha).
      exact (Hafter c Hc Hcc).
  - intros Hnone a Ha Hel. apply (Hnone a Ha). apply candidate_eligible. exact Hel.
Qed.

(** Only the members of [used] matter to the choice. *)
Lemma eligible_members (d a : ChangedLine) (used used' : list ChangedLine) :
  (forall x, In x used <-> In x used') ->
  eligible ratio d used a -> eligible ratio d used' a.
Proof.
  intros Hsame (Hfresh & Hrest). split; [| exact Hrest].
  intros Hin. apply Hfresh. apply Hsame. exact Hin.
Qed.

Lemma first_best_members (d : ChangedLine) (used used' added_lines : list ChangedLine)
    (choice : option ChangedLine) :
  (forall x, In x used <-> In x used') ->
  first_best ratio d used added_lines choice ->
  first_best ratio d used' added_lines choice.
Proof.
  intros Hsame.
  assert (Hback : forall x, In x used' <-> In x used)
    by (intros x; symmetry; apply Hsame).
  destruct choice as [a |]; simpl.
  - intros (Hel & before & after & Hsplit & Hbefore & Hafter).
    split; [exact (eligible_members d a used used' Hsame Hel) |].
    exists before, after. split; [exact Hsplit |].
    split; intros c Hc Hc'.
    + apply (Hbefore c Hc). exact (eligible_members d c used' used Hback Hc').
    + apply (Hafter c Hc). exact (eligible_members d c used' used Hback Hc').
  - intros Hnone a Ha Hel. apply (Hnone a Ha).
    exact (eligible_members d a used' used Hback Hel).
Qed.

Lemma partners_app (l1 l2 : list decision) :
  partners (l1 ++ l2) = partners l1 ++ partners l2.
Proof. unfold partners. apply flat_map_app. Qed.

Lemma paired_deleted_app (l1 l2 : list decision) :
  paired_deleted (l1 ++ l2) = paired_deleted l1 ++ paired_deleted l2.
Proof. unfold paired_deleted. apply flat_map_app. Qed.

(** The pairing loop over the deleted lines of a file, from any point of
    its run: it makes the decisions of [greedy_pairing]. *)
Lemma pairing_loop (added_lines : list ChangedLine) :
  all_hashable added_lines ->
  forall deleted_lines,
    all_hashable deleted_lines ->
    forall (st : pairing) (earlier : list decision),
      (forall x, In x (used_deleted st) <-> In x (paired_deleted earlier)) ->
      (forall x, In x (used_added st) <-> In x (partners earlier)) ->
      exists st' later,
        for_each (pair_step ratio added_lines) deleted_lines st = Ok st'
        /\ greedy_pairing ratio added_lines earlier deleted_lines later
        /\ enhanced_lines st' = enhanced_lines st ++ map record_of later
        /\ (forall x, In x (used_deleted st')
                      <-> In x (paired_deleted (earlier ++ later)))
        /\ (forall x, In x (used_added st') <-> In x (partners (earlier ++ later))).
Proof.
  intros Hadded deleted_lines.
  induction deleted_lines as [| d ds IH]; intros Hdeleted st earlier Hud Hua.
  - exists st, []. simpl. rewrite !app_nil_r.
    split; [reflexivity |]. split; [constructor |]. auto.
  - inversion Hdeleted as [| ? ? Hd Hds]; subst.
    change (for_each (pair_step ratio added_lines) (d :: ds) st)
      with (rbind (pair_step ratio added_lines st d)
              (for_each (pair_step ratio added_lines) ds)).
    destruct (in_dec ChangedLine_eq_dec d (used_deleted st)) as [Hseen | Hfresh].
    + assert (Hstep : pair_step ratio added_lines st d = Ok st).
      { unfold pair_step. rewrite set_contains_hashable by exact Hd. simpl.
        apply existsb_ChangedLine_eqb in Hseen. rewrite Hseen. reflexivity. }
      rewrite Hstep. unfold rbind.
      destruct (IH Hds st earlier Hud Hua) as (st' & later & Hrun & Hpair & Hout & Hud' & Hua').
      exists st', later. split; [exact Hrun |].
      split; [| auto].
      apply pairing_passes; [apply Hud; exact Hseen | exact Hpair].
    + destruct (pair_step_run ratio added_lines st d Hadded Hd Hfresh)
        as (choice & Hchoice & Hstep).
      apply best_choice_first_best in Hchoice.
      apply (first_best_members d _ (partners earlier) _ _ Hua) in Hchoice.
      rewrite Hstep. unfold rbind.
      match goal with
      | |- exists st' later, for_each _ _ ?s = _ /\ _ =>
          destruct (IH Hds s (earlier ++ [(d, choice)]))
            as (st' & later & Hrun & Hpair & Hout & Hud' & Hua')
      end.
      { intros x. rewrite paired_deleted_app, in_app_iff.
        destruct choice as [a |]; simpl; rewrite Hud; intuition auto. }
      { intros x. rewrite partners_app, in_app_iff.
        destruct choice as [a |]; simpl; rewrite Hua; intuition auto. }
      exists st', ((d, choice) :: later). split; [exact Hrun |].
      split.
      { apply pairing_decides; [| exact Hchoice | exact Hpair].
        intros Hin. apply Hfresh. apply Hud. exact Hin. }
      split.
      { rewrite Hout. destruct choice as [a |]; simpl;
          rewrite <- app_assoc; reflexivity. }
      rewrite <- app_assoc in Hud', Hua'. auto.
Qed.

Lemma unpaired_members (used paired ls : list ChangedLine) :
  (forall x, In x used <-> In x paired) ->
  filter (fun l => negb (existsb (ChangedLine_eqb l) used)) ls = unpaired paired ls.
Proof.
  intros Hsame. unfold unpaired. apply filter_ext. intros l. f_equal.
  destruct (existsb (ChangedLine_eqb l) used) eqn:Hu,
           (existsb (ChangedLine_eqb l) paired) eqn:Hp; try reflexivity.
  - apply existsb_ChangedLine_eqb in Hu. apply Hsame in Hu.
    apply existsb_ChangedLine_eqb in Hu. congruence.
  - apply existsb_ChangedLine_eqb in Hp. apply Hsame in Hp.
    apply existsb_ChangedLine_eqb in Hp. congruence.
Qed.

(** One file. *)
Lemma enhance_file_result (before : list ChangedLine) (file : str)
    (ls : list ChangedLine) :
  all_hashable ls ->
  exists out,
    enhance_file ratio before (file, ls) = Ok (before ++ out)
    /\ file_result ratio ls out.
Proof.
  intros Hls. unfold enhance_file, file_result. simpl snd.
  set (deleted_lines := filter (fun l => str_eqb (change_type l) deleted) ls).
  set (added_lines := filter (fun l => str_eqb (change_type l) added) ls).
  set (other_lines :=
         filter (fun l => negb (str_eqb (change_type l) deleted
                                || str_eqb (change_type l) added)) ls).
  assert (Hdel : all_hashable deleted_lines) by (apply all_hashable_filter; exact Hls).
  assert (Hadd : all_hashable added_lines) by (apply all_hashable_filter; exact Hls).
  destruct (pairing_loop added_lines Hadd deleted_lines Hdel
              {| used_deleted := []; used_added := []; enhanced_lines := before |} [])
    as (st & decisions & Hrun & Hpair & Hout & Hud & Hua).
  { intros x. reflexivity. }
  { intros x. reflexivity. }
  rewrite Hrun. simpl rbind.
  rewrite keep_unused_loop by exact Hdel. simpl rbind.
  rewrite keep_unused_loop by exact Hadd. simpl rbind.
  rewrite Hout. simpl enhanced_lines.
  rewrite (unpaired_members _ _ _ Hud), (unpaired_members _ _ _ Hua).
  simpl app. rewrite <- !app_assoc.
  eexists. split; [reflexivity |].
  exists decisions. split; [exact Hpair | reflexivity].
Qed.

End PairingFacts.

(** A loop that appends, for each element, what is said of it. *)
Lemma for_each_concat {A B : Type} (body : list B -> A -> result (list B))
    (P : A -> list B -> Prop) (l : list A) :
  (forall acc x, In x l -> exists extra, body acc x = Ok (acc ++ extra) /\ P x extra) ->
  forall acc,
  exists outs,
    for_each body l acc = Ok (acc ++ concat outs) /\ Forall2 P l outs.
Proof.
  induction l as [| x l IH]; intros Hbody acc.
  - exists []. simpl. rewrite app_nil_r. split; [reflexivity | constructor].
  - destruct (Hbody acc x (or_introl eq_refl)) as (extra & Hstep & HP).
    destruct (IH (fun a y Hy => Hbody a y (or_intror Hy)) (acc ++ extra))
      as (outs & Hrun & Hall).
    exists (extra :: outs). simpl. rewrite Hstep. simpl.
    rewrite Hrun, <- app_assoc. split; [reflexivity |].
    constructor; assumption.
Qed.

(** What the decisions of a pairing are: no added line and no deleted
    line is in two pairs, and each pair is a deleted and an added line
    within the window and above the threshold. *)
Lemma greedy_pairing_pairs (ratio : str -> str -> Q)
    (added_lines : list ChangedLine) (earlier : list decision)
    (deleted_lines : list ChangedLine) (later : list decision) :
  greedy_pairing ratio added_lines earlier deleted_lines later ->
  NoDup (partners earlier) ->
  NoDup (paired_deleted earlier) ->
  NoDup (partners (earlier ++ later))
  /\ NoDup (paired_deleted (earlier ++ later))
  /\ forall d a, In (d, Some a) later ->
       In d deleted_lines /\ In a added_lines
       /\ Z.abs (line_number a - line_number d) <= 5
       /\ (0.6 < ratio (strip (content d)) (strip (content a)))%Q.
Proof.
  intros Hpair.
  induction Hpair as [earlier
                     | earlier d ds later Hseen Hrest IH
                     | earlier d ds choice later Hfresh Hchoice Hrest IH];
    intros Hadd Hdel.
  - rewrite app_nil_r. split; [exact Hadd |]. split; [exact Hdel |].
    intros d a [].
  - destruct (IH Hadd Hdel) as (Ha & Hd & Hall).
    split; [exact Ha |]. split; [exact Hd |].
    intros d0 a Hin. destruct (Hall d0 a Hin) as (Hd0 & Hrest0).
    split; [right; exact Hd0 | exact Hrest0].
  - assert (Hadd' : NoDup (partners (earlier ++ [(d, choice)]))).
    { rewrite partners_app. destruct choice as [a |]; simpl.
      - destruct Hchoice as ((Hnew & _) & _).
        apply NoDup_app; [exact Hadd | repeat constructor; intros [] |].
        intros x Hx [<- | []]. exact (Hnew Hx).
      - rewrite app_nil_r. exact Hadd. }
    assert (Hdel' : NoDup (paired_deleted (earlier ++ [(d, choice)]))).
    { rewrite paired_deleted_app. destruct choice as [a |]; simpl.
      - apply NoDup_app; [exact Hdel | repeat constructor; intros [] |].
        intros x Hx [<- | []]. exact (Hfresh Hx).
      - rewrite app_nil_r. exact Hdel. }
    destruct (IH Hadd' Hdel') as (Ha & Hd & Hall).
    rewrite <- app_assoc in Ha, Hd.
    split; [exact Ha |]. split; [exact Hd |].
    intros d0 a [Hhere | Hin].
    + injection Hhere as <- ->.
      destruct Hchoice as ((_ & Hnear & _ & _ & Hsim) & before & after & Hsplit & _).
      split; [left; reflexivity |].
      split; [rewrite Hsplit; apply in_or_app; right; left; reflexivity |].
      split; [exact Hnear | exact Hsim].
    + destruct (Hall d0 a Hin) as (Hd0 & Hrest0).
      split; [right; exact Hd0 | exact Hrest0].
Qed.

(** Two ways of cutting one list at an element. *)
Lemma two_cuts {A : Type} (b1 a1 b2 a2 : list A) (x y : A) :
  b1 ++ x :: a1 = b2 ++ y :: a2 ->
  x = y \/ In x b2 \/ In y b1.
Proof.
  revert b2. induction b1 as [| z b1 IH]; intros [| w b2] Hcut; simpl in Hcut.
  - left. congruence.
  - right. left. left. congruence.
  - right. right. left. congruence.
  - injection Hcut as _ Hcut. destruct (IH b2 Hcut) as [Heq | [Hx | Hy]].
    + left. exact Heq.
    + right. left. right. exact Hx.
    + right. right. right. exact Hy.
Qed.

(** The choice and the pairing are determined. *)
Lemma first_best_determined (ratio : str -> str -> Q) (d : ChangedLine)
    (used added_lines : list ChangedLine) (c1 c2 : option ChangedLine) :
  first_best ratio d used added_lines c1 ->
  first_best ratio d used added_lines c2 ->
  c1 = c2.
Proof.
  assert (Hone : forall a a' before after before' after',
             eligible ratio d used a -> eligible ratio d used a' ->
             added_lines = before ++ a :: after ->
             added_lines = before' ++ a' :: after' ->
             (forall c, In c before -> eligible ratio d used c ->
                (stripped_ratio ratio d c < stripped_ratio ratio d a)%Q) ->
             (forall c, In c after -> eligible ratio d used c ->
                (stripped_ratio ratio d c <= stripped_ratio ratio d a)%Q) ->
             (forall c, In c before' -> eligible ratio d used c ->
                (stripped_ratio ratio d c < stripped_ratio ratio d a')%Q) ->
             In a before' -> False).
  { intros a a' before after before' after' Ha Ha' Hcut Hcut' Hb Haf Hb' Hin.
    pose proof (Hb' a Hin Ha) as Hless.
    assert (Hwhere : In a' (before ++ a :: after)).
    { rewrite <- Hcut, Hcut'. apply in_or_app. right. left. reflexivity. }
    apply in_app_or in Hwhere. destruct Hwhere as [Hw | [Hw | Hw]].
    - pose proof (Hb a' Hw Ha') as Hless'.
      exact (Qlt_irrefl _ (Qlt_trans _ _ _ Hless Hless')).
    - subst a'. exact (Qlt_irrefl _ Hless).
    - exact (Qlt_not_le _ _ Hless (Haf a' Hw Ha')). }
  destruct c1 as [a |], c2 as [a' |]; simpl.
  - intros (Ha & before & after & Hcut & Hb & Haf)
           (Ha' & before' & after' & Hcut' & Hb' & Haf').
    assert (Hboth : before ++ a :: after = before' ++ a' :: after') by congruence.
    destruct (two_cuts _ _ _ _ _ _ Hboth) as [-> | [Hin | Hin]]; [reflexivity | |].
    + destruct (Hone a a' before after before' after' Ha Ha' Hcut Hcut' Hb Haf Hb' Hin).
    + destruct (Hone a' a before' after' before after Ha' Ha Hcut' Hcut Hb' Haf' Hb Hin).
  - intros (Ha & before & after & Hcut & _) Hnone.
    destruct (Hnone a); [| exact Ha].
    rewrite Hcut. apply in_or_app. right. left. reflexivity.
  - intros Hnone (Ha & before & after & Hcut & _).
    destruct (Hnone a'); [| exact Ha].
    rewrite Hcut. apply in_or_app. right. left. reflexivity.
  - reflexivity.
Qed.

Lemma greedy_pairing_determined (ratio : str -> str -> Q)
    (added_lines : list ChangedLine) (earlier : list decision)
    (deleted_lines : list ChangedLine) (later later' : list decision) :
  greedy_pairing ratio added_lines earlier deleted_lines later ->
  greedy_pairing ratio added_lines earlier deleted_lines later' ->
  later = later'.
Proof.
  intros Hpair. revert later'.
  induction Hpair as [earlier
                     | earlier d ds later Hseen Hrest IH
                     | earlier d ds choice later Hfresh Hchoice Hrest IH];
    intros later' Hother; inversion Hother; subst.
  - reflexivity.
  - apply IH. assumption.
  - contradiction.
  - contradiction.
  - match goal with
    | Hc : first_best _ _ _ _ ?c |- _ :: _ = (_, ?c) :: _ =>
        pose proof (first_best_determined _ _ _ _ _ _ Hchoice Hc) as Hsame
    end.
    subst. f_equal. apply IH. assumption.
Qed.

(** ** LineReconciler: the pairing rule *)

(** C4: the similarity of a deleted and an added line is the ratio of
    their stripped contents.  For a deleted line, the loop over the file's
    added lines chooses among the added lines not yet paired that are at most
    5 lines away and more than 0.6 similar the one of highest similarity,
    the first of them in the order of the diff when several reach it, and
    none when there is no such line.  With a partner the round emits one
    [modified] record with the deleted line's file and line number and the
    added line's content, and marks both as paired.  Over a whole input the
    reconciler goes through the files in the order they first appear and,
    in each, through the deleted lines in their order, passing over a
    deleted line equal to one already paired and choosing for any other
    among the added lines that no earlier round of the file has paired; its
    output is, file after file, the records of these rounds, then the lines
    left unpaired and the lines of other kinds.  So no added line is paired
    twice, and each pair is within the window and above the threshold.  A
    deleted line at position 1 is not paired with an added line at position
    20, whatever their content. *)
Theorem C4_pairing_rule :
  forall ratio : str -> str -> Q,
    (forall d a,
        strip (content d) <> [] -> strip (content a) <> [] ->
        _calculate_similarity ratio (content d) (content a)
        = ratio (strip (content d)) (strip (content a)))
    /\ (forall d used added_lines,
           all_hashable added_lines ->
           exists best,
             for_each (best_match_step ratio d used) added_lines (None, 0%Q) = Ok best
             /\ first_best ratio d used added_lines (fst best))
    /\ (forall added_lines st d,
           all_hashable added_lines ->
           context_lines d = None ->
           ~ In d (used_deleted st) ->
           exists choice,
             first_best ratio d (used_added st) added_lines choice
             /\ pair_step ratio added_lines st d
                = Ok match choice with
                     | Some a =>
                         {| used_deleted := d :: used_deleted st;
                            used_added := a :: used_added st;
                            enhanced_lines :=
                              enhanced_lines st
                              ++ [new_ChangedLine (file_path d) (line_number d)
                                    (content a) modified] |}
                     | None =>
                         {| used_deleted := used_deleted st;
                            used_added := used_added st;
                            enhanced_lines := enhanced_lines st ++ [d] |}
                     end)
    /\ (forall lines,
           all_hashable lines ->
           exists outs,
             _enhance_change_detection ratio lines = Ok (concat outs)
             /\ Forall2 (fun group out => file_result ratio (snd group) out)
                  (group_by_file lines) outs)
    /\ (forall lines file ls,
           In (file, ls) (group_by_file lines)
           <-> ls = filter (fun l => str_eqb (file_path l) file) lines /\ ls <> [])
    /\ (forall added_lines deleted_lines decisions,
           greedy_pairing ratio added_lines [] deleted_lines decisions ->
           NoDup (partners decisions)
           /\ NoDup (paired_deleted decisions)
           /\ forall d a, In (d, Some a) decisions ->
                In d deleted_lines /\ In a added_lines
                /\ Z.abs (line_number a - line_number d) <= 5
                /\ (0.6 < ratio (strip (content d)) (strip (content a)))%Q)
    /\ (forall added_lines deleted_lines decisions decisions',
           greedy_pairing ratio added_lines [] deleted_lines decisions ->
           greedy_pairing ratio added_lines [] deleted_lines decisions' ->
           decisions = decisions')
    /\ (forall file c,
           _enhance_change_detection ratio
             [new_ChangedLine file 1 c deleted; new_ChangedLine file 20 c added]
           = Ok [new_ChangedLine file 1 c deleted; new_ChangedLine file 1 c deleted;
                 new_ChangedLine file 20 c added]).
Proof.
  intros ratio.
  split; [| split; [| split; [| split; [| split; [| split; [| split]]]]]].
  - intros d a. apply similarity_stripped.
  - intros d used added_lines Hadded.
    destruct (best_match_loop ratio d used added_lines Hadded) as (best & Hrun & Hc & _).
    exists best. split; [exact Hrun |]. apply best_choice_first_best. exact Hc.
  - intros added_lines st d Hadded Hd Hfresh.
    destruct (pair_step_run ratio added_lines st d Hadded Hd Hfresh)
      as (choice & Hchoice & Hstep).
    exists choice. split; [| exact Hstep]. apply best_choice_first_best. exact Hchoice.
  - intros lines Hlines. unfold _enhance_change_detection.
    destruct (for_each_concat (enhance_file ratio)
                (fun group out => file_result ratio (snd group) out)
                (group_by_file lines)) with (acc := @nil ChangedLine)
      as (outs & Hrun & Hall).
    { intros acc [file ls] Hg. apply group_by_file_groups in Hg.
      destruct Hg as [-> _]. apply enhance_file_result.
      apply all_hashable_filter. exact Hlines. }
    exists outs. split; [exact Hrun | exact Hall].
  - intros lines file ls. apply group_by_file_groups.
  - intros added_lines deleted_lines decisions Hpair.
    apply (greedy_pairing_pairs ratio added_lines [] deleted_lines decisions Hpair);
      constructor.
  - intros added_lines deleted_lines decisions decisions'.
    apply greedy_pairing_determined.
  - intros file c. apply enhance_unpaired_pair. left. reflexivity.
Qed.

(** The specification's example: ["foo_bar = 1"] deleted and
    ["foo_baz = 1"] added at line 10 (similarity 10/11) become one
    [modified] record at line 10 with the new content, and nothing else.
    With a second deleted line, ["foo_bat = 1"] at line 11, as similar to
    the added line as the first, the added line goes to the first and the
    second is left as it is (twice in the output, see C1).  An added line
    that differs from the deleted one by its indentation only in part
    (similarity 16/18 stripped, 16/34 as written) is paired, and the record
    has its content as written. *)
Lemma C4_foo_bar_example :
  _enhance_change_detection Difflib.ratio [foo_bar_deleted; foo_baz_added]
  = Ok [new_ChangedLine (u "a.py") 10 (u "foo_baz = 1") modified]
  /\ _enhance_change_detection Difflib.ratio
       [foo_bar_deleted; foo_bat_deleted; foo_baz_added]
     = Ok [new_ChangedLine (u "a.py") 10 (u "foo_baz = 1") modified;
           foo_bat_deleted; foo_bat_deleted]
  /\ _enhance_change_detection Difflib.ratio [total_deleted; total_added_indented]
     = Ok [new_ChangedLine (u "a.py") 3 (u "                total = 2") modified]
  /\ exists outs,
       _enhance_change_detection Difflib.ratio [foo_bar_deleted; foo_baz_added]
       = Ok (concat outs)
       /\ Forall2 (fun group out => file_result Difflib.ratio (snd group) out)
            (group_by_file [foo_bar_deleted; foo_baz_added]) outs.
Proof.
  split; [vm_compute; reflexivity |].
  split; [vm_compute; reflexivity |].
  split; [vm_compute; reflexivity |].
  apply (proj1 (proj2 (proj2 (proj2 (C4_pairing_rule Difflib.ratio))))).
  repeat constructor.
Defined.

(** ** LineReconciler: blank lines *)

(** C10: when the content of the deleted or of the added line is empty
    after stripping, their similarity is 0.0; the loop over the added lines
    finds no partner for a blank deleted line and never chooses a blank
    added line.  So every blank line of the input is in the reconciler's
    output as it was, every [modified] record the reconciler makes comes
    from two lines that are not blank, and two identical blank lines at the
    same position come out as the deleted line and the added line. *)
Theorem C10_blank_lines_are_never_paired :
  forall ratio : str -> str -> Q,
    (forall s1 s2,
        strip s1 = [] \/ strip s2 = [] -> _calculate_similarity ratio s1 s2 = 0%Q)
    /\ (forall d used added_lines,
           all_hashable added_lines ->
           exists best,
             for_each (best_match_step ratio d used) added_lines (None, 0%Q) = Ok best
             /\ (strip (content d) = [] -> fst best = None)
             /\ (forall a, fst best = Some a -> strip (content a) <> []))
    /\ (forall lines,
           all_hashable lines ->
           exists out,
             _enhance_change_detection ratio lines = Ok out
             /\ (forall l, In l lines -> strip (content l) = [] -> In l out)
             /\ (forall r, In r out ->
                   In r lines
                   \/ exists d a,
                        In d lines /\ In a lines
                        /\ strip (content d) <> [] /\ strip (content a) <> []
                        /\ r = modified_from d a))
    /\ (forall file n c,
           strip c = [] ->
           _enhance_change_detection ratio
             [new_ChangedLine file n c deleted; new_ChangedLine file n c added]
           = Ok [new_ChangedLine file n c deleted; new_ChangedLine file n c deleted;
                 new_ChangedLine file n c added]).
Proof.
  intros ratio. split; [| split; [| split]].
  - apply similarity_blank.
  - intros d used added_lines Hadded.
    destruct (best_match_loop ratio d used added_lines Hadded) as (best & Hrun & Hc & _).
    exists best. split; [exact Hrun |].
    destruct (fst best) as [a |].
    + destruct Hc as [Hcand _].
      destruct (candidate_not_blank ratio d a used Hcand) as [Hd Ha].
      split; [intros Hblank; contradiction | intros a' [= <-]; exact Ha].
    + split; [reflexivity | discriminate].
  - intros lines Hlines.
    destruct (enhance_change_detection_spec ratio lines Hlines)
      as (out & Hrun & Hfrom & Hpass).
    exists out. split; [exact Hrun |]. split; [exact Hpass |].
    intros r Hr. destruct (Hfrom r Hr) as [Hin | [file Hp]]; [left; exact Hin |].
    right. destruct Hp as (d & a & used & Hd & Ha & _ & [Hcand _] & ->).
    unfold deleted_in in Hd. unfold added_in in Ha.
    apply filter_In in Hd. destruct Hd as [Hd _].
    apply filter_In in Hd. destruct Hd as [Hd _].
    apply filter_In in Ha. destruct Ha as [Ha _].
    apply filter_In in Ha. destruct Ha as [Ha _].
    destruct (candidate_not_blank ratio d a used Hcand) as [Hdn Han].
    exists d, a. repeat split; assumption.
  - intros file n c Hblank. apply enhance_unpaired_pair. right.
    rewrite similarity_blank by (left; exact Hblank). reflexivity.
Qed.

(** Two blank lines at line 3: both come out, unpaired. *)
Lemma C10_blank_pair_example :
  _enhance_change_detection Difflib.ratio [blank_deleted; blank_added]
  = Ok [blank_deleted; blank_deleted; blank_added].
Proof.
  apply (proj2 (proj2 (proj2 (C10_blank_lines_are_never_paired Difflib.ratio)))
           (u "a.py") 3 (u "    ")).
  reflexivity.
Defined.

(** ** Discovery: the specification's end-to-end scenario *)

(** The diff is parsed into a deleted and an added line at 5, which the
    reconciler turns into one [modified] line; blame attributes it to
    [abc123]; the target has that commit, the file [a.txt] and the one
    line, and only [a.txt:5] was asked of blame. *)
Example end_to_end_scenario :
  @find_fixup_targets latin1 Difflib.ratio example_diff git_show_answering
    no_commit_age example_blame example_commit example_rev_list
    SMART_DEFAULT None []
  = (Ok [ {| FixupTarget.commit_hash := u "abc123";
             FixupTarget.commit_message := u "Add greeting";
             FixupTarget.author := u "Jane Doe <jane@example.com>";
             FixupTarget.changed_lines :=
               [new_ChangedLine (u "a.txt") 5 (u "hello world") modified];
             FixupTarget.files := [u "a.txt"] |} ],
     [(u "a.txt", 5)]).
Proof. vm_compute. reflexivity. Qed.

(* ===================================================================== *)
(** * Further properties of the code                                      *)
(* ===================================================================== *)

(** ** DiffParser: what it raises, makes and skips *)

Section ParserFactsX.
Import Re.
Context {U : UnicodeDB}.

Lemma steps_caps_kept (n : nat) (r : regex) (st st' : mstate) :
  steps r st st' ->
  lookup_cap n (caps st) <> None -> lookup_cap n (caps st') <> None.
Proof.
  induction 1; intros Hn; auto;
    try (match goal with H : ate _ _ _ |- _ => destruct H end; simpl; exact Hn).
  simpl. destruct (Nat.eqb n n0); [discriminate | auto].
Qed.

Lemma steps_defines (n : nat) (r : regex) (st st' : mstate) :
  steps r st st' -> defines n r = true -> lookup_cap n (caps st') <> None.
Proof.
  induction 1; simpl; intros Hd; try discriminate.
  - apply orb_true_iff in Hd. destruct Hd as [Hd | Hd].
    + eapply steps_caps_kept; eauto.
    + auto.
  - apply andb_true_iff in Hd. tauto.
  - apply andb_true_iff in Hd. tauto.
  - destruct (Nat.eqb n n0); [discriminate | auto].
Qed.

Lemma search_defines (r : regex) (subject : str) (m : match_object) (n : nat) :
  search r subject = Some m -> defines (S n) r = true ->
  exists s, group m (S n) = Some s.
Proof.
  intros Hsearch Hd. apply search_sound in Hsearch.
  destruct Hsearch as (before & st' & Hsteps & _ & Hcaps & _).
  pose proof (steps_defines (S n) r _ _ Hsteps Hd) as Hl.
  unfold group. rewrite Hcaps.
  destruct (lookup_cap (S n) (caps st')) as [[i j] |]; [eauto | contradiction].
Qed.

Lemma parse_line_raises (st : parse_locals) (line : str) (e : exn) :
  parse_line st line = Raise e -> e = UnboundLocalError.
Proof.
  unfold parse_line.
  destruct (startswith (u "diff --git") line).
  { destruct (search diff_header line); discriminate. }
  destruct (startswith (u "@@") line).
  { destruct (search hunk_header line) as [m |] eqn:Hm; [| discriminate].
    destruct (truthy_opt (current_file st)); [| discriminate].
    destruct (search_defines _ _ _ 0 Hm eq_refl) as (s1 & ->).
    destruct (search_defines _ _ _ 2 Hm eq_refl) as (s3 & ->).
    simpl. discriminate. }
  unfold local.
  repeat match goal with
         | |- context [if ?b then _ else _] => destruct b
         | |- context [match ?o with Some _ => _ | None => _ end] => destruct o
         end; simpl; try discriminate; intros [= <-]; reflexivity.
Qed.

End ParserFactsX.

Lemma for_each_raises {A S : Type} (body : S -> A -> result S) (l : list A) :
  forall s e, for_each body l s = Raise e ->
              exists s1 x, In x l /\ body s1 x = Raise e.
Proof.
  induction l as [| x l IH]; simpl; intros s e Hrun; [discriminate |].
  destruct (body s x) as [s' | e'] eqn:Hstep; simpl in Hrun.
  - destruct (IH _ _ Hrun) as (s1 & y & Hy & Hb). exists s1, y. auto.
  - injection Hrun as <-. exists s, x. auto.
Qed.

Lemma parse_diff_raises `{UnicodeDB} (diff_output change_source : str) (e : exn) :
  _parse_diff diff_output change_source = Raise e -> e = UnboundLocalError.
Proof.
  unfold _parse_diff.
  destruct (for_each parse_line _ _) as [st | e'] eqn:Hrun; simpl; [discriminate |].
  intros [= <-]. apply for_each_raises in Hrun. destruct Hrun as (s1 & x & _ & Hb).
  exact (parse_line_raises s1 x e' Hb).
Qed.

(** X1: on a diff whose lines have at most 4300 characters,
    [_parse_diff] returns a list or raises [UnboundLocalError] (a line read
    before any hunk header set the counters); it raises nothing else: the
    two groups it converts with [int] are set by every match of the hunk
    pattern. *)
Theorem parse_diff_raises_only_UnboundLocalError :
  forall (U : UnicodeDB) (diff_output change_source : str),
    short_lines diff_output ->
    (exists lines, _parse_diff diff_output change_source = Ok lines)
    \/ _parse_diff diff_output change_source = Raise UnboundLocalError.
Proof.
  intros U d s _.
  destruct (_parse_diff d s) as [lines | e] eqn:Hrun.
  - left. eauto.
  - right. apply parse_diff_raises in Hrun. now subst.
Qed.

Lemma malformed_hunk_short_lines : short_lines diff_with_malformed_hunk.
Proof.
  unfold short_lines. apply Forall_forall. intros line Hline.
  vm_compute in Hline.
  repeat (destruct Hline as [<- | Hline]; [vm_compute; discriminate |]).
  contradiction.
Qed.

(** The diff whose only hunk header does not parse. *)
Lemma parse_diff_raises_example :
  (exists lines,
      @_parse_diff latin1 diff_with_malformed_hunk (u "unstaged") = Ok lines)
  \/ @_parse_diff latin1 diff_with_malformed_hunk (u "unstaged")
     = Raise UnboundLocalError.
Proof.
  apply (parse_diff_raises_only_UnboundLocalError latin1 diff_with_malformed_hunk
           (u "unstaged")).
  exact malformed_hunk_short_lines.
Defined.

Lemma startswith_app (p s : str) :
  startswith p s = true <-> exists t, s = p ++ t.
Proof.
  revert s. induction p as [| a p IH]; intros s; simpl.
  - split; eauto.
  - destruct s as [| b s].
    + split; [discriminate | intros (t & Ht); discriminate].
    + rewrite andb_true_iff, N.eqb_eq, IH. split.
      * intros (-> & t & ->). eauto.
      * intros (t & [= -> ->]). eauto.
Qed.

Lemma split_on_nonempty (sep : N) (s : str) : split_on sep s <> [].
Proof.
  destruct s as [| c s]; simpl; [discriminate |].
  destruct (N.eqb c sep); [discriminate |].
  destruct (split_on sep s); discriminate.
Qed.

Lemma split_on_app (sep : N) (a b : str) :
  split_on sep (a ++ sep :: b) = split_on sep a ++ split_on sep b.
Proof.
  induction a as [| c a IH]; simpl.
  - rewrite N.eqb_refl. reflexivity.
  - destruct (N.eqb c sep); [rewrite IH; reflexivity |].
    rewrite IH. pose proof (split_on_nonempty sep a) as Hne.
    destruct (split_on sep a) as [| piece rest]; [contradiction | reflexivity].
Qed.

Lemma split_on_line (sep : N) (line : str) :
  ~ In sep line -> split_on sep line = [line].
Proof.
  induction line as [| c line IH]; simpl; intros Hnot; [reflexivity |].
  destruct (N.eqb c sep) eqn:Hc.
  - apply N.eqb_eq in Hc. exfalso. auto.
  - rewrite IH; auto.
Qed.

Section ParserFactsY.
Import Re.
Context {U : UnicodeDB}.

Lemma parse_line_record (st st' : parse_locals) (line : str) :
  Forall parser_record (changed_lines st) ->
  parse_line st line = Ok st' ->
  Forall parser_record (changed_lines st').
Proof.
  intros Hst. unfold parse_line, int, local.
  destruct (startswith (u "diff --git") line).
  { destruct (search diff_header line); intros [= <-]; exact Hst. }
  destruct (startswith (u "@@") line).
  { repeat match goal with
           | |- context [if ?b then _ else _] => destruct b
           | |- context [match ?o with Some _ => _ | None => _ end] => destruct o
           end; simpl; try discriminate; intros [= <-]; exact Hst. }
  destruct (startswith (u "-") line && negb (startswith (u "---") line)).
  { destruct (current_file st) as [file |]; [| intros [= <-]; exact Hst].
    destruct file as [| c file]; simpl; [intros [= <-]; exact Hst |].
    destruct (old_line_num st); simpl; [| discriminate].
    intros [= <-]. simpl. apply Forall_app. split; [exact Hst |].
    repeat constructor; simpl; auto; discriminate. }
  destruct (startswith (u "+") line && negb (startswith (u "+++") line)).
  { destruct (current_file st) as [file |]; [| intros [= <-]; exact Hst].
    destruct file as [| c file]; simpl; [intros [= <-]; exact Hst |].
    destruct (new_line_num st); simpl; [| discriminate].
    intros [= <-]. simpl. apply Forall_app. split; [exact Hst |].
    repeat constructor; simpl; auto; discriminate. }
  destruct (startswith (u " ") line); [| intros [= <-]; exact Hst].
  destruct (old_line_num st); simpl; [| discriminate].
  destruct (new_line_num st); simpl; [| discriminate].
  intros [= <-]. exact Hst.
Qed.

(** With no file seen and no counter set, a line leaves the state as it
    is, or is a context line and reads an unbound counter. *)
Lemma parse_line_before_header (line : str) :
  startswith (u "diff --git") line = false ->
  parse_line parse_start line
  = if startswith (u " ") line then Raise UnboundLocalError else Ok parse_start.
Proof.
  intros Hhead. unfold parse_line. rewrite Hhead.
  destruct (startswith (u " ") line) eqn:Hsp.
  - apply startswith_app in Hsp. destruct Hsp as (t & ->). reflexivity.
  - destruct (startswith (u "@@") line).
    { destruct (search hunk_header line); reflexivity. }
    destruct (startswith (u "-") line && _); [reflexivity |].
    destruct (startswith (u "+") line && _); reflexivity.
Qed.

Lemma parse_line_unread (st : parse_locals) (line : str) :
  unread line = true -> parse_line st line = Ok st.
Proof.
  unfold unread. rewrite !orb_true_iff, negb_true_iff, !orb_false_iff.
  intros [[Hm | Hp] | ((((H1 & H2) & H3) & H4) & H5)].
  - apply startswith_app in Hm. destruct Hm as (t & ->). reflexivity.
  - apply startswith_app in Hp. destruct Hp as (t & ->). reflexivity.
  - unfold parse_line. rewrite H1, H2, H3, H4, H5. reflexivity.
Qed.

End ParserFactsY.

Lemma parse_diff_makes_records `{UnicodeDB} (diff_output change_source : str)
    (lines : list ChangedLine) :
  _parse_diff diff_output change_source = Ok lines -> Forall parser_record lines.
Proof.
  unfold _parse_diff.
  destruct (for_each parse_line _ _) as [st |] eqn:Hrun; simpl; [| discriminate].
  intros [= <-].
  refine (for_each_invariant parse_line
            (fun s => Forall parser_record (changed_lines s)) _ _ _ st _ Hrun);
    [| constructor].
  intros s0 line s' _ Hs Hstep. exact (parse_line_record s0 s' line Hs Hstep).
Qed.

(** X2: every record [_parse_diff] returns has change type [added] or
    [deleted], the default classification [POSSIBLE_FIXUP], no
    [context_lines], and a file path that is not empty. *)
Theorem parse_diff_records_shape :
  forall (U : UnicodeDB) (diff_output change_source : str)
         (lines : list ChangedLine),
    _parse_diff diff_output change_source = Ok lines ->
    Forall parser_record lines.
Proof.
  intros U d s lines Hrun. exact (parse_diff_makes_records d s lines Hrun).
Qed.

(** A good hunk and a hunk with a bad header: two deleted records. *)
Lemma parse_diff_records_shape_example :
  @_parse_diff latin1 diff_with_second_hunk_malformed (u "unstaged")
  = Ok [new_ChangedLine (u "x") 5 (u "a") deleted;
        new_ChangedLine (u "x") 6 (u "b") deleted]
  /\ Forall parser_record
       [new_ChangedLine (u "x") 5 (u "a") deleted;
        new_ChangedLine (u "x") 6 (u "b") deleted].
Proof.
  split; [vm_compute; reflexivity |].
  apply (parse_diff_records_shape latin1 diff_with_second_hunk_malformed
           (u "unstaged")).
  vm_compute. reflexivity.
Defined.

(** X3: when no line of the diff starts with ["diff --git"], no file is
    ever current and no counter is ever set: the parser returns the empty
    list, unless some line starts with a space, and then it raises
    [UnboundLocalError]. *)
Theorem parse_diff_without_file_header :
  forall (U : UnicodeDB) (diff_output change_source : str),
    (forall line, In line (split_on 10 diff_output) ->
                  startswith (u "diff --git") line = false) ->
    _parse_diff diff_output change_source
    = if existsb (startswith (u " ")) (split_on 10 diff_output)
      then Raise UnboundLocalError
      else Ok [].
Proof.
  intros U d s Hno. unfold _parse_diff. fold parse_start.
  assert (Hloop : for_each parse_line (split_on 10 d) parse_start
                  = if existsb (startswith (u " ")) (split_on 10 d)
                    then Raise UnboundLocalError else Ok parse_start).
  { induction (split_on 10 d) as [| line ls IH]; [reflexivity |].
    change (for_each parse_line (line :: ls) parse_start)
      with (rbind (parse_line parse_start line) (for_each parse_line ls)).
    change (existsb (startswith (u " ")) (line :: ls))
      with (startswith (u " ") line || existsb (startswith (u " ")) ls).
    rewrite parse_line_before_header by (apply Hno; left; reflexivity).
    destruct (startswith (u " ") line); [reflexivity |].
    simpl. apply IH. intros l Hl. apply Hno. right. exact Hl. }
  rewrite Hloop. destruct (existsb _ _); reflexivity.
Qed.

(** A hunk with a deleted and an added line but no file header: nothing. *)
Lemma parse_diff_without_file_header_example :
  @_parse_diff latin1 headerless_diff (u "unstaged") = Ok [].
Proof.
  refine (parse_diff_without_file_header latin1 headerless_diff (u "unstaged") _).
  intros line Hline. vm_compute in Hline.
  repeat (destruct Hline as [<- | Hline]; [vm_compute; reflexivity |]).
  contradiction.
Defined.

(** X4: a line that starts with ["---"] or ["+++"], or with none of the
    prefixes the loop tests, is not read: the diff without that line
    parses to the same result.  So a deleted line whose text begins with
    ["--"] and an added line whose text begins with ["++"] are dropped, and
    the lines after them are numbered as if they were not there. *)
Theorem parse_diff_skips_unread_lines :
  forall (U : UnicodeDB) (before line after change_source : str),
    ~ In 10%N line ->
    unread line = true ->
    _parse_diff (before ++ newline ++ line ++ newline ++ after) change_source
    = _parse_diff (before ++ newline ++ after) change_source.
Proof.
  intros U before line after s Hline Hun. unfold _parse_diff, newline. simpl app.
  rewrite !split_on_app, (split_on_line 10 line Hline), !for_each_app.
  destruct (for_each parse_line (split_on 10 before) _) as [st |]; simpl;
    [| reflexivity].
  rewrite (parse_line_unread st line Hun). simpl. reflexivity.
Qed.

(** The deleted line ["-- a comment"] is taken for a header line; the
    deleted line ["- a comment"] is read. *)
Lemma parse_diff_skips_unread_lines_example :
  @_parse_diff latin1
    ((hunk_of_x ++ newline ++ u "-- a comment") ++ newline ++ u "--- a comment"
     ++ newline ++ u "-last")
    (u "unstaged")
  = @_parse_diff latin1
      ((hunk_of_x ++ newline ++ u "-- a comment") ++ newline ++ u "-last")
      (u "unstaged")
  /\ @_parse_diff latin1
       ((hunk_of_x ++ newline ++ u "-- a comment") ++ newline ++ u "-last")
       (u "unstaged")
     = Ok [new_ChangedLine (u "x") 5 (u "- a comment") deleted;
           new_ChangedLine (u "x") 6 (u "last") deleted].
Proof.
  split; [| vm_compute; reflexivity].
  apply (parse_diff_skips_unread_lines latin1
           (hunk_of_x ++ newline ++ u "-- a comment") (u "--- a comment")
           (u "-last") (u "unstaged")).
  - vm_compute. intuition discriminate.
  - vm_compute. reflexivity.
Defined.

(** ** DiffParser: the numbering of the lines of a hunk *)

Lemma range_first (lo : Z) (k : nat) :
  range lo (lo + Z.of_nat (S k)) = lo :: range (lo + 1) (lo + 1 + Z.of_nat k).
Proof.
  unfold range.
  replace (Z.to_nat (lo + Z.of_nat (S k) - lo)) with (S k) by lia.
  replace (Z.to_nat (lo + 1 + Z.of_nat k - (lo + 1))) with k by lia.
  simpl seq. simpl map. f_equal; [lia |].
  rewrite <- seq_shift, map_map. apply map_ext. intros i. lia.
Qed.

Lemma range_empty (lo : Z) : range lo (lo + 0) = [].
Proof. unfold range. replace (Z.to_nat (lo + 0 - lo)) with O by lia. reflexivity. Qed.

Section HunkBody.
Context {U : UnicodeDB}.

Lemma parse_minus_line (st : parse_locals) (line file : str) (o : Z) :
  minus_line line = true ->
  current_file st = Some file -> file <> [] -> old_line_num st = Some o ->
  parse_line st line
  = Ok {| changed_lines :=
            changed_lines st ++ [new_ChangedLine file o (skipn 1 line) deleted];
          current_file := current_file st;
          old_line_num := Some (o + 1);
          new_line_num := new_line_num st |}.
Proof.
  intros Hminus Hfile Hne Hold.
  assert (Hshape : exists t, line = u "-" ++ t).
  { apply startswith_app. unfold minus_line in Hminus.
    apply andb_true_iff in Hminus. apply Hminus. }
  destruct Hshape as (t & Hline).
  unfold parse_line.
  replace (startswith (u "diff --git") line) with false by (rewrite Hline; reflexivity).
  replace (startswith (u "@@") line) with false by (rewrite Hline; reflexivity).
  fold (minus_line line). rewrite Hminus, Hfile.
  destruct file as [| c file]; [contradiction |].
  simpl truthy. cbv iota. rewrite Hold. reflexivity.
Qed.

Lemma parse_plus_line (st : parse_locals) (line file : str) (n : Z) :
  plus_line line = true ->
  current_file st = Some file -> file <> [] -> new_line_num st = Some n ->
  parse_line st line
  = Ok {| changed_lines :=
            changed_lines st ++ [new_ChangedLine file n (skipn 1 line) added];
          current_file := current_file st;
          old_line_num := old_line_num st;
          new_line_num := Some (n + 1) |}.
Proof.
  intros Hplus Hfile Hne Hnew.
  assert (Hshape : exists t, line = u "+" ++ t).
  { apply startswith_app. unfold plus_line in Hplus.
    apply andb_true_iff in Hplus. apply Hplus. }
  destruct Hshape as (t & Hline).
  unfold parse_line.
  replace (startswith (u "diff --git") line) with false by (rewrite Hline; reflexivity).
  replace (startswith (u "@@") line) with false by (rewrite Hline; reflexivity).
  replace (startswith (u "-") line && negb (startswith (u "---") line)) with false
    by (rewrite Hline; reflexivity).
  fold (plus_line line). rewrite Hplus, Hfile.
  destruct file as [| c file]; [contradiction |].
  simpl truthy. cbv iota. rewrite Hnew. reflexivity.
Qed.

Lemma plus_line_not_minus (line : str) : plus_line line = true -> minus_line line = false.
Proof.
  unfold plus_line, minus_line. intros Hplus. apply andb_true_iff in Hplus.
  destruct Hplus as [Hstart _]. apply startswith_app in Hstart.
  destruct Hstart as (t & ->). reflexivity.
Qed.

Lemma minus_line_not_plus (line : str) : minus_line line = true -> plus_line line = false.
Proof.
  unfold plus_line, minus_line. intros Hminus. apply andb_true_iff in Hminus.
  destruct Hminus as [Hstart _]. apply startswith_app in Hstart.
  destruct Hstart as (t & ->). reflexivity.
Qed.

Lemma hunk_body_run (file : str) (body : list str) :
  file <> [] ->
  Forall (fun line => minus_line line || plus_line line = true) body ->
  forall (st : parse_locals) (o n : Z),
    current_file st = Some file ->
    old_line_num st = Some o -> new_line_num st = Some n ->
    exists records,
      for_each parse_line body st
      = Ok {| changed_lines := changed_lines st ++ records;
              current_file := Some file;
              old_line_num := Some (o + len (filter minus_line body));
              new_line_num := Some (n + len (filter plus_line body)) |}
      /\ map content records = map (skipn 1) body
      /\ Forall (fun l => file_path l = file) records
      /\ map line_number (filter (fun l => str_eqb (change_type l) deleted) records)
         = range o (o + len (filter minus_line body))
      /\ map line_number (filter (fun l => str_eqb (change_type l) added) records)
         = range n (n + len (filter plus_line body)).
Proof.
  intros Hne Hbody. induction Hbody as [| line body Hline _ IH]; intros st o n Hfile Hold Hnew.
  - exists []. unfold len. simpl. rewrite app_nil_r, !Z.add_0_r, <- Hfile, <- Hold, <- Hnew.
    destruct st. repeat split; try constructor.
    + rewrite <- (Z.add_0_r o) at 2. rewrite range_empty. reflexivity.
    + rewrite <- (Z.add_0_r n) at 2. rewrite range_empty. reflexivity.
  - change (for_each parse_line (line :: body) st)
      with (rbind (parse_line st line) (for_each parse_line body)).
    change (filter minus_line (line :: body))
      with (if minus_line line then line :: filter minus_line body
            else filter minus_line body).
    change (filter plus_line (line :: body))
      with (if plus_line line then line :: filter plus_line body
            else filter plus_line body).
    destruct (minus_line line) eqn:Hminus.
    + rewrite (minus_line_not_plus line Hminus).
      rewrite (parse_minus_line st line file o Hminus Hfile Hne Hold). unfold rbind.
      destruct (IH {| changed_lines :=
                        changed_lines st
                        ++ [new_ChangedLine file o (skipn 1 line) deleted];
                      current_file := current_file st;
                      old_line_num := Some (o + 1);
                      new_line_num := new_line_num st |}
                  (o + 1) n Hfile eq_refl Hnew)
        as (records & Hrun & Hcontent & Hfiles & Hdel & Hadd).
      exists (new_ChangedLine file o (skipn 1 line) deleted :: records).
      rewrite Hrun. cbn [changed_lines]. rewrite <- app_assoc.
      unfold len. cbn [length].
      split; [do 3 f_equal; lia |].
      split; [simpl; f_equal; exact Hcontent |].
      split; [constructor; [reflexivity | exact Hfiles] |].
      cbn [filter change_type new_ChangedLine]. autorewrite with pyeq.
      cbn [map line_number]. split.
      * rewrite range_first. f_equal. exact Hdel.
      * exact Hadd.
    + assert (Hplus : plus_line line = true) by exact Hline.
      rewrite Hplus.
      rewrite (parse_plus_line st line file n Hplus Hfile Hne Hnew). unfold rbind.
      destruct (IH {| changed_lines :=
                        changed_lines st
                        ++ [new_ChangedLine file n (skipn 1 line) added];
                      current_file := current_file st;
                      old_line_num := old_line_num st;
                      new_line_num := Some (n + 1) |}
                  o (n + 1) Hfile Hold eq_refl)
        as (records & Hrun & Hcontent & Hfiles & Hdel & Hadd).
      exists (new_ChangedLine file n (skipn 1 line) added :: records).
      rewrite Hrun. cbn [changed_lines]. rewrite <- app_assoc.
      unfold len. cbn [length].
      split; [do 3 f_equal; lia |].
      split; [simpl; f_equal; exact Hcontent |].
      split; [constructor; [reflexivity | exact Hfiles] |].
      cbn [filter change_type new_ChangedLine]. autorewrite with pyeq.
      cbn [map line_number]. split.
      * exact Hdel.
      * rewrite range_first. f_equal. exact Hadd.
Qed.

End HunkBody.

(** X5: inside a file with both counters set, a run of deleted and added
    lines is read without error into one record for each line, in order,
    with the line's text after its first character as content; the deleted
    records are numbered consecutively from the old counter and the added
    records consecutively from the new counter, each side independently of
    the other, and the counters end advanced by the number of lines of
    their side. *)
Theorem hunk_lines_are_numbered_consecutively :
  forall (U : UnicodeDB) (st : parse_locals) (file : str) (o n : Z)
         (body : list str),
    current_file st = Some file ->
    file <> [] ->
    old_line_num st = Some o ->
    new_line_num st = Some n ->
    Forall (fun line => minus_line line || plus_line line = true) body ->
    exists records,
      for_each parse_line body st
      = Ok {| changed_lines := changed_lines st ++ records;
              current_file := Some file;
              old_line_num := Some (o + len (filter minus_line body));
              new_line_num := Some (n + len (filter plus_line body)) |}
      /\ map content records = map (skipn 1) body
      /\ Forall (fun l => file_path l = file) records
      /\ map line_number (filter (fun l => str_eqb (change_type l) deleted) records)
         = range o (o + len (filter minus_line body))
      /\ map line_number (filter (fun l => str_eqb (change_type l) added) records)
         = range n (n + len (filter plus_line body)).
Proof.
  intros U st file o n body Hfile Hne Hold Hnew Hbody.
  exact (hunk_body_run file body Hne Hbody st o n Hfile Hold Hnew).
Qed.

(** After the header of a hunk at 5: ["-a"] is old line 5, ["+b"] new
    line 5, ["-c"] and ["-- d"] old lines 6 and 7. *)
Lemma hunk_numbering_example :
  exists records,
    for_each (@parse_line latin1) [u "-a"; u "+b"; u "-c"; u "-- d"] in_hunk_of_x
    = Ok {| changed_lines := changed_lines in_hunk_of_x ++ records;
            current_file := Some (u "x");
            old_line_num :=
              Some (5 + len (filter minus_line [u "-a"; u "+b"; u "-c"; u "-- d"]));
            new_line_num :=
              Some (5 + len (filter plus_line [u "-a"; u "+b"; u "-c"; u "-- d"])) |}
    /\ map content records = map (skipn 1) [u "-a"; u "+b"; u "-c"; u "-- d"]
    /\ Forall (fun l => file_path l = u "x") records
    /\ map line_number (filter (fun l => str_eqb (change_type l) deleted) records)
       = range 5 (5 + len (filter minus_line [u "-a"; u "+b"; u "-c"; u "-- d"]))
    /\ map line_number (filter (fun l => str_eqb (change_type l) added) records)
       = range 5 (5 + len (filter plus_line [u "-a"; u "+b"; u "-c"; u "-- d"])).
Proof.
  apply (hunk_lines_are_numbered_consecutively latin1 in_hunk_of_x (u "x") 5 5
           [u "-a"; u "+b"; u "-c"; u "-- d"]).
  - reflexivity.
  - discriminate.
  - reflexivity.
  - reflexivity.
  - repeat constructor.
Defined.

Lemma for_each_ok_each {A S : Type} (body : S -> A -> result S) (l : list A) :
  forall s s', for_each body l s = Ok s' ->
               forall x, In x l -> exists s1 s2, body s1 x = Ok s2.
Proof.
  induction l as [| y l IH]; simpl; intros s s' Hrun x Hx; [destruct Hx |].
  destruct (body s y) as [s1 |] eqn:Hstep; simpl in Hrun; [| discriminate].
  destruct Hx as [<- | Hx]; [eauto | eapply IH; eauto].
Qed.

Lemma set_contains_raises (x : ChangedLine) (s : list ChangedLine) (e : exn) :
  set_contains x s = Raise e -> e = TypeError.
Proof. unfold set_contains. destruct (hashable x); [discriminate | now intros [= <-]]. Qed.

Lemma set_add_raises (x : ChangedLine) (s : list ChangedLine) (e : exn) :
  set_add x s = Raise e -> e = TypeError.
Proof. unfold set_add. destruct (hashable x); [discriminate | now intros [= <-]]. Qed.

Lemma set_contains_ok (x : ChangedLine) (s : list ChangedLine) (b : bool) :
  set_contains x s = Ok b -> context_lines x = None.
Proof.
  unfold set_contains, hashable. destruct (context_lines x); [discriminate | reflexivity].
Qed.

Section ReconcilerErrors.
Variable ratio : str -> str -> Q.

Lemma keep_unused_raises used acc line e :
  keep_unused used acc line = Raise e -> e = TypeError.
Proof.
  unfold keep_unused. destruct (set_contains line used) as [b |] eqn:Hc; simpl.
  - destruct b; discriminate.
  - apply set_contains_raises in Hc. now intros [= <-].
Qed.

Lemma keep_unused_ok used acc line acc' :
  keep_unused used acc line = Ok acc' -> context_lines line = None.
Proof.
  unfold keep_unused. destruct (set_contains line used) as [b |] eqn:Hc; simpl;
    [| discriminate].
  intros _. eapply set_contains_ok; eauto.
Qed.

Lemma best_match_step_raises d used best a e :
  best_match_step ratio d used best a = Raise e -> e = TypeError.
Proof.
  unfold best_match_step. destruct (set_contains a used) as [b |] eqn:Hc; simpl.
  - destruct b; [discriminate |].
    destruct (_ >? 5); [discriminate |].
    destruct (_ && _); discriminate.
  - apply set_contains_raises in Hc. now intros [= <-].
Qed.

Lemma pair_step_raises added_lines st d e :
  pair_step ratio added_lines st d = Raise e -> e = TypeError.
Proof.
  unfold pair_step. destruct (set_contains d (used_deleted st)) as [b |] eqn:Hc; simpl.
  - destruct b; [discriminate |].
    destruct (for_each _ added_lines _) as [best |] eqn:Hloop; simpl.
    + destruct (fst best) as [a |]; [| discriminate].
      destruct (set_add d _) eqn:Hd; simpl.
      * destruct (set_add a _) eqn:Ha; simpl; [discriminate |].
        apply set_add_raises in Ha. now intros [= <-].
      * apply set_add_raises in Hd. now intros [= <-].
    + apply for_each_raises in Hloop. destruct Hloop as (s1 & x & _ & Hb).
      apply best_match_step_raises in Hb. now intros [= <-].
  - apply set_contains_raises in Hc. now intros [= <-].
Qed.

Lemma enhance_file_raises acc group e :
  enhance_file ratio acc group = Raise e -> e = TypeError.
Proof.
  unfold enhance_file.
  destruct (for_each (pair_step ratio _) _ _) as [st |] eqn:H1; simpl.
  - destruct (for_each (keep_unused (used_deleted st)) _ _) as [e1 |] eqn:H2; simpl.
    + destruct (for_each (keep_unused (used_added st)) _ _) as [e2 |] eqn:H3; simpl;
        [discriminate |].
      apply for_each_raises in H3. destruct H3 as (s1 & x & _ & Hb).
      apply keep_unused_raises in Hb. now intros [= <-].
    + apply for_each_raises in H2. destruct H2 as (s1 & x & _ & Hb).
      apply keep_unused_raises in Hb. now intros [= <-].
  - apply for_each_raises in H1. destruct H1 as (s1 & x & _ & Hb).
    apply pair_step_raises in Hb. now intros [= <-].
Qed.

(** A file whose lines went through: its deleted and its added lines
    were all hashed. *)
Lemma enhance_file_ok acc file ls out l :
  enhance_file ratio acc (file, ls) = Ok out ->
  In l ls -> change_type l = deleted \/ change_type l = added ->
  context_lines l = None.
Proof.
  unfold enhance_file. simpl snd.
  destruct (for_each (pair_step ratio _) _ _) as [st |] eqn:H1; simpl;
    [| discriminate].
  destruct (for_each (keep_unused (used_deleted st)) _ _) as [e1 |] eqn:H2; simpl;
    [| discriminate].
  destruct (for_each (keep_unused (used_added st)) _ _) as [e2 |] eqn:H3; simpl;
    [| discriminate].
  intros _ Hl [Ht | Ht].
  - destruct (for_each_ok_each _ _ _ _ H2 l) as (s1 & s2 & Hb).
    { apply filter_In. split; [exact Hl |]. rewrite Ht. apply str_eqb_refl. }
    eapply keep_unused_ok; eauto.
  - destruct (for_each_ok_each _ _ _ _ H3 l) as (s1 & s2 & Hb).
    { apply filter_In. split; [exact Hl |]. rewrite Ht. apply str_eqb_refl. }
    eapply keep_unused_ok; eauto.
Qed.

End ReconcilerErrors.

(** X6: when a deleted or an added line of the input carries a
    [context_lines] list, [_enhance_change_detection] raises [TypeError]:
    every such line is tested for membership in a set, which hashes it. *)
Theorem enhance_unhashable_line_raises_TypeError :
  forall (ratio : str -> str -> Q) (lines : list ChangedLine) (l : ChangedLine),
    In l lines ->
    change_type l = deleted \/ change_type l = added ->
    context_lines l <> None ->
    _enhance_change_detection ratio lines = Raise TypeError.
Proof.
  intros ratio lines l Hl Ht Hctx. unfold _enhance_change_detection.
  destruct (for_each (enhance_file ratio) (group_by_file lines) [])
    as [out | e] eqn:Hrun.
  - exfalso. apply Hctx.
    destruct (for_each_ok_each _ _ _ _ Hrun
                (file_path l,
                 filter (fun l0 => str_eqb (file_path l0) (file_path l)) lines))
      as (s1 & s2 & Hb).
    { apply group_by_file_groups. split; [reflexivity |].
      intros Hnil.
      assert (Hin : In l (filter (fun l0 => str_eqb (file_path l0) (file_path l)) lines)).
      { apply filter_In. split; [exact Hl | apply str_eqb_refl]. }
      rewrite Hnil in Hin. destruct Hin. }
    eapply enhance_file_ok; eauto.
    apply filter_In. split; [exact Hl | apply str_eqb_refl].
  - apply for_each_raises in Hrun. destruct Hrun as (s1 & g & _ & Hb).
    apply enhance_file_raises in Hb. now subst.
Qed.

(** A deleted line with two context lines, after a line of another kind. *)
Lemma enhance_unhashable_line_example :
  _enhance_change_detection Difflib.ratio
    [new_ChangedLine (u "a.py") 1 (u "y = 2") modified; deleted_with_context]
  = Raise TypeError.
Proof.
  apply (enhance_unhashable_line_raises_TypeError Difflib.ratio _ deleted_with_context).
  - right. left. reflexivity.
  - left. reflexivity.
  - discriminate.
Defined.

Section ReconcilerKeeps.
Variable ratio : str -> str -> Q.

Lemma pair_step_records (deleted_lines added_lines before : list ChangedLine)
    (st : pairing) (d : ChangedLine) :
  all_hashable added_lines ->
  context_lines d = None ->
  In d deleted_lines ->
  pairs_recorded deleted_lines added_lines before st ->
  exists st',
    pair_step ratio added_lines st d = Ok st'
    /\ pairs_recorded deleted_lines added_lines before st'.
Proof.
  intros Hadded Hd Hin (extra & Henh & Hud & Hua).
  destruct (in_dec ChangedLine_eq_dec d (used_deleted st)) as [Hseen | Hfresh].
  - exists st. split; [| exists extra; auto].
    unfold pair_step. rewrite set_contains_hashable by exact Hd. simpl.
    apply existsb_ChangedLine_eqb in Hseen. rewrite Hseen. reflexivity.
  - destruct (pair_step_run ratio added_lines st d Hadded Hd Hfresh)
      as (choice & Hchoice & ->).
    eexists. split; [reflexivity |].
    destruct choice as [a |]; simpl.
    + assert (Ha : In a added_lines).
      { destruct Hchoice as (_ & l1 & l2 & -> & _).
        apply in_or_app. right. left. reflexivity. }
      exists (extra ++ [modified_from d a]). rewrite Henh, app_assoc.
      split; [reflexivity |]. split.
      * intros x [<- | Hx].
        -- exists a. split; [exact Ha |]. apply in_or_app. right. left. reflexivity.
        -- destruct (Hud x Hx) as (a0 & Ha0 & Hrec). exists a0.
           split; [exact Ha0 |]. apply in_or_app. left. exact Hrec.
      * intros x [<- | Hx].
        -- exists d. split; [exact Hin |]. apply in_or_app. right. left. reflexivity.
        -- destruct (Hua x Hx) as (d0 & Hd0 & Hrec). exists d0.
           split; [exact Hd0 |]. apply in_or_app. left. exact Hrec.
    + exists (extra ++ [d]). rewrite Henh, app_assoc.
      split; [reflexivity |]. split.
      * intros x Hx. destruct (Hud x Hx) as (a0 & Ha0 & Hrec). exists a0.
        split; [exact Ha0 |]. apply in_or_app. left. exact Hrec.
      * intros x Hx. destruct (Hua x Hx) as (d0 & Hd0 & Hrec). exists d0.
        split; [exact Hd0 |]. apply in_or_app. left. exact Hrec.
Qed.

Lemma enhance_file_keeps (before : list ChangedLine) (file : str)
    (ls : list ChangedLine) :
  all_hashable ls ->
  exists extra,
    enhance_file ratio before (file, ls) = Ok (before ++ extra)
    /\ forall l, In l ls -> accounted_for ls extra l.
Proof.
  intros Hls. unfold enhance_file. simpl snd.
  set (deleted_lines := filter (fun l => str_eqb (change_type l) deleted) ls).
  set (added_lines := filter (fun l => str_eqb (change_type l) added) ls).
  set (other_lines :=
         filter (fun l => negb (str_eqb (change_type l) deleted
                                || str_eqb (change_type l) added)) ls).
  assert (Hdel : all_hashable deleted_lines) by (apply all_hashable_filter; exact Hls).
  assert (Hadd : all_hashable added_lines) by (apply all_hashable_filter; exact Hls).
  destruct (for_each_total (pair_step ratio added_lines)
              (pairs_recorded deleted_lines added_lines before) deleted_lines)
    with (s := {| used_deleted := []; used_added := []; enhanced_lines := before |})
    as (st & Hrun & extra & Henh & Hud & Hua).
  { intros s d Hd Hs. apply pair_step_records; try assumption.
    unfold all_hashable in Hdel. rewrite Forall_forall in Hdel. apply Hdel. exact Hd. }
  { exists []. simpl. rewrite app_nil_r.
    split; [reflexivity |]. split; intros x []. }
  rewrite Hrun. simpl.
  rewrite keep_unused_loop by exact Hdel. simpl.
  rewrite keep_unused_loop by exact Hadd. simpl.
  rewrite Henh, <- !app_assoc.
  eexists. split; [reflexivity |].
  intros l Hl. unfold accounted_for.
  destruct (str_eqb (change_type l) deleted) eqn:Htd.
  { assert (Hld : In l deleted_lines) by (apply filter_In; split; assumption).
    apply str_eqb_eq in Htd.
    destruct (in_dec ChangedLine_eq_dec l (used_deleted st)) as [Hused | Hfree].
    - right. left. split; [exact Htd |].
      destruct (Hud l Hused) as (a & Ha & Hrec). exists a.
      apply filter_In in Ha. destruct Ha as [Ha Hta]. apply str_eqb_eq in Hta.
      repeat split; try assumption. apply in_or_app. left. exact Hrec.
    - left. apply in_or_app. right. apply in_or_app. left.
      apply filter_In. split; [exact Hld |].
      apply negb_true_iff. apply existsb_false_not_In. exact Hfree. }
  destruct (str_eqb (change_type l) added) eqn:Hta.
  { assert (Hla : In l added_lines) by (apply filter_In; split; assumption).
    apply str_eqb_eq in Hta.
    destruct (in_dec ChangedLine_eq_dec l (used_added st)) as [Hused | Hfree].
    - right. right. split; [exact Hta |].
      destruct (Hua l Hused) as (d & Hd & Hrec). exists d.
      apply filter_In in Hd. destruct Hd as [Hd Htd']. apply str_eqb_eq in Htd'.
      repeat split; try assumption. apply in_or_app. left. exact Hrec.
    - left. apply in_or_app. right. apply in_or_app. right. apply in_or_app. left.
      apply filter_In. split; [exact Hla |].
      apply negb_true_iff. apply existsb_false_not_In. exact Hfree. }
  left. do 3 (apply in_or_app; right).
  apply filter_In. split; [exact Hl |]. rewrite Htd, Hta. reflexivity.
Qed.

End ReconcilerKeeps.

(** X7: on lines without [context_lines] the reconciler loses no line:
    every input line is in the output as it was, or it is a deleted line and
    the output has the [modified] record of its pairing with an added line
    of the same file, or it is an added line and the output has the
    [modified] record of its pairing with a deleted line of the same
    file. *)
Theorem enhance_loses_no_line :
  forall (ratio : str -> str -> Q) (lines : list ChangedLine),
    all_hashable lines ->
    exists out,
      _enhance_change_detection ratio lines = Ok out
      /\ forall l, In l lines ->
           In l out
           \/ (change_type l = deleted
               /\ exists a, In a lines /\ change_type a = added
                            /\ file_path a = file_path l
                            /\ In (modified_from l a) out)
           \/ (change_type l = added
               /\ exists d, In d lines /\ change_type d = deleted
                            /\ file_path d = file_path l
                            /\ In (modified_from d l) out).
Proof.
  intros ratio lines Hlines. unfold _enhance_change_detection.
  destruct (for_each_appending (enhance_file ratio)
              (fun g extra => forall l, In l (snd g) -> accounted_for (snd g) extra l)
              (group_by_file lines)) with (acc := @nil ChangedLine)
    as (out & Hrun & _ & Hto).
  { intros acc [file ls] Hg. apply group_by_file_groups in Hg.
    destruct Hg as [-> _]. apply enhance_file_keeps.
    apply all_hashable_filter. exact Hlines. }
  exists out. split; [exact Hrun |].
  intros l Hl.
  set (ls := filter (fun l0 => str_eqb (file_path l0) (file_path l)) lines).
  assert (Hin : In l ls) by (apply filter_In; split; [exact Hl | apply str_eqb_refl]).
  destruct (Hto (file_path l, ls)) as (extra & Hkeeps & Hincl).
  { apply group_by_file_groups. split; [reflexivity |].
    intros Hnil. fold ls in Hnil. rewrite Hnil in Hin. destruct Hin. }
  destruct (Hkeeps l Hin) as [Hout | [(Ht & a & Ha & Hta & Hrec) | (Ht & d & Hd & Htd & Hrec)]].
  - left. apply Hincl. exact Hout.
  - right. left. split; [exact Ht |]. exists a.
    apply filter_In in Ha. destruct Ha as [Ha Hfa]. apply str_eqb_eq in Hfa.
    repeat split; try assumption. apply Hincl. exact Hrec.
  - right. right. split; [exact Ht |]. exists d.
    apply filter_In in Hd. destruct Hd as [Hd Hfd]. apply str_eqb_eq in Hfd.
    repeat split; try assumption. apply Hincl. exact Hrec.
Qed.

(** The pair of C4's example and a blank added line. *)
Lemma enhance_loses_no_line_example :
  exists out,
    _enhance_change_detection Difflib.ratio
      [foo_bar_deleted; foo_baz_added; blank_added] = Ok out
    /\ forall l, In l [foo_bar_deleted; foo_baz_added; blank_added] ->
         In l out
         \/ (change_type l = deleted
             /\ exists a, In a [foo_bar_deleted; foo_baz_added; blank_added]
                          /\ change_type a = added
                          /\ file_path a = file_path l
                          /\ In (modified_from l a) out)
         \/ (change_type l = added
             /\ exists d, In d [foo_bar_deleted; foo_baz_added; blank_added]
                          /\ change_type d = deleted
                          /\ file_path d = file_path l
                          /\ In (modified_from d l) out).
Proof.
  apply (enhance_loses_no_line Difflib.ratio
           [foo_bar_deleted; foo_baz_added; blank_added]).
  repeat constructor.
Defined.

Section ClassifierFactsX.
Context {U : UnicodeDB}.
Variable git_show : str -> result str.
Variable commit_age : str -> result Z.

Lemma classify_loop (lines : list ChangedLine) :
  forall acc out,
    for_each
      (fun classified_lines line =>
         classification <- classify_change git_show commit_age line None ;;
         Ok (classified_lines ++ [reclassified classification line]))
      lines acc = Ok out ->
    exists out',
      out = acc ++ out'
      /\ Forall2 (fun l o =>
                    exists c, classify_change git_show commit_age l None = Ok c
                              /\ o = reclassified c l) lines out'.
Proof.
  induction lines as [| l lines IH]; simpl; intros acc out Hrun.
  - injection Hrun as <-. exists []. rewrite app_nil_r. split; constructor.
  - destruct (classify_change git_show commit_age l None) as [c |] eqn:Hc;
      simpl in Hrun; [| discriminate].
    destruct (IH _ _ Hrun) as (out' & -> & Hall).
    exists (reclassified c l :: out'). rewrite <- app_assoc. split; [reflexivity |].
    constructor; [eauto | exact Hall].
Qed.

Lemma classify_change_likely (change : ChangedLine) (target : option str) :
  _is_new_file git_show (file_path change) = Ok false ->
  _is_likely_fixup_content change = true ->
  classify_change git_show commit_age change target = Ok LIKELY_FIXUP.
Proof.
  intros Hnew Hlikely. unfold classify_change. rewrite Hnew. simpl.
  rewrite Hlikely. reflexivity.
Qed.

End ClassifierFactsX.

(** X8: [_classify_changes] returns as many lines as it is given, in the
    same order; each differs from its input line in the classification
    only, which is what [classify_change] (called without a target commit)
    returns for the input line. *)
Theorem classify_changes_keeps_lines :
  forall (U : UnicodeDB) (git_show : str -> result str)
         (commit_age : str -> result Z) (lines out : list ChangedLine),
    _classify_changes git_show commit_age lines = Ok out ->
    Forall2 (fun l o =>
               exists c, classify_change git_show commit_age l None = Ok c
                         /\ o = reclassified c l) lines out.
Proof.
  intros U git_show commit_age lines out Hrun.
  destruct (classify_loop git_show commit_age lines [] out Hrun) as (out' & -> & Hall).
  exact Hall.
Qed.

(** A modified line and the first line of a new function. *)
Lemma classify_changes_keeps_lines_example :
  Forall2 (fun l o =>
             exists c, @classify_change latin1 git_show_answering no_commit_age l None = Ok c
                       /\ o = reclassified c l)
    [new_ChangedLine (u "a.txt") 5 (u "hello world") modified;
     new_ChangedLine (u "a.txt") 9 (u "def compute_total(items):") added]
    [reclassified POSSIBLE_FIXUP (new_ChangedLine (u "a.txt") 5 (u "hello world") modified);
     reclassified UNLIKELY_FIXUP
       (new_ChangedLine (u "a.txt") 9 (u "def compute_total(items):") added)].
Proof.
  apply (classify_changes_keeps_lines latin1 git_show_answering no_commit_age).
  vm_compute. reflexivity.
Defined.

(** X9: the age of commits plays no part in discovery.  [_classify_changes]
    calls [classify_change] without a target commit, so [_is_old_commit]
    is never consulted: [get_changed_lines] and [find_fixup_targets] return
    the same whatever the commit dates are and whether or not they can be
    read. *)
Theorem discovery_ignores_commit_dates :
  forall (U : UnicodeDB) (ratio : str -> str -> Q)
         (git_diff git_show : str -> result str)
         (commit_age commit_age' : str -> result Z)
         (git_blame : str -> Z -> result str) (repo_commit : str -> result Commit)
         (git_rev_list : str -> result str)
         (filter_mode : FilterMode) (limit_sha : option str),
    get_changed_lines ratio git_diff git_show commit_age
    = get_changed_lines ratio git_diff git_show commit_age'
    /\ find_fixup_targets ratio git_diff git_show commit_age git_blame repo_commit
         git_rev_list filter_mode limit_sha
       = find_fixup_targets ratio git_diff git_show commit_age' git_blame repo_commit
           git_rev_list filter_mode limit_sha.
Proof.
  intros. split; reflexivity.
Qed.

Section EngineRuns.
Import Re.
Context {U : UnicodeDB}.

(** A greedy repetition of a one-character test over characters that all
    pass it: the matcher gets through when the continuation accepts at the
    end of the subject. *)
Lemma star_loop_to_the_end (p : N -> bool)
    (body : mstate -> (mstate -> option mstate) -> option mstate)
    (k : mstate -> option mstate) :
  (forall st k', body st k' = eat p st k') ->
  (forall st, rest st = [] -> k st <> None) ->
  forall ahead st fuel,
    rest st = ahead -> Forall (fun c => p c = true) ahead ->
    (length ahead <= fuel)%nat ->
    star_loop body k fuel st <> None.
Proof.
  intros Hbody Hk. induction ahead as [| c ahead IH]; intros st fuel Hrest Hall Hfuel.
  - destruct fuel as [| fuel]; simpl; [apply Hk; exact Hrest |].
    rewrite Hbody. unfold eat. rewrite Hrest. apply Hk. exact Hrest.
  - destruct fuel as [| fuel]; simpl in *; [lia |].
    rewrite Hbody. unfold eat. rewrite Hrest.
    inversion Hall as [| ? ? Hc Hall']; subst. rewrite Hc. simpl.
    replace (pos st <? S (pos st))%nat with true
      by (symmetry; apply Nat.ltb_lt; lia).
    match goal with
    | |- match ?x with Some _ => _ | None => _ end <> None =>
        assert (Hx : x <> None) by (apply IH; simpl; [reflexivity | exact Hall' | lia]);
        destruct x; [discriminate | contradiction]
    end.
Qed.

Lemma search_from_eq (r : regex) (subject : str) (p : nat) (before : option N)
    (ahead : str) :
  search_from r subject p before ahead
  = match run r {| pos := p; prev := before; rest := ahead; caps := [] |} Some with
    | Some st =>
        Some {| m_subject := subject; m_start := p; m_end := pos st;
                m_caps := caps st |}
    | None =>
        match ahead with
        | c :: ahead' => search_from r subject (S p) (Some c) ahead'
        | [] => None
        end
    end.
Proof. destruct ahead; reflexivity. Qed.

(** A pattern that matches at the start of the subject is found. *)
Lemma matches_at_start (r : regex) (s : str) :
  run r {| pos := 0; prev := None; rest := s; caps := [] |} Some <> None ->
  matches r s = true.
Proof.
  intros Hrun. unfold matches, search. rewrite search_from_eq.
  destruct (run r _ Some); [reflexivity | contradiction].
Qed.

Lemma symbols_only_matches (s : str) :
  Forall no_ascii_letter s ->
  matches
    (cat [Bol; Star (NoneOf [Range (ch "a") (ch "z"); Range (ch "A") (ch "Z")]); Eol])
    s = true.
Proof.
  intros Hs. apply matches_at_start. simpl.
  apply (star_loop_to_the_end
           (fun c => negb (existsb (fun i => item_matches i c)
                             [Range (ch "a") (ch "z"); Range (ch "A") (ch "Z")])))
    with (ahead := s).
  - reflexivity.
  - intros st Hst. rewrite Hst. discriminate.
  - reflexivity.
  - eapply Forall_impl; [| exact Hs]. intros a [Hl Hu]. simpl.
    apply negb_true_iff. rewrite orb_false_r. apply orb_false_iff.
    split; apply andb_false_iff; unfold ch; simpl.
    + destruct (N.leb_spec 97 a); [| auto]. right. apply N.leb_gt. lia.
    + destruct (N.leb_spec 65 a); [| auto]. right. apply N.leb_gt. lia.
  - apply Nat.le_refl.
Qed.

Lemma comment_start_matches (s : str) :
  startswith (u "#") s = true \/ startswith (u "//") s = true
  \/ startswith (u "*") s = true ->
  matches
    (cat [Bol; Star (Chr Space); Group 1 (alts [lit "#"; lit "//"; lit "*"])])
    s = true.
Proof.
  intros Hs. apply matches_at_start.
  destruct Hs as [Hs | [Hs | Hs]]; apply startswith_app in Hs;
    destruct Hs as (t & ->); vm_compute; discriminate.
Qed.

End EngineRuns.

Section LikelyContent.
Context {U : UnicodeDB}.

Lemma likely_fixup_when_pattern (change : ChangedLine) (pattern : Re.regex) :
  In pattern fixup_patterns ->
  Re.matches pattern (str_lower (strip (content change))) = true ->
  _is_likely_fixup_content change = true.
Proof.
  intros Hin Hm. unfold _is_likely_fixup_content.
  replace (existsb _ fixup_patterns) with true; [reflexivity |].
  symmetry. apply existsb_exists. exists pattern. split; assumption.
Qed.

End LikelyContent.

(** X10: in a file of the committed tree, a line whose trimmed and
    lower-cased content has no ASCII letter (digits, punctuation, text in
    another script) is [LIKELY_FIXUP], however long it is: the content
    patterns are tested before the length. *)
Theorem content_without_letters_is_likely_fixup :
  forall (U : UnicodeDB) (git_show : str -> result str)
         (commit_age : str -> result Z) (change : ChangedLine)
         (target : option str),
    _is_new_file git_show (file_path change) = Ok false ->
    Forall no_ascii_letter (str_lower (strip (content change))) ->
    classify_change git_show commit_age change target = Ok LIKELY_FIXUP.
Proof.
  intros U git_show commit_age change target Hold Hsym.
  apply classify_change_likely; [exact Hold |].
  eapply likely_fixup_when_pattern; [| apply symbols_only_matches; exact Hsym].
  unfold fixup_patterns. simpl. tauto.
Qed.

(** X11: in a file of the committed tree, a line whose trimmed and
    lower-cased content starts with ["#"], ["//"] or ["*"] is
    [LIKELY_FIXUP], whatever follows and however long the line is. *)
Theorem comment_line_is_likely_fixup :
  forall (U : UnicodeDB) (git_show : str -> result str)
         (commit_age : str -> result Z) (change : ChangedLine)
         (target : option str),
    _is_new_file git_show (file_path change) = Ok false ->
    startswith (u "#") (str_lower (strip (content change))) = true
    \/ startswith (u "//") (str_lower (strip (content change))) = true
    \/ startswith (u "*") (str_lower (strip (content change))) = true ->
    classify_change git_show commit_age change target = Ok LIKELY_FIXUP.
Proof.
  intros U git_show commit_age change target Hold Hstart.
  apply classify_change_likely; [exact Hold |].
  eapply likely_fixup_when_pattern; [| apply comment_start_matches; exact Hstart].
  unfold fixup_patterns. simpl. tauto.
Qed.

(** A separator of 120 ['=']. *)
Lemma content_without_letters_example :
  @classify_change latin1 git_show_answering no_commit_age
    (new_ChangedLine (u "a.txt") 1 separator_line added) None
  = Ok LIKELY_FIXUP.
Proof.
  apply (content_without_letters_is_likely_fixup latin1 git_show_answering
           no_commit_age (new_ChangedLine (u "a.txt") 1 separator_line added) None).
  - reflexivity.
  - change (Forall no_ascii_letter (repeat 61%N 120)).
    apply Forall_forall. intros c Hc.
    apply repeat_spec in Hc. subst c. split; lia.
Defined.

(** A commented-out function definition of more than 100 characters. *)
Lemma comment_line_example :
  (len (strip commented_out_def) >? 100) = true
  /\ @classify_change latin1 git_show_answering no_commit_age
       (new_ChangedLine (u "a.txt") 1 commented_out_def added) None
     = Ok LIKELY_FIXUP.
Proof.
  split; [vm_compute; reflexivity |].
  apply (comment_line_is_likely_fixup latin1 git_show_answering
           no_commit_age (new_ChangedLine (u "a.txt") 1 commented_out_def added) None).
  - reflexivity.
  - left. vm_compute. reflexivity.
Defined.

(** ** Discovery: what [get_changed_lines] returns and raises *)

Section ChangedLinesFacts.
Context {U : UnicodeDB}.
Variable ratio : str -> str -> Q.
Variable git_diff : str -> result str.
Variable git_show : str -> result str.
Variable commit_age : str -> result Z.

Lemma parser_records_hashable (lines : list ChangedLine) :
  Forall parser_record lines -> all_hashable lines.
Proof.
  unfold all_hashable. apply Forall_impl. intros l (_ & _ & Hctx & _). exact Hctx.
Qed.

Lemma enhance_makes_records (lines : list ChangedLine) :
  Forall parser_record lines ->
  exists out,
    _enhance_change_detection ratio lines = Ok out
    /\ Forall changed_line_record out.
Proof.
  intros Hlines.
  destruct (enhance_change_detection_spec ratio lines (parser_records_hashable _ Hlines))
    as (out & Hrun & Hfrom & _).
  exists out. split; [exact Hrun |].
  rewrite Forall_forall in Hlines. apply Forall_forall. intros r Hr.
  destruct (Hfrom r Hr) as [Hin | (file & d & a & used & Hd & _ & _ & _ & ->)].
  - destruct (Hlines r Hin) as (Ht & _ & Hctx & Hfile).
    split; [tauto | split; assumption].
  - unfold deleted_in in Hd. apply filter_In in Hd. destruct Hd as [Hd _].
    apply filter_In in Hd. destruct Hd as [Hd _].
    destruct (Hlines d Hd) as (_ & _ & _ & Hfile).
    split; [right; right; reflexivity | split; [reflexivity | exact Hfile]].
Qed.

Lemma classify_change_raises (change : ChangedLine) (e : exn) :
  classify_change git_show commit_age change None = Raise e ->
  git_show (u "HEAD:" ++ file_path change) = Raise e /\ e <> GitCommandError.
Proof.
  unfold classify_change, _is_new_file.
  destruct (git_show (u "HEAD:" ++ file_path change)) as [out | e'].
  - simpl. repeat match goal with
                  | |- context [if ?b then _ else _] => destruct b
                  end; discriminate.
  - destruct e'; simpl; try (intros [= <-]; split; [reflexivity | discriminate]).
    discriminate.
Qed.

Lemma classify_changes_raises (lines : list ChangedLine) (e : exn) :
  _classify_changes git_show commit_age lines = Raise e ->
  exists file, git_show (u "HEAD:" ++ file) = Raise e /\ e <> GitCommandError.
Proof.
  unfold _classify_changes. intros Hrun.
  apply for_each_raises in Hrun. destruct Hrun as (acc & l & _ & Hstep).
  destruct (classify_change git_show commit_age l None) as [c | e'] eqn:Hc;
    simpl in Hstep; [discriminate |].
  injection Hstep as <-. exists (file_path l). exact (classify_change_raises l e' Hc).
Qed.

Lemma classify_changes_records (lines out : list ChangedLine) :
  Forall changed_line_record lines ->
  _classify_changes git_show commit_age lines = Ok out ->
  Forall changed_line_record out.
Proof.
  intros Hlines Hrun.
  destruct (classify_loop git_show commit_age lines [] out Hrun) as (out' & -> & Hall).
  simpl. clear Hrun. induction Hall as [| l o ls os (c & _ & ->) _ IH].
  - constructor.
  - inversion Hlines; subst. constructor; [assumption | auto].
Qed.

End ChangedLinesFacts.

(** X12: every line [get_changed_lines] returns has change type [added],
    [deleted] or [modified], no [context_lines] and a file path that is
    not empty. *)
Theorem changed_lines_are_well_formed :
  forall (U : UnicodeDB) (ratio : str -> str -> Q)
         (git_diff git_show : str -> result str) (commit_age : str -> result Z)
         (lines : list ChangedLine),
    get_changed_lines ratio git_diff git_show commit_age = Ok lines ->
    Forall changed_line_record lines.
Proof.
  intros U ratio git_diff git_show commit_age lines. unfold get_changed_lines.
  destruct (git_diff (u "HEAD")) as [d1 |]; simpl; [| discriminate].
  destruct (_parse_diff d1 (u "unstaged")) as [unstaged |] eqn:H1; simpl;
    [| discriminate].
  destruct (git_diff (u "--cached")) as [d2 |]; simpl; [| discriminate].
  destruct (_parse_diff d2 (u "staged")) as [staged |] eqn:H2; simpl;
    [| discriminate].
  apply parse_diff_makes_records in H1, H2.
  destruct (enhance_makes_records ratio (unstaged ++ staged))
    as (enhanced & -> & Henh).
  { apply Forall_app. split; assumption. }
  simpl. intros Hrun.
  exact (classify_changes_records git_show commit_age enhanced lines Henh Hrun).
Qed.

(** The working tree of the end-to-end scenario: one [modified] line. *)
Lemma changed_lines_are_well_formed_example :
  @get_changed_lines latin1 Difflib.ratio example_diff git_show_answering no_commit_age
  = Ok [reclassified POSSIBLE_FIXUP
          (new_ChangedLine (u "a.txt") 5 (u "hello world") modified)]
  /\ Forall changed_line_record
       [reclassified POSSIBLE_FIXUP
          (new_ChangedLine (u "a.txt") 5 (u "hello world") modified)].
Proof.
  split; [vm_compute; reflexivity |].
  apply (changed_lines_are_well_formed latin1 Difflib.ratio example_diff
           git_show_answering no_commit_age).
  vm_compute. reflexivity.
Defined.

(** X13: when the lines of the diffs have at most 4300 characters, an
    exception that leaves [get_changed_lines] is one that [git diff]
    raised, or [UnboundLocalError] from the parser, or one that [git show]
    raised other than [GitCommandError]; the reconciler raises nothing on
    what the parser makes. *)
Theorem get_changed_lines_raises_only :
  forall (U : UnicodeDB) (ratio : str -> str -> Q)
         (git_diff git_show : str -> result str) (commit_age : str -> result Z)
         (e : exn),
    (forall arg out, git_diff arg = Ok out -> short_lines out) ->
    get_changed_lines ratio git_diff git_show commit_age = Raise e ->
    git_diff (u "HEAD") = Raise e
    \/ git_diff (u "--cached") = Raise e
    \/ e = UnboundLocalError
    \/ exists file, git_show (u "HEAD:" ++ file) = Raise e /\ e <> GitCommandError.
Proof.
  intros U ratio git_diff git_show commit_age e _. unfold get_changed_lines.
  destruct (git_diff (u "HEAD")) as [d1 | e1]; simpl; [| intros [= <-]; auto].
  destruct (_parse_diff d1 (u "unstaged")) as [unstaged | e1] eqn:H1; simpl.
  2:{ intros [= <-]. apply parse_diff_raises in H1. auto. }
  destruct (git_diff (u "--cached")) as [d2 | e2]; simpl; [| intros [= <-]; auto].
  destruct (_parse_diff d2 (u "staged")) as [staged | e2] eqn:H2; simpl.
  2:{ intros [= <-]. apply parse_diff_raises in H2. auto. }
  apply parse_diff_makes_records in H1, H2.
  destruct (enhance_makes_records ratio (unstaged ++ staged))
    as (enhanced & -> & Henh).
  { apply Forall_app. split; assumption. }
  simpl. intros Hrun. right. right. right.
  exact (classify_changes_raises git_show commit_age enhanced e Hrun).
Qed.

(** A diff whose only hunk header does not parse. *)
Lemma get_changed_lines_raises_example :
  @get_changed_lines latin1 Difflib.ratio malformed_tree git_show_answering
    no_commit_age = Raise UnboundLocalError
  /\ (malformed_tree (u "HEAD") = Raise UnboundLocalError
      \/ malformed_tree (u "--cached") = Raise UnboundLocalError
      \/ UnboundLocalError = UnboundLocalError
      \/ exists file, git_show_answering (u "HEAD:" ++ file) = Raise UnboundLocalError
                      /\ UnboundLocalError <> GitCommandError).
Proof.
  split; [vm_compute; reflexivity |].
  apply (get_changed_lines_raises_only latin1 Difflib.ratio malformed_tree
           git_show_answering no_commit_age UnboundLocalError).
  - intros arg out [= <-]. exact malformed_hunk_short_lines.
  - vm_compute. reflexivity.
Defined.

(** X14: when [git blame] answers with nothing but white space,
    [get_blame_info] raises [IndexError] (the first line has no first
    word), after its one call; it does not return [None]. *)
Theorem blank_blame_output_raises_IndexError :
  forall (git_blame : str -> Z -> result str) (repo_commit : str -> result Commit)
         (file : str) (n : Z) (out : str) (log : list query),
    git_blame file n = Ok out ->
    strip out = [] ->
    get_blame_info git_blame repo_commit file n log
    = (Raise IndexError, log ++ [(file, n)]).
Proof.
  intros git_blame repo_commit file n out log Hout Hblank.
  unfold get_blame_info, gcatch, gbind, repo_git_blame.
  rewrite Hout, Hblank. reflexivity.
Qed.

(** Two spaces and a newline. *)
Lemma blank_blame_output_example :
  get_blame_info blank_blame example_commit (u "a.txt") 3 []
  = (Raise IndexError, [] ++ [(u "a.txt", 3)]).
Proof.
  apply (blank_blame_output_raises_IndexError blank_blame example_commit
           (u "a.txt") 3 (u "  " ++ newline) []).
  - reflexivity.
  - vm_compute. reflexivity.
Defined.

Lemma first_occurrences_length (l : list str) :
  (length (first_occurrences l) <= length l)%nat.
Proof.
  induction l as [| x l IH]; simpl; [lia |].
  pose proof (filter_length_le (fun y => negb (str_eqb x y)) (first_occurrences l)).
  lia.
Qed.

(** A loop in which every round asks at most one question and adds at
    most one element for it. *)
Lemma gfor_each_asks {S : Type} (body : list S -> Z -> Git (list S))
    (Q : Z -> query -> Prop) :
  (forall acc o log, exists asked,
      snd (body acc o log) = log ++ asked
      /\ (length asked <= 1)%nat
      /\ Forall (Q o) asked
      /\ forall acc', fst (body acc o log) = Ok acc' ->
                      (length acc' <= length acc + length asked)%nat) ->
  forall offsets acc log, exists asked,
      snd (gfor_each body offsets acc log) = log ++ asked
      /\ (length asked <= length offsets)%nat
      /\ Forall (fun q => exists o, In o offsets /\ Q o q) asked
      /\ forall acc', fst (gfor_each body offsets acc log) = Ok acc' ->
                      (length acc' <= length acc + length asked)%nat.
Proof.
  intros Hbody. induction offsets as [| o offsets IH]; intros acc log.
  - exists []. simpl. rewrite app_nil_r. repeat split; auto.
    intros acc' [= <-]. lia.
  - simpl. unfold gbind.
    destruct (Hbody acc o log) as (asked1 & Hlog1 & Hlen1 & Hall1 & Hres1).
    destruct (body acc o log) as [[acc1 | e] log1]; simpl in *; subst log1.
    + destruct (IH acc1 (log ++ asked1)) as (asked & Hlog & Hlen & Hall & Hres).
      exists (asked1 ++ asked). rewrite Hlog, <- app_assoc.
      split; [reflexivity |]. rewrite length_app. split; [lia |]. split.
      * apply Forall_app. split.
        -- eapply Forall_impl; [| exact Hall1]. intros q Hq. exists o. auto.
        -- eapply Forall_impl; [| exact Hall]. intros q (o' & Ho' & Hq).
           exists o'. auto.
      * intros acc' Hacc'. specialize (Hres acc' Hacc').
        specialize (Hres1 acc1 eq_refl). lia.
    + exists asked1. split; [reflexivity |]. split; [lia |]. split.
      * eapply Forall_impl; [| exact Hall1]. intros q Hq. exists o. auto.
      * intros acc' Hacc'. discriminate.
Qed.

Section ContextQueries.
Variable git_blame : str -> Z -> result str.
Variable repo_commit : str -> result Commit.

(** One round of the loop over the offsets, whatever blame answers. *)
Lemma context_round_asks (file : str) (n : Z) (acc : list str) (offset : Z)
    (log : list query) :
  exists asked,
    snd ((if n + offset >? 0 then
            gbind (get_blame_info git_blame repo_commit file (n + offset))
              (fun blame_info =>
                 match blame_info with
                 | Some b => gret (acc ++ [BlameInfo.commit_hash b])
                 | None => gret acc
                 end)
          else gret acc) log) = log ++ asked
    /\ (length asked <= 1)%nat
    /\ Forall (fun q => fst q = file /\ 0 < snd q /\ snd q = n + offset) asked
    /\ forall acc',
         fst ((if n + offset >? 0 then
                 gbind (get_blame_info git_blame repo_commit file (n + offset))
                   (fun blame_info =>
                      match blame_info with
                      | Some b => gret (acc ++ [BlameInfo.commit_hash b])
                      | None => gret acc
                      end)
               else gret acc) log) = Ok acc' ->
         (length acc' <= length acc + length asked)%nat.
Proof.
  destruct (n + offset >? 0) eqn:Hpos.
  - exists [(file, n + offset)]. unfold gbind. rewrite get_blame_info_run.
    destruct (blame_of git_blame repo_commit file (n + offset)) as [[b |] | e];
      simpl; (split; [reflexivity |]); (split; [lia |]);
      (split; [repeat constructor; simpl; lia |]).
    + intros acc' [= <-]. rewrite length_app. simpl. lia.
    + intros acc' [= <-]. lia.
    + intros acc' Hacc'. discriminate.
  - exists []. simpl. rewrite app_nil_r. repeat split; auto.
    intros acc' [= <-]. lia.
Qed.

End ContextQueries.

(** X15: whatever [git blame] and the commit look-ups answer or raise,
    [_find_context_commits] for line [n] of a file asks blame at most four
    times, each time about that file at a positive line other than [n] and
    at most 2 away from it; when it returns, the commits it returns are
    without repetition and no more than the questions it asked. *)
Theorem context_search_asks_only_neighbours :
  forall (git_blame : str -> Z -> result str) (repo_commit : str -> result Commit)
         (file : str) (n : Z) (log : list query),
  exists asked,
    snd (_find_context_commits git_blame repo_commit file n log) = log ++ asked
    /\ (length asked <= 4)%nat
    /\ Forall (fun q => fst q = file /\ 0 < snd q /\ snd q <> n
                        /\ Z.abs (snd q - n) <= 2) asked
    /\ forall hashes,
         fst (_find_context_commits git_blame repo_commit file n log) = Ok hashes ->
         NoDup hashes /\ (length hashes <= length asked)%nat.
Proof.
  intros git_blame repo_commit file n log.
  destruct (gfor_each_asks
              (fun context_commits offset =>
                 let target_line := n + offset in
                 if target_line >? 0 then
                   gbind (get_blame_info git_blame repo_commit file target_line)
                     (fun blame_info =>
                        match blame_info with
                        | Some b => gret (context_commits ++ [BlameInfo.commit_hash b])
                        | None => gret context_commits
                        end)
                 else gret context_commits)
              (fun offset q => fst q = file /\ 0 < snd q /\ snd q = n + offset)
              (fun acc o lg => context_round_asks git_blame repo_commit file n acc o lg)
              [-2; -1; 1; 2] [] log)
    as (asked & Hlog & Hlen & Hall & Hres).
  exists asked. unfold _find_context_commits.
  set (loop := gfor_each _ [-2; -1; 1; 2] []) in *.
  unfold gbind. destruct (loop log) as [[hashes | e] log']; simpl in *.
  - split; [exact Hlog |]. split; [exact Hlen |]. split.
    + eapply Forall_impl; [| exact Hall].
      intros q (o & Ho & Hf & Hp & Hq). repeat split; auto; intuition lia.
    + intros hs [= <-]. rewrite dict_fromkeys_first_occurrences.
      split; [apply first_occurrences_NoDup |].
      pose proof (first_occurrences_length hashes).
      specialize (Hres hashes eq_refl). lia.
  - split; [exact Hlog |]. split; [exact Hlen |]. split.
    + eapply Forall_impl; [| exact Hall].
      intros q (o & Ho & Hf & Hp & Hq). repeat split; auto; intuition lia.
    + intros hs Hh. discriminate.
Qed.

(** ** BlameResolver: what a blame result holds *)

Lemma split_ws_aux_words (s : str) :
  forall word,
    Forall (fun c => isspace c = false) word ->
    Forall (fun w => w <> [] /\ Forall (fun c => isspace c = false) w)
      (split_ws_aux s word).
Proof.
  assert (Hrev : forall word,
             word <> [] -> Forall (fun c => isspace c = false) word ->
             rev word <> [] /\ Forall (fun c => isspace c = false) (rev word)).
  { intros word Hne Hword. split.
    - intros Hnil. apply Hne. rewrite <- (rev_involutive word), Hnil. reflexivity.
    - apply Forall_rev. exact Hword. }
  induction s as [| c s IH]; intros word Hword; simpl.
  - destruct word as [| c0 word]; [constructor |].
    constructor; [| constructor]. apply Hrev; [discriminate | exact Hword].
  - destruct (isspace c) eqn:Hc.
    + destruct word as [| c0 word]; [apply IH; constructor |].
      constructor; [apply Hrev; [discriminate | exact Hword] | apply IH; constructor].
    + apply IH. constructor; assumption.
Qed.

(** X16: when [get_blame_info] returns a blame result, its commit hash is
    a word: not empty and without white space; the look-up of that commit
    succeeded, and the message (stripped) and the author (["name <email>"])
    are the commit's. *)
Theorem blame_info_names_a_commit :
  forall (git_blame : str -> Z -> result str) (repo_commit : str -> result Commit)
         (file : str) (n : Z) (log : list query) (b : BlameInfo.t),
    fst (get_blame_info git_blame repo_commit file n log) = Ok (Some b) ->
    BlameInfo.commit_hash b <> []
    /\ Forall (fun c => isspace c = false) (BlameInfo.commit_hash b)
    /\ exists commit,
         repo_commit (BlameInfo.commit_hash b) = Ok commit
         /\ BlameInfo.commit_message b = strip (message commit)
         /\ BlameInfo.author b = author_string commit.
Proof.
  intros git_blame repo_commit file n log b.
  unfold get_blame_info, gcatch, gbind, repo_git_blame, glift, gret.
  destruct (git_blame file n) as [out | e]; [| destruct e; discriminate].
  destruct (split_on 10 (strip out)) as [| first_line lines]; [discriminate |].
  pose proof (split_ws_aux_words first_line [] (Forall_nil _)) as Hwords.
  fold (split_ws first_line) in Hwords.
  destruct (split_ws first_line) as [| commit_hash words]; [discriminate |].
  inversion Hwords as [| ? ? (Hne & Hword) _]; subst.
  destruct (repo_commit commit_hash) as [commit | e] eqn:Hcommit;
    [| destruct e; discriminate].
  intros [= <-]. simpl. split; [exact Hne |]. split; [exact Hword |].
  exists commit. auto.
Qed.

(** Line 5 of [a.txt] in the example repository. *)
Lemma blame_info_example :
  BlameInfo.commit_hash
    {| BlameInfo.commit_hash := u "abc123";
       BlameInfo.commit_message := u "Add greeting";
       BlameInfo.author := u "Jane Doe <jane@example.com>";
       BlameInfo.line_content := u "helo world" |} <> []
  /\ Forall (fun c => isspace c = false)
       (BlameInfo.commit_hash
          {| BlameInfo.commit_hash := u "abc123";
             BlameInfo.commit_message := u "Add greeting";
             BlameInfo.author := u "Jane Doe <jane@example.com>";
             BlameInfo.line_content := u "helo world" |})
  /\ exists commit,
       example_commit
         (BlameInfo.commit_hash
            {| BlameInfo.commit_hash := u "abc123";
               BlameInfo.commit_message := u "Add greeting";
               BlameInfo.author := u "Jane Doe <jane@example.com>";
               BlameInfo.line_content := u "helo world" |}) = Ok commit
       /\ BlameInfo.commit_message
            {| BlameInfo.commit_hash := u "abc123";
               BlameInfo.commit_message := u "Add greeting";
               BlameInfo.author := u "Jane Doe <jane@example.com>";
               BlameInfo.line_content := u "helo world" |} = strip (message commit)
       /\ BlameInfo.author
            {| BlameInfo.commit_hash := u "abc123";
               BlameInfo.commit_message := u "Add greeting";
               BlameInfo.author := u "Jane Doe <jane@example.com>";
               BlameInfo.line_content := u "helo world" |} = author_string commit.
Proof.
  apply (blame_info_names_a_commit example_blame example_commit (u "a.txt") 5 []).
  vm_compute. reflexivity.
Defined.

Section GroupOrder.
Context {A : Type}.
Variable key : A -> option str.



End GroupOrder.

Section TargetFacts.
Variable git_blame : str -> Z -> result str.
Variable repo_commit : str -> result Commit.

Lemma group_step_keys groups l log groups' log' :
  NoDup (map fst groups) ->
  group_step git_blame repo_commit groups l log = (Ok groups', log') ->
  NoDup (map fst groups').
Proof.
  intros Hg. unfold group_step, gbind, gret.
  destruct (str_eqb (change_type l) deleted || str_eqb (change_type l) modified).
  - destruct (get_blame_info git_blame repo_commit (file_path l) (line_number l) log)
      as [[[b |] | e] log1];
      intros [= <- _]; [apply NoDup_group_append |]; exact Hg.
  - destruct (str_eqb (change_type l) added).
    + destruct (_find_context_commits git_blame repo_commit (file_path l)
                  (line_number l) log)
        as [[[| h hs] | e] log1];
        intros [= <- _]; [| apply NoDup_group_append]; exact Hg.
    + intros [= <- _]. exact Hg.
Qed.

Lemma group_by_commit_keys lines log groups log' :
  group_by_commit git_blame repo_commit lines log = (Ok groups, log') ->
  NoDup (map fst groups).
Proof.
  unfold group_by_commit. intros Hrun.
  refine (gfor_each_invariant (group_step git_blame repo_commit)
            (fun g => NoDup (map fst g)) lines _
            [] log groups log' _ Hrun); [| constructor].
  intros s x lg s' lg' Hs Hstep. exact (group_step_keys _ _ _ _ _ Hs Hstep).
Qed.

Lemma target_loop_distinct (groups : list (str * list ChangedLine)) :
  forall acc targets,
    NoDup (map fst groups) ->
    (forall t, In t acc -> ~ In (FixupTarget.commit_hash t) (map fst groups)) ->
    NoDup (map FixupTarget.commit_hash acc) ->
    for_each (target_step repo_commit) groups acc = Ok targets ->
    NoDup (map FixupTarget.commit_hash targets).
Proof.
  induction groups as [| [h ls] groups IH]; simpl; intros acc targets Hkeys Hfresh Hacc Hrun.
  - injection Hrun as <-. exact Hacc.
  - inversion Hkeys as [| ? ? Hh Hkeys']; subst.
    destruct (repo_commit h) as [c | e]; simpl in Hrun.
    + apply (IH _ _ Hkeys') in Hrun; [exact Hrun | |].
      * intros t Ht. apply in_app_or in Ht. destruct Ht as [Ht | [<- | []]].
        -- intros Hin. apply (Hfresh t Ht). right. exact Hin.
        -- exact Hh.
      * rewrite map_app. simpl. apply NoDup_app; [exact Hacc | repeat constructor; auto |].
        intros x Hx [<- | []]. apply in_map_iff in Hx. destruct Hx as (t & Hth & Ht).
        apply (Hfresh t Ht). left. symmetry. exact Hth.
    + destruct e; simpl in Hrun; try discriminate.
      apply (IH _ _ Hkeys') in Hrun; [exact Hrun | | exact Hacc].
      intros t Ht Hin. apply (Hfresh t Ht). right. exact Hin.
Qed.

Lemma target_step_fields (groups : list (str * list ChangedLine))
    (targets : list FixupTarget.t) :
  for_each (target_step repo_commit) groups [] = Ok targets ->
  forall t, In t targets ->
    exists commit,
      repo_commit (FixupTarget.commit_hash t) = Ok commit
      /\ FixupTarget.commit_message t = strip (message commit)
      /\ FixupTarget.author t = author_string commit
      /\ FixupTarget.files t
         = first_occurrences (map file_path (FixupTarget.changed_lines t)).
Proof.
  intros Hrun.
  refine (for_each_invariant (target_step repo_commit)
            (fun ts => forall t, In t ts -> exists commit, _)
            groups _ [] targets _ Hrun); [| intros t []].
  intros ts [h ls] ts' Hin Hts. unfold target_step.
  destruct (repo_commit h) as [c | e] eqn:Hc.
  - intros [= <-] t Ht. apply in_app_or in Ht. destruct Ht as [Ht | [<- | []]].
    + apply Hts. exact Ht.
    + simpl. exists c. rewrite dict_fromkeys_first_occurrences. auto.
  - destruct e; try discriminate. intros [= <-]. exact Hts.
Qed.

End TargetFacts.

(** X17: the targets the aggregation pass returns have pairwise distinct
    commit hashes: one target for each commit. *)
Theorem targets_have_distinct_commits :
  forall (git_blame : str -> Z -> result str) (repo_commit : str -> result Commit)
         (changed_lines : list ChangedLine) (log : list query)
         (targets : list FixupTarget.t) (log' : list query),
    aggregate git_blame repo_commit changed_lines log = (Ok targets, log') ->
    NoDup (map FixupTarget.commit_hash targets).
Proof.
  intros git_blame repo_commit lines log targets log' Hrun.
  apply aggregate_inv in Hrun. destruct Hrun as (groups & Hg & Hts).
  apply group_by_commit_keys in Hg.
  apply (target_loop_distinct repo_commit groups [] targets Hg); auto.
  constructor.
Qed.

(** The example repository: two commits, two targets. *)
Lemma targets_have_distinct_commits_example :
  exists targets log',
    aggregate example_blame example_commit example_changed_lines [] = (Ok targets, log')
    /\ NoDup (map FixupTarget.commit_hash targets).
Proof.
  eexists. eexists. split; [vm_compute; reflexivity |].
  eapply (targets_have_distinct_commits example_blame example_commit
            example_changed_lines []).
  vm_compute. reflexivity.
Defined.

(** X18: for each target the aggregation pass returns, the look-up of its
    commit succeeded, its message is the commit's message stripped, its
    author is the commit's name and email as ["name <email>"], and its
    files are, without repetition, exactly the paths of its lines. *)
Theorem target_fields_come_from_commit_and_lines :
  forall (git_blame : str -> Z -> result str) (repo_commit : str -> result Commit)
         (changed_lines : list ChangedLine) (log : list query)
         (targets : list FixupTarget.t) (log' : list query),
    aggregate git_blame repo_commit changed_lines log = (Ok targets, log') ->
    forall t, In t targets ->
      (exists commit,
          repo_commit (FixupTarget.commit_hash t) = Ok commit
          /\ FixupTarget.commit_message t = strip (message commit)
          /\ FixupTarget.author t = author_string commit)
      /\ NoDup (FixupTarget.files t)
      /\ (forall file,
            In file (FixupTarget.files t)
            <-> exists l, In l (FixupTarget.changed_lines t) /\ file_path l = file).
Proof.
  intros git_blame repo_commit lines log targets log' Hrun t Ht.
  apply aggregate_inv in Hrun. destruct Hrun as (groups & _ & Hts).
  destruct (target_step_fields repo_commit groups targets Hts t Ht)
    as (c & Hc & Hm & Ha & Hf).
  split; [exists c; auto |]. rewrite Hf. split; [apply first_occurrences_NoDup |].
  intros file. rewrite first_occurrences_In, in_map_iff.
  split; intros (l & H1 & H2); exists l; auto.
Qed.

(** The targets of the example repository. *)
Lemma target_fields_example :
  exists targets log',
    aggregate example_blame example_commit example_changed_lines [] = (Ok targets, log')
    /\ forall t, In t targets ->
         (exists commit,
             example_commit (FixupTarget.commit_hash t) = Ok commit
             /\ FixupTarget.commit_message t = strip (message commit)
             /\ FixupTarget.author t = author_string commit)
         /\ NoDup (FixupTarget.files t)
         /\ (forall file,
               In file (FixupTarget.files t)
               <-> exists l, In l (FixupTarget.changed_lines t) /\ file_path l = file).
Proof.
  eexists. eexists. split; [vm_compute; reflexivity |].
  eapply (target_fields_come_from_commit_and_lines example_blame example_commit
            example_changed_lines []).
  vm_compute. reflexivity.
Defined.

Section TargetOrder.
Variable git_blame : str -> Z -> result str.
Variable repo_commit : str -> result Commit.
Hypothesis commits_found : forall h, exists c, repo_commit h = Ok c.


End TargetOrder.




(** ** ModeFilter: targets without lines, and how the modes nest *)

Lemma mode_step_raises (mode : FilterMode) (acc : list FixupTarget.t)
    (t : FixupTarget.t) (e : exn) :
  mode_step mode acc t = Raise e -> e = ZeroDivisionError.
Proof.
  unfold mode_step, truediv. destruct mode; [| | discriminate];
    destruct (_ =? 0); simpl;
    try (intros [= <-]; reflexivity);
    match goal with |- context [if ?b then _ else _] => destruct b end; discriminate.
Qed.

Lemma mode_filter_has_lines (targets kept : list FixupTarget.t) (mode : FilterMode) :
  mode <> INCLUDE_ALL ->
  _filter_targets_by_mode targets mode = Ok kept ->
  Forall has_lines targets.
Proof.
  intros Hmode Hrun. apply Forall_forall. intros t Ht Hnone.
  assert (Hloop : for_each (mode_step mode) targets [] = Ok kept).
  { destruct mode; [exact Hrun | exact Hrun | contradiction]. }
  destruct (for_each_ok_each _ _ _ _ Hloop t Ht) as (s1 & s2 & Hstep).
  rewrite (mode_step_no_lines mode s1 t Hmode Hnone) in Hstep. discriminate.
Qed.

(** X20: when a target of the list has no lines, [_filter_targets_by_mode]
    raises [ZeroDivisionError] in the two counting modes, wherever the
    target stands in the list. *)
Theorem mode_filter_divides_by_zero_on_empty_target :
  forall (targets : list FixupTarget.t) (mode : FilterMode) (t : FixupTarget.t),
    In t targets ->
    FixupTarget.changed_lines t = [] ->
    mode <> INCLUDE_ALL ->
    _filter_targets_by_mode targets mode = Raise ZeroDivisionError.
Proof.
  intros targets mode t Ht Hnone Hmode.
  destruct (_filter_targets_by_mode targets mode) as [kept | e] eqn:Hrun.
  - apply (mode_filter_has_lines _ _ _ Hmode) in Hrun.
    rewrite Forall_forall in Hrun. exfalso. apply (Hrun t Ht). exact Hnone.
  - assert (Hloop : for_each (mode_step mode) targets [] = Raise e).
    { destruct mode; [exact Hrun | exact Hrun | contradiction]. }
    apply for_each_raises in Hloop. destruct Hloop as (s1 & x & _ & Hstep).
    apply mode_step_raises in Hstep. now subst.
Qed.

(** A target without lines after a good one. *)
Lemma mode_filter_empty_target_example :
  _filter_targets_by_mode [two_of_three_likely; target_with []] SMART_DEFAULT
  = Raise ZeroDivisionError.
Proof.
  apply (mode_filter_divides_by_zero_on_empty_target
           [two_of_three_likely; target_with []] SMART_DEFAULT (target_with [])).
  - right. left. reflexivity.
  - reflexivity.
  - discriminate.
Defined.

Lemma likely_and_new_work_disjoint (ls : list ChangedLine) :
  len (filter (fun l => is_likely (classification l)) ls)
  + len (filter (fun l => is_new_work (classification l)) ls)
  <= len ls.
Proof.
  assert (Hnat : (length (filter (fun l => is_likely (classification l)) ls)
                  + length (filter (fun l => is_new_work (classification l)) ls)
                  <= length ls)%nat).
  { induction ls as [| l ls IH]; simpl; [lia |].
    destruct (classification l); simpl; lia. }
  unfold len. lia.
Qed.

Lemma keep_fixups_only_smart_default (t : FixupTarget.t) :
  has_lines t -> keep_fixups_only t = true -> keep_smart_default t = true.
Proof.
  intros Hlines. unfold keep_fixups_only, keep_smart_default, fraction_of.
  rewrite Qgeb_iff, Qltb_iff.
  pose proof (likely_and_new_work_disjoint (FixupTarget.changed_lines t)) as Hsum.
  assert (Htot : 0 < len (FixupTarget.changed_lines t)).
  { unfold has_lines in Hlines. unfold len.
    destruct (FixupTarget.changed_lines t); [contradiction | simpl; lia]. }
  assert (Hl : 0 <= len (filter (fun l => is_likely (classification l))
                           (FixupTarget.changed_lines t))) by (unfold len; lia).
  assert (Hw : 0 <= len (filter (fun l => is_new_work (classification l))
                           (FixupTarget.changed_lines t))) by (unfold len; lia).
  revert Hsum Htot Hl Hw.
  generalize (len (filter (fun l => is_likely (classification l))
                     (FixupTarget.changed_lines t))) as L.
  generalize (len (filter (fun l => is_new_work (classification l))
                     (FixupTarget.changed_lines t))) as W.
  generalize (len (FixupTarget.changed_lines t)) as T.
  intros T W L Hsum Htot Hl Hw Hhalf.
  assert (HT : (0 < inject_Z T)%Q) by (unfold Qlt; simpl; lia).
  assert (Hhalf' : (0.5 * inject_Z T <= inject_Z L)%Q).
  { apply (Qmult_le_compat_r _ _ (inject_Z T)) in Hhalf; [| apply Qlt_le_weak; exact HT].
    unfold Qdiv in Hhalf. rewrite <- Qmult_assoc in Hhalf.
    rewrite (Qmult_comm (/ inject_Z T)) in Hhalf.
    rewrite Qmult_inv_r in Hhalf; [| intros H0; rewrite H0 in HT; discriminate].
    rewrite Qmult_1_r in Hhalf. exact Hhalf. }
  apply Qlt_shift_div_r; [exact HT |].
  unfold Qle, Qmult, inject_Z in Hhalf'. unfold Qlt, Qmult, inject_Z.
  cbn [Qnum Qden] in *. lia.
Qed.

Lemma filter_filter_implied {A : Type} (p q : A -> bool) (l : list A) :
  (forall x, In x l -> p x = true -> q x = true) ->
  filter p (filter q l) = filter p l.
Proof.
  induction l as [| x l IH]; simpl; intros Himp; [reflexivity |].
  destruct (q x) eqn:Hq; simpl.
  - rewrite IH by auto. reflexivity.
  - destruct (p x) eqn:Hp.
    + rewrite (Himp x (or_introl eq_refl) Hp) in Hq. discriminate.
    + apply IH. auto.
Qed.

Lemma filter_comm {A : Type} (p q : A -> bool) (l : list A) :
  filter p (filter q l) = filter q (filter p l).
Proof.
  induction l as [| x l IH]; simpl; [reflexivity |].
  destruct (q x) eqn:Hq, (p x) eqn:Hp; simpl; rewrite ?Hq, ?Hp, IH; reflexivity.
Qed.

Lemma Forall_filter {A : Type} (P : A -> Prop) (p : A -> bool) (l : list A) :
  Forall P l -> Forall P (filter p l).
Proof.
  rewrite !Forall_forall. intros Hl x Hx. apply filter_In in Hx. apply Hl. apply Hx.
Qed.

(** X21: the modes nest.  When [FIXUPS_ONLY] returns, [SMART_DEFAULT]
    returns too and keeps every target [FIXUPS_ONLY] keeps (half of the
    lines likely leaves at most half for new work, which is below 0.7);
    and [FIXUPS_ONLY] applied to what [SMART_DEFAULT] kept gives what
    [FIXUPS_ONLY] gives on the whole list. *)
Theorem fixups_only_is_within_smart_default :
  forall (targets kept : list FixupTarget.t),
    _filter_targets_by_mode targets FIXUPS_ONLY = Ok kept ->
    exists kept',
      _filter_targets_by_mode targets SMART_DEFAULT = Ok kept'
      /\ (forall t, In t kept -> In t kept')
      /\ _filter_targets_by_mode kept' FIXUPS_ONLY = Ok kept.
Proof.
  intros targets kept Hrun.
  assert (Hlines : Forall has_lines targets).
  { apply (mode_filter_has_lines targets kept FIXUPS_ONLY); [discriminate | exact Hrun]. }
  rewrite (filter_mode_ok targets FIXUPS_ONLY Hlines) in Hrun. injection Hrun as <-.
  exists (filter keep_smart_default targets).
  split; [apply (filter_mode_ok targets SMART_DEFAULT Hlines) |].
  rewrite Forall_forall in Hlines. split.
  - intros t Ht. apply filter_In in Ht. destruct Ht as [Ht Hkeep].
    apply filter_In. split; [exact Ht |].
    apply keep_fixups_only_smart_default; auto.
  - rewrite (filter_mode_ok _ FIXUPS_ONLY)
      by (apply Forall_filter; apply Forall_forall; exact Hlines).
    f_equal. apply filter_filter_implied.
    intros t Ht. apply keep_fixups_only_smart_default; auto.
Qed.

(** The two targets of C5's example. *)
Lemma fixups_only_within_smart_default_example :
  exists kept',
    _filter_targets_by_mode [seven_of_ten_unlikely; two_of_three_likely] SMART_DEFAULT
    = Ok kept'
    /\ (forall t, In t [two_of_three_likely] -> In t kept')
    /\ _filter_targets_by_mode kept' FIXUPS_ONLY = Ok [two_of_three_likely].
Proof.
  apply (fixups_only_is_within_smart_default
           [seven_of_ten_unlikely; two_of_three_likely] [two_of_three_likely]).
  vm_compute. reflexivity.
Defined.

Section OrganizationRuns.
Context {U : UnicodeDB}.
Variable Pattern : Type.
Variable re_compile_ignorecase : str -> option Pattern.
Variable pattern_search : Pattern -> str -> bool.

Lemma organization_filter_run (targets : list FixupTarget.t) (p : str)
    (pattern : Pattern) :
  re_compile_ignorecase p = Some pattern ->
  filter_targets_by_organization Pattern re_compile_ignorecase pattern_search targets p
  = Ok (filter (fun t => author_matches Pattern pattern_search pattern
                           (FixupTarget.author t)) targets).
Proof.
  intros Hp. unfold filter_targets_by_organization. rewrite Hp.
  rewrite (for_each_filter
             (fun t => author_matches Pattern pattern_search pattern
                         (FixupTarget.author t)));
    [reflexivity |].
  intros acc t _. unfold author_matches.
  destruct (_extract_email_from_author (FixupTarget.author t)) as [email |];
    [destruct (truthy email && pattern_search pattern email) |]; reflexivity.
Qed.

End OrganizationRuns.

(** X22: the mode filter and the organization filter commute: when both
    return on a list of targets, filtering by organization what the mode
    filter kept and filtering by mode what the organization filter kept
    return the same list. *)
Theorem mode_and_organization_filters_commute :
  forall (U : UnicodeDB) (Pattern : Type)
         (re_compile_ignorecase : str -> option Pattern)
         (pattern_search : Pattern -> str -> bool)
         (targets by_mode by_org : list FixupTarget.t)
         (mode : FilterMode) (org_email_pattern : str),
    _filter_targets_by_mode targets mode = Ok by_mode ->
    filter_targets_by_organization Pattern re_compile_ignorecase pattern_search
      targets org_email_pattern = Ok by_org ->
    exists both,
      filter_targets_by_organization Pattern re_compile_ignorecase pattern_search
        by_mode org_email_pattern = Ok both
      /\ _filter_targets_by_mode by_org mode = Ok both.
Proof.
  intros U Pattern compile psearch targets by_mode by_org mode p Hmode Horg.
  destruct (compile p) as [pattern |] eqn:Hp;
    [| unfold filter_targets_by_organization in Horg; rewrite Hp in Horg; discriminate].
  rewrite (organization_filter_run Pattern compile psearch _ _ _ Hp) in Horg.
  injection Horg as <-.
  rewrite (organization_filter_run Pattern compile psearch _ _ _ Hp).
  eexists. split; [reflexivity |].
  destruct mode.
  - assert (Hlines : Forall has_lines targets).
    { apply (mode_filter_has_lines targets by_mode SMART_DEFAULT);
        [discriminate | exact Hmode]. }
    rewrite (filter_mode_ok targets SMART_DEFAULT Hlines) in Hmode.
    injection Hmode as <-.
    rewrite (filter_mode_ok _ SMART_DEFAULT) by (apply Forall_filter; exact Hlines).
    f_equal. apply filter_comm.
  - assert (Hlines : Forall has_lines targets).
    { apply (mode_filter_has_lines targets by_mode FIXUPS_ONLY);
        [discriminate | exact Hmode]. }
    rewrite (filter_mode_ok targets FIXUPS_ONLY Hlines) in Hmode.
    injection Hmode as <-.
    rewrite (filter_mode_ok _ FIXUPS_ONLY) by (apply Forall_filter; exact Hlines).
    f_equal. apply filter_comm.
  - simpl in Hmode. injection Hmode as <-. reflexivity.
Qed.

(** Both targets are by an author at example.com; [SMART_DEFAULT] keeps
    the second. *)
Lemma mode_and_organization_filters_example :
  exists both,
    @filter_targets_by_organization latin1 Re.regex compile_example search_example
      [two_of_three_likely] (u ".*@example\.com") = Ok both
    /\ _filter_targets_by_mode [seven_of_ten_unlikely; two_of_three_likely] SMART_DEFAULT
       = Ok both.
Proof.
  apply (mode_and_organization_filters_commute latin1 Re.regex compile_example
           search_example [seven_of_ten_unlikely; two_of_three_likely]
           [two_of_three_likely] [seven_of_ten_unlikely; two_of_three_likely]
           SMART_DEFAULT (u ".*@example\.com")).
  - vm_compute. reflexivity.
  - vm_compute. reflexivity.
Defined.

(** ** OrganizationFilter: the author string of a commit gives back its email *)

Section EmailRoundTrip.
Import Re.
Context {U : UnicodeDB}.

(** A greedy repetition of a one-character test stops at the first
    character that fails it, when the continuation accepts there. *)
Lemma star_loop_stops (p : N -> bool)
    (body : mstate -> (mstate -> option mstate) -> option mstate)
    (k : mstate -> option mstate) (Q : mstate -> Prop) (c0 : N) (tail : str) :
  (forall st k', body st k' = eat p st k') ->
  p c0 = false ->
  forall taken st fuel,
    rest st = taken ++ c0 :: tail ->
    Forall (fun c => p c = true) taken ->
    (length taken <= fuel)%nat ->
    (forall before,
        exists m,
          k {| pos := pos st + length taken; prev := before;
               rest := c0 :: tail; caps := caps st |} = Some m /\ Q m) ->
    exists m, star_loop body k fuel st = Some m /\ Q m.
Proof.
  intros Hbody Hc0. induction taken as [| c taken IH]; intros st fuel Hrest Hall Hfuel Hk.
  - destruct (Hk (prev st)) as (m & Hm & HQ). exists m. split; [| exact HQ].
    simpl in Hm. rewrite Nat.add_0_r in Hm.
    assert (Hst : {| pos := pos st; prev := prev st; rest := c0 :: tail;
                     caps := caps st |} = st).
    { destruct st as [ps pv rs cs]. simpl in *. subst rs. reflexivity. }
    rewrite Hst in Hm.
    destruct fuel as [| fuel]; simpl; [exact Hm |].
    rewrite Hbody. unfold eat. rewrite Hrest. simpl. rewrite Hc0. exact Hm.
  - destruct fuel as [| fuel]; simpl in Hfuel; [lia |].
    inversion Hall as [| ? ? Hc Hall']; subst.
    destruct (IH {| pos := S (pos st); prev := Some c; rest := taken ++ c0 :: tail;
                    caps := caps st |} fuel eq_refl Hall' ltac:(lia))
      as (m & Hm & HQ).
    { intros before. specialize (Hk before). simpl in *.
      rewrite Nat.add_succ_r in Hk. exact Hk. }
    exists m. split; [| exact HQ].
    simpl. rewrite Hbody. unfold eat. rewrite Hrest. simpl. rewrite Hc.
    simpl. replace (pos st <? S (pos st))%nat with true
      by (symmetry; apply Nat.ltb_lt; lia).
    rewrite Hm. reflexivity.
Qed.

Lemma run_bracketed_email (st : mstate) (k : mstate -> option mstate) :
  run bracketed_email st k
  = eat (fun c => N.eqb c 60) st
      (fun st1 =>
         eat (fun c => negb (existsb (fun i => item_matches i c) [Lit (ch ">")])) st1
           (fun st2 =>
              star_loop (run (NoneOf [Lit (ch ">")]))
                (fun st3 =>
                   eat (fun c => N.eqb c 62)
                     {| pos := pos st3; prev := prev st3; rest := rest st3;
                        caps := (1%nat, (pos st1, pos st3)) :: caps st3 |} k)
                (length (rest st2)) st2)).
Proof. reflexivity. Qed.

(** Before the first ['<'] the bracket pattern matches nowhere. *)
Lemma bracket_search_skips (subject : str) (w : str) :
  forall (p : nat) (before : option N) (tail : str),
    ~ In 60%N w ->
    exists before',
      search_from bracketed_email subject p before (w ++ tail)
      = search_from bracketed_email subject (p + length w) before' tail.
Proof.
  induction w as [| c w IH]; intros p before tail Hnot.
  - exists before. simpl. rewrite Nat.add_0_r. reflexivity.
  - destruct (IH (S p) (Some c) tail) as (before' & Hskip).
    { intros Hin. apply Hnot. right. exact Hin. }
    exists before'.
    replace (p + length (c :: w))%nat with (S p + length w)%nat by (simpl; lia).
    rewrite <- Hskip. simpl app. rewrite search_from_eq.
    assert (Hc : (c =? 60)%N = false).
    { apply N.eqb_neq. intros ->. apply Hnot. left. reflexivity. }
    rewrite run_bracketed_email. unfold eat at 1. cbn [rest]. rewrite Hc.
    reflexivity.
Qed.

Lemma bracket_match_here (st : mstate) (email tail : str) :
  rest st = 60%N :: email ++ 62%N :: tail ->
  caps st = [] ->
  email <> [] ->
  ~ In 62%N email ->
  exists m,
    run bracketed_email st Some = Some m
    /\ caps m = [(1%nat, (S (pos st), S (pos st) + length email)%nat)].
Proof.
  intros Hrest Hcaps Hne Hnot.
  destruct email as [| e email]; [contradiction |].
  assert (He : negb (e =? 62)%N = true).
  { apply negb_true_iff, N.eqb_neq. intros ->. apply Hnot. left. reflexivity. }
  assert (Hall : Forall (fun c => negb (existsb (fun i => item_matches i c) [Lit (ch ">")])
                                  = true) email).
  { apply Forall_forall. intros c Hc. simpl. rewrite orb_false_r.
    apply negb_true_iff, N.eqb_neq. intros ->. apply Hnot. right. exact Hc. }
  rewrite run_bracketed_email. unfold eat at 1. rewrite Hrest, N.eqb_refl.
  unfold eat at 1. cbn [rest app].
  replace (negb (existsb (fun i => item_matches i e) [Lit (ch ">")])) with true
    by (symmetry; simpl; rewrite orb_false_r; exact He).
  apply (star_loop_stops
           (fun c => negb (existsb (fun i => item_matches i c) [Lit (ch ">")]))
           _ _ _ 62%N tail) with (taken := email).
  - reflexivity.
  - reflexivity.
  - reflexivity.
  - exact Hall.
  - simpl. rewrite length_app. lia.
  - intros before. simpl. eexists. split; [reflexivity |]. simpl.
    rewrite Hcaps. repeat f_equal. lia.
Qed.

(** The first bracketed part of an author string is what is extracted. *)
Lemma extract_first_bracketed (w email tail : str) :
  ~ In 60%N w ->
  email <> [] ->
  ~ In 62%N email ->
  _extract_email_from_author (w ++ 60%N :: email ++ 62%N :: tail) = Some email.
Proof.
  intros Hw Hne Hemail. unfold _extract_email_from_author, search.
  destruct (bracket_search_skips (w ++ 60%N :: email ++ 62%N :: tail) w 0 None
              (60%N :: email ++ 62%N :: tail) Hw) as (before & ->).
  rewrite search_from_eq.
  destruct (bracket_match_here
              {| pos := 0 + length w; prev := before;
                 rest := 60%N :: email ++ 62%N :: tail; caps := [] |}
              email tail eq_refl eq_refl Hne Hemail)
    as (m & -> & Hcaps).
  unfold group. cbn [m_caps m_subject]. rewrite Hcaps.
  cbn [lookup_cap Nat.eqb pos]. unfold slice. f_equal.
  replace (S (0 + length w)) with (length (w ++ [60%N]))
    by (rewrite length_app; simpl; lia).
  replace (w ++ 60%N :: email ++ 62%N :: tail)
    with ((w ++ [60%N]) ++ email ++ 62%N :: tail)
    by (rewrite <- app_assoc; reflexivity).
  rewrite skipn_app, skipn_all, Nat.sub_diag. cbn [skipn app].
  replace (length (w ++ [60%N]) + length email - length (w ++ [60%N]))%nat
    with (length email) by lia.
  rewrite firstn_app, firstn_all, Nat.sub_diag. cbn [firstn]. apply app_nil_r.
Qed.

End EmailRoundTrip.

(** X23: the author string built from a commit, ["name <email>"], gives
    back the email: when the name has no ['<'] and the email is not empty
    and has no ['>'], [_extract_email_from_author] returns the commit's
    email. *)
Theorem author_string_gives_back_the_email :
  forall (U : UnicodeDB) (commit : Commit),
    ~ In 60%N (author_name commit) ->
    author_email commit <> [] ->
    ~ In 62%N (author_email commit) ->
    _extract_email_from_author (author_string commit) = Some (author_email commit).
Proof.
  intros U commit Hname Hne Hemail.
  replace (author_string commit)
    with ((author_name commit ++ [32%N]) ++ 60%N :: author_email commit ++ 62%N :: [])
    by (unfold author_string; rewrite <- app_assoc; reflexivity).
  apply extract_first_bracketed; [| exact Hne | exact Hemail].
  intros Hin. apply in_app_or in Hin.
  destruct Hin as [Hin | [Hin | []]]; [contradiction | discriminate].
Qed.

(** Jane Doe. *)
Lemma author_string_example :
  @_extract_email_from_author latin1 (author_string jane) = Some (u "jane@example.com").
Proof.
  apply (author_string_gives_back_the_email latin1 jane).
  - vm_compute. intuition discriminate.
  - discriminate.
  - vm_compute. intuition discriminate.
Defined.

(** ** Discovery: the limit, and a working tree without changes *)

(** X24: when [git rev-list] fails, in whatever way, the limit step raises
    [ValueError].  When it answers, the step returns, in order, the targets
    whose commit hash agrees in its first seven characters with the limit
    as it was given or with a non-empty line of the answer.  The limit is
    compared as written: when it has fewer than seven characters, a target
    whose hash has seven or more is kept only for a line of the answer, so
    the target of the limit commit itself may be dropped. *)
Theorem limit_compares_seven_character_prefixes :
  forall (git_rev_list : str -> result str) (targets : list FixupTarget.t)
         (limit_sha : str),
    match git_rev_list (limit_sha ++ u "...HEAD") with
    | Ok out =>
        exists keep,
          limit_targets git_rev_list targets limit_sha = Ok (filter keep targets)
          /\ (forall t, keep t = true <-> within_limit out limit_sha t)
          /\ ((length limit_sha < 7)%nat ->
              forall t,
                (7 <= length (FixupTarget.commit_hash t))%nat ->
                (keep t = true
                 <-> exists c, In c (split_on 10 out) /\ c <> []
                               /\ prefix 7 (FixupTarget.commit_hash t) = prefix 7 c))
    | Raise _ => limit_targets git_rev_list targets limit_sha = Raise ValueError
    end.
Proof.
  intros git_rev_list targets sha. unfold limit_targets.
  destruct (git_rev_list (sha ++ u "...HEAD")) as [out | e]; [| reflexivity].
  eexists. split; [reflexivity |].
  assert (Hkeep : forall t,
             existsb (str_eqb (prefix 7 (FixupTarget.commit_hash t)))
               (map (prefix 7) (filter truthy (split_on 10 out)) ++ [prefix 7 sha])
             = true <-> within_limit out sha t).
  { intros t. rewrite existsb_exists. unfold within_limit. split.
    - intros (x & Hx & Heq). apply str_eqb_eq in Heq.
      apply in_app_or in Hx. destruct Hx as [Hx | [<- | []]].
      + right. apply in_map_iff in Hx. destruct Hx as (c & <- & Hc).
        apply filter_In in Hc. destruct Hc as [Hc Htruthy].
        exists c. repeat split; [exact Hc | | exact Heq].
        intros ->. discriminate.
      + left. exact Heq.
    - intros [Heq | (c & Hc & Hne & Heq)].
      + exists (prefix 7 sha). split; [| apply str_eqb_eq; exact Heq].
        apply in_or_app. right. left. reflexivity.
      + exists (prefix 7 c). split; [| apply str_eqb_eq; exact Heq].
        apply in_or_app. left. apply in_map. apply filter_In.
        split; [exact Hc |]. destruct c; [contradiction | reflexivity]. }
  split; [exact Hkeep |].
  intros Hshort t Hlong. cbv beta. rewrite Hkeep. unfold within_limit.
  split; [| intros Hline; right; exact Hline].
  intros [Heq | Hline]; [| exact Hline].
  apply (f_equal (@length N)) in Heq. unfold prefix in Heq.
  rewrite !length_firstn in Heq. lia.
Qed.

(** The limit [abc12] and a target of commit [abc1234def], when no commit
    comes after the limit: the target is dropped. *)
Lemma short_limit_drops_its_commit :
  limit_targets (fun range => Ok []) [target_of_commit "abc1234def"] (u "abc12")
  = Ok [].
Proof. vm_compute. reflexivity. Qed.

(** X25: when both diffs are empty, [find_fixup_targets] returns no target
    and asks nothing of blame, in every mode; with a limit it still asks
    [git rev-list], and raises [ValueError] when that fails. *)
Theorem no_changes_no_targets :
  forall (U : UnicodeDB) (ratio : str -> str -> Q)
         (git_diff git_show : str -> result str) (commit_age : str -> result Z)
         (git_blame : str -> Z -> result str) (repo_commit : str -> result Commit)
         (git_rev_list : str -> result str) (filter_mode : FilterMode)
         (log : list query),
    git_diff (u "HEAD") = Ok [] ->
    git_diff (u "--cached") = Ok [] ->
    find_fixup_targets ratio git_diff git_show commit_age git_blame repo_commit
      git_rev_list filter_mode None log = (Ok [], log)
    /\ forall limit_sha,
         limit_sha <> [] ->
         find_fixup_targets ratio git_diff git_show commit_age git_blame repo_commit
           git_rev_list filter_mode (Some limit_sha) log
         = (match git_rev_list (limit_sha ++ u "...HEAD") with
            | Ok _ => Ok []
            | Raise _ => Raise ValueError
            end, log).
Proof.
  intros U ratio git_diff git_show commit_age git_blame repo_commit git_rev_list
         mode log Hhead Hcached.
  assert (Hlines : get_changed_lines ratio git_diff git_show commit_age = Ok []).
  { unfold get_changed_lines. rewrite Hhead. simpl. rewrite Hcached. reflexivity. }
  unfold find_fixup_targets, gbind, glift. rewrite Hlines.
  split.
  - destruct mode; reflexivity.
  - intros sha Hsha. destruct sha as [| c sha]; [contradiction |].
    assert (Hmode : _filter_targets_by_mode [] mode = Ok [])
      by (destruct mode; reflexivity).
    simpl aggregate. cbv beta iota. unfold aggregate, gbind, glift. simpl.
    rewrite Hmode. simpl. unfold limit_targets.
    destruct (git_rev_list _); reflexivity.
Qed.

(** A clean working tree in the example repository, whose [rev-list]
    fails. *)
Lemma no_changes_no_targets_example :
  @find_fixup_targets latin1 Difflib.ratio clean_tree git_show_answering
    no_commit_age example_blame example_commit example_rev_list
    SMART_DEFAULT None [] = (Ok [], [])
  /\ forall limit_sha,
       limit_sha <> [] ->
       @find_fixup_targets latin1 Difflib.ratio clean_tree git_show_answering
         no_commit_age example_blame example_commit example_rev_list
         SMART_DEFAULT (Some limit_sha) []
       = (match example_rev_list (limit_sha ++ u "...HEAD") with
          | Ok _ => Ok []
          | Raise _ => Raise ValueError
          end, []).
Proof.
  apply (no_changes_no_targets latin1 Difflib.ratio clean_tree git_show_answering
           no_commit_age example_blame example_commit example_rev_list
           SMART_DEFAULT []); reflexivity.
Defined.

(** ** Discovery: what [find_fixup_targets] returns *)

(** Filtering keeps the keys of a list distinct. *)
Lemma keys_stay_distinct {A B : Type} (key : A -> B) (keep : A -> bool) :
  forall xs : list A,
    NoDup (map key xs) -> NoDup (map key (filter keep xs)).
Proof.
  intros xs Hxs. induction xs as [| x xs IH]; [exact Hxs |].
  apply NoDup_cons_iff in Hxs. destruct Hxs as [Hfresh Hrest].
  simpl. destruct (keep x); [| exact (IH Hrest)].
  simpl. apply NoDup_cons; [| exact (IH Hrest)].
  rewrite in_map_iff. intros (y & Hkey & Hy).
  apply filter_In in Hy. apply Hfresh. rewrite <- Hkey.
  apply in_map. apply Hy.
Qed.

Lemma dict_append_members {A : Type} (d : list (str * list A)) (h : str) (x : A)
    (k : str) (ls : list A) :
  In (k, ls) (dict_append h x d) ->
  In (k, ls) d \/ exists ls0, In (k, ls0) d /\ ls = ls0 ++ [x].
Proof.
  induction d as [| [k' v] d IH]; simpl; [tauto |].
  destruct (str_eqb h k'); simpl.
  - intros [[= <- <-] | Hin]; [right; exists v; auto | auto].
  - intros [Heq | Hin]; [auto |].
    destruct (IH Hin) as [Hd | (ls0 & Hd & ->)]; [auto | right; exists ls0; auto].
Qed.

Lemma dict_set_members {A : Type} (d : list (str * list A)) (h : str)
    (k : str) (ls : list A) :
  In (k, ls) (dict_set h [] d) -> In (k, ls) d \/ ls = [].
Proof.
  induction d as [| [k' v] d IH]; simpl.
  - intros [[= <- <-] | []]. auto.
  - destruct (str_eqb h k'); simpl.
    + intros [[= <- <-] | Hin]; auto.
    + intros [Heq | Hin]; [auto |]. destruct (IH Hin); auto.
Qed.

(** The members of a group after [group_append]: the new element, or a
    member of a group there was. *)
Lemma group_append_members {A : Type} (d : list (str * list A)) (h : str) (x : A)
    (k : str) (ls : list A) (l : A) :
  In (k, ls) (group_append h x d) -> In l ls ->
  l = x \/ exists ls0, In (k, ls0) d /\ In l ls0.
Proof.
  unfold group_append. intros Hin Hl.
  apply dict_append_members in Hin.
  destruct (negb (dict_contains h d)).
  - destruct Hin as [Hin | (ls0 & Hin & ->)].
    + apply dict_set_members in Hin. destruct Hin as [Hin | ->]; [eauto | destruct Hl].
    + apply in_app_or in Hl. destruct Hl as [Hl | [<- | []]]; [| auto].
      apply dict_set_members in Hin. destruct Hin as [Hin | ->]; [eauto | destruct Hl].
  - destruct Hin as [Hin | (ls0 & Hin & ->)]; [eauto |].
    apply in_app_or in Hl. destruct Hl as [Hl | [<- | []]]; eauto.
Qed.

Section DiscoveredTargets.
Variable git_blame : str -> Z -> result str.
Variable repo_commit : str -> result Commit.

Lemma group_step_from_input (lines : list ChangedLine) groups l log groups' log' :
  In l lines ->
  (forall k ls x, In (k, ls) groups -> In x ls -> In x lines) ->
  group_step git_blame repo_commit groups l log = (Ok groups', log') ->
  forall k ls x, In (k, ls) groups' -> In x ls -> In x lines.
Proof.
  intros Hl Hg. unfold group_step, gbind, gret.
  assert (Happ : forall h k ls x,
             In (k, ls) (group_append h l groups) -> In x ls -> In x lines).
  { intros h k ls x Hin Hx.
    destruct (group_append_members groups h l k ls x Hin Hx) as [-> | (ls0 & Hin0 & Hx0)];
      [exact Hl | eapply Hg; eauto]. }
  destruct (str_eqb (change_type l) deleted || str_eqb (change_type l) modified).
  - destruct (get_blame_info git_blame repo_commit (file_path l) (line_number l) log)
      as [[[b |] | e] log1];
      intros [= <- _]; [apply Happ | exact Hg].
  - destruct (str_eqb (change_type l) added).
    + destruct (_find_context_commits git_blame repo_commit (file_path l)
                  (line_number l) log)
        as [[[| h hs] | e] log1];
        intros [= <- _]; [exact Hg | apply Happ].
    + intros [= <- _]. exact Hg.
Qed.

Lemma gfor_each_invariant_in {A S : Type} (body : S -> A -> Git S) (I : S -> Prop)
    (l : list A) :
  (forall s x log s' log', In x l -> I s -> body s x log = (Ok s', log') -> I s') ->
  forall s log s' log', I s -> gfor_each body l s log = (Ok s', log') -> I s'.
Proof.
  induction l as [| x l IH]; intros Hbody s log s' log' Hs; simpl.
  - unfold gret. intros [= <- _]. exact Hs.
  - unfold gbind. destruct (body s x log) as [[s1 | e] log1] eqn:Hstep;
      [| discriminate].
    apply IH.
    + intros s0 y lg s0' lg' Hy. apply Hbody. right. exact Hy.
    + eapply Hbody; [left; reflexivity | exact Hs | exact Hstep].
Qed.

Lemma group_by_commit_from_input lines log groups log' :
  group_by_commit git_blame repo_commit lines log = (Ok groups, log') ->
  forall k ls x, In (k, ls) groups -> In x ls -> In x lines.
Proof.
  unfold group_by_commit. intros Hrun.
  refine (gfor_each_invariant_in (group_step git_blame repo_commit)
            (fun g => forall k ls x, In (k, ls) g -> In x ls -> In x lines)
            lines _ [] log groups log' _ Hrun).
  - intros s x lg s' lg' Hx Hs Hstep.
    exact (group_step_from_input lines s x lg s' lg' Hx Hs Hstep).
  - intros k ls x [].
Qed.

Lemma aggregate_from_input lines log targets log' :
  aggregate git_blame repo_commit lines log = (Ok targets, log') ->
  forall t l, In t targets -> In l (FixupTarget.changed_lines t) -> In l lines.
Proof.
  intros Hrun t l Ht Hl. apply aggregate_inv in Hrun.
  destruct Hrun as (groups & Hg & Hts).
  eapply (group_by_commit_from_input lines log groups log' Hg).
  - exact (targets_from_groups repo_commit groups targets Hts t Ht).
  - exact Hl.
Qed.

End DiscoveredTargets.

(** X26: when [find_fixup_targets] returns, in whatever mode and with or
    without a limit, [get_changed_lines] has returned; the targets have
    pairwise distinct commit hashes; each target has at least one line, and
    each of its lines is one of the lines [get_changed_lines] returned. *)
Theorem discovered_targets_are_well_formed :
  forall (U : UnicodeDB) (ratio : str -> str -> Q)
         (git_diff git_show : str -> result str) (commit_age : str -> result Z)
         (git_blame : str -> Z -> result str) (repo_commit : str -> result Commit)
         (git_rev_list : str -> result str) (filter_mode : FilterMode)
         (limit_sha : option str) (log log' : list query)
         (targets : list FixupTarget.t),
    find_fixup_targets ratio git_diff git_show commit_age git_blame repo_commit
      git_rev_list filter_mode limit_sha log = (Ok targets, log') ->
    exists lines,
      get_changed_lines ratio git_diff git_show commit_age = Ok lines
      /\ NoDup (map FixupTarget.commit_hash targets)
      /\ forall t, In t targets ->
           FixupTarget.changed_lines t <> []
           /\ forall l, In l (FixupTarget.changed_lines t) -> In l lines.
Proof.
  intros U ratio git_diff git_show commit_age git_blame repo_commit git_rev_list
         mode limit log log' targets.
  unfold find_fixup_targets, gbind, glift.
  destruct (get_changed_lines ratio git_diff git_show commit_age) as [lines |];
    [| discriminate].
  destruct (aggregate git_blame repo_commit lines log) as [[all | e] log1] eqn:Hagg;
    [| discriminate].
  pose proof (aggregate_has_lines _ _ _ _ _ _ Hagg) as Hlines.
  pose proof (aggregate_from_input _ _ _ _ _ _ Hagg) as Hfrom.
  assert (Hdistinct : NoDup (map FixupTarget.commit_hash all)).
  { apply aggregate_inv in Hagg. destruct Hagg as (groups & Hg & Hts).
    apply group_by_commit_keys in Hg.
    apply (target_loop_distinct repo_commit groups [] all Hg); auto. constructor. }
  rewrite (filter_mode_ok all mode Hlines).
  set (kept := match mode with
               | SMART_DEFAULT => filter keep_smart_default all
               | FIXUPS_ONLY => filter keep_fixups_only all
               | INCLUDE_ALL => all
               end).
  assert (Hkept : exists keep, kept = filter keep all).
  { destruct mode; [eexists; reflexivity | eexists; reflexivity |].
    exists (fun _ => true). unfold kept. clear. induction all; simpl; congruence. }
  destruct Hkept as (keep & Hkept).
  assert (Hfinal : forall keep',
             targets = filter keep' kept ->
             exists lines0,
               Ok lines = Ok lines0
               /\ NoDup (map FixupTarget.commit_hash targets)
               /\ forall t, In t targets ->
                    FixupTarget.changed_lines t <> []
                    /\ forall l, In l (FixupTarget.changed_lines t) -> In l lines0).
  { intros keep' ->. exists lines. split; [reflexivity |]. split.
    - rewrite Hkept. apply keys_stay_distinct, keys_stay_distinct. exact Hdistinct.
    - intros t Ht. apply filter_In in Ht. destruct Ht as [Ht _].
      rewrite Hkept in Ht. apply filter_In in Ht. destruct Ht as [Ht _].
      rewrite Forall_forall in Hlines. split; [exact (Hlines t Ht) |].
      intros l Hl. exact (Hfrom t l Ht Hl). }
  assert (Hsame : kept = filter (fun _ => true) kept).
  { clear. induction kept; simpl; congruence. }
  destruct limit as [sha |].
  - destruct (truthy sha).
    + unfold limit_targets. destruct (git_rev_list _); [| discriminate].
      intros [= <- _]. eapply Hfinal. reflexivity.
    + unfold gret. intros [= <- _]. apply (Hfinal (fun _ => true)). exact Hsame.
  - unfold gret. intros [= <- _]. apply (Hfinal (fun _ => true)). exact Hsame.
Qed.

(** The end-to-end scenario. *)
Lemma discovered_targets_example :
  exists lines,
    @get_changed_lines latin1 Difflib.ratio example_diff git_show_answering
      no_commit_age = Ok lines
    /\ NoDup (map FixupTarget.commit_hash
                [ {| FixupTarget.commit_hash := u "abc123";
                     FixupTarget.commit_message := u "Add greeting";
                     FixupTarget.author := u "Jane Doe <jane@example.com>";
                     FixupTarget.changed_lines :=
                       [new_ChangedLine (u "a.txt") 5 (u "hello world") modified];
                     FixupTarget.files := [u "a.txt"] |} ])
    /\ forall t,
         In t [ {| FixupTarget.commit_hash := u "abc123";
                   FixupTarget.commit_message := u "Add greeting";
                   FixupTarget.author := u "Jane Doe <jane@example.com>";
                   FixupTarget.changed_lines :=
                     [new_ChangedLine (u "a.txt") 5 (u "hello world") modified];
                   FixupTarget.files := [u "a.txt"] |} ] ->
         FixupTarget.changed_lines t <> []
         /\ forall l, In l (FixupTarget.changed_lines t) -> In l lines.
Proof.
  apply (discovered_targets_are_well_formed latin1 Difflib.ratio example_diff
           git_show_answering no_commit_age example_blame example_commit
           example_rev_list SMART_DEFAULT None [] [(u "a.txt", 5)]).
  vm_compute. reflexivity.
Defined.

(** ** FixupCreator: the selection a user types *)

Lemma In_int_set_add (i x : Z) (s : list Z) :
  In i (int_set_add x s) <-> i = x \/ In i s.
Proof.
  unfold int_set_add. destruct (existsb (Z.eqb x) s) eqn:Hin.
  - apply existsb_exists in Hin. destruct Hin as (y & Hy & Hxy).
    apply Z.eqb_eq in Hxy. subst y. split; [auto | intros [-> | Hi]; auto].
  - rewrite in_app_iff. simpl. intuition auto.
Qed.

Lemma In_int_set_update (i : Z) (xs s : list Z) :
  In i (int_set_update xs s) <-> In i xs \/ In i s.
Proof.
  unfold int_set_update. revert s.
  induction xs as [| x xs IH]; intros s; simpl; [tauto |].
  rewrite IH, In_int_set_add. intuition auto.
Qed.

Lemma In_range (i lo hi : Z) : In i (range lo hi) <-> lo <= i < hi.
Proof.
  unfold range. rewrite in_map_iff. split.
  - intros (k & <- & Hk). apply in_seq in Hk. lia.
  - intros Hi. exists (Z.to_nat (i - lo)). split; [lia |].
    apply in_seq. lia.
Qed.

Section SelectionFacts.
Context {U : UnicodeDB}.

Lemma selection_step_In (max_index i : Z) (selected : list Z) (part : str) :
  In i (selection_step max_index selected part)
  <-> In i selected \/ In i (selection_step max_index [] part).
Proof.
  unfold selection_step.
  repeat match goal with
         | |- context [if ?b then _ else _] => destruct b
         | |- context [match ?o with Some _ => _ | None => _ end] => destruct o
         | |- context [match ?l with [] => _ | _ :: _ => _ end] => destruct l
         end;
    rewrite ?In_int_set_update, ?In_int_set_add; simpl; tauto.
Qed.

Lemma selection_step_bounds (max_index i : Z) (part : str) :
  In i (selection_step max_index [] part) -> 1 <= i <= max_index.
Proof.
  unfold selection_step.
  repeat match goal with
         | |- context [if ?b then _ else _] => destruct b eqn:?
         | |- context [match ?o with Some _ => _ | None => _ end] => destruct o
         | |- context [match ?l with [] => _ | _ :: _ => _ end] => destruct l
         end;
    rewrite ?In_int_set_update, ?In_int_set_add, ?In_range; simpl;
    try tauto;
    repeat match goal with
           | Hb : (_ && _) = true |- _ => apply andb_true_iff in Hb; destruct Hb
           | Hb : (_ <=? _) = true |- _ => apply Z.leb_le in Hb
           end; lia.
Qed.

Lemma selection_loop_In (max_index i : Z) (parts : list str) :
  forall selected,
    In i (fold_left (selection_step max_index) parts selected)
    <-> In i selected
        \/ exists part, In part parts /\ In i (selection_step max_index [] part).
Proof.
  induction parts as [| part parts IH]; intros selected; simpl.
  - split; [auto | intros [Hi | (part & [] & _)]; exact Hi].
  - rewrite IH, selection_step_In. split.
    + intros [[Hi | Hi] | (p & Hp & Hi)]; eauto.
    + intros [Hi | (p & [<- | Hp] & Hi)]; eauto.
Qed.

End SelectionFacts.

(** X27: every index [_parse_selection] returns is between 1 and
    [max_index], whatever is typed; so the look-up [targets[i - 1]] made
    for a selected index never leaves the list. *)
Theorem parse_selection_within_bounds :
  forall (U : UnicodeDB) (response : str) (max_index i : Z),
    In i (_parse_selection response max_index) -> 1 <= i <= max_index.
Proof.
  intros U response max_index i Hi. unfold _parse_selection in Hi.
  apply selection_loop_In in Hi. destruct Hi as [[] | (part & _ & Hi)].
  exact (selection_step_bounds max_index i part Hi).
Qed.

(** Numbers and ranges, some of them out of range or not numbers, for six
    targets. *)
Lemma parse_selection_within_bounds_example :
  @_parse_selection latin1 (u "1, 3-5 ,9, 2-1, x, 0, -3, 1-2-3") 6 = [1; 3; 4; 5]
  /\ 1 <= 4 <= 6.
Proof.
  split; [vm_compute; reflexivity |].
  apply (parse_selection_within_bounds latin1
           (u "1, 3-5 ,9, 2-1, x, 0, -3, 1-2-3") 6 4).
  vm_compute. tauto.
Defined.

(** X28: the parts of a selection separated by a comma are read
    independently: an index is selected by ["first,rest"] when and only
    when it is selected by ["first"] or by ["rest"]. *)
Theorem parse_selection_parts_are_independent :
  forall (U : UnicodeDB) (first rest : str) (max_index i : Z),
    In i (_parse_selection (first ++ u "," ++ rest) max_index)
    <-> In i (_parse_selection first max_index)
        \/ In i (_parse_selection rest max_index).
Proof.
  intros U first rest max_index i. unfold _parse_selection.
  change (u ",") with [44%N]. change (ch ",") with 44%N. change (ch " ") with 32%N.
  simpl app. rewrite filter_app. simpl filter.
  rewrite split_on_app, fold_left_app.
  rewrite (selection_loop_In max_index i _ (fold_left _ _ [])).
  rewrite (selection_loop_In max_index i
             (split_on 44 (filter (fun c => negb (c =? 32)%N) rest)) []).
  simpl In. tauto.
Qed.

(** ** FixupCreator: one decision for each hunk *)

Section HunkFacts.
Context {U : UnicodeDB}.

(** The decisions made so far, the open hunk included. *)
#[local] Abbreviation decided st :=
  (length (hunks_to_accept st) + (if in_hunk st then 1 else 0))%nat.

Lemma hunk_line_counts (target_lines : list Z) (st st' : hunk_scan) (line : str) :
  hunk_line target_lines st line = Ok st' ->
  decided st' = (decided st + (if startswith (u "@@") line then 1 else 0))%nat.
Proof.
  unfold hunk_line. destruct (startswith (u "@@") line).
  - destruct (split_ws line) as [| ? [| ? [| new_range ?]]];
      try (intros [= <-]; simpl; destruct (in_hunk st);
           rewrite ?length_app; simpl; lia).
    destruct (int_of_str _); [| discriminate].
    intros [= <-]; simpl; destruct (in_hunk st); rewrite ?length_app; simpl; lia.
  - intros [= <-]. lia.
Qed.

Lemma hunk_line_raises (target_lines : list Z) (st : hunk_scan) (line : str)
    (e : exn) :
  hunk_line target_lines st line = Raise e -> e = ValueError.
Proof.
  unfold hunk_line. destruct (startswith (u "@@") line); [| discriminate].
  destruct (split_ws line) as [| ? [| ? [| new_range ?]]]; try discriminate.
  destruct (int_of_str _); [discriminate | now intros [= <-]].
Qed.

Lemma hunk_loop_counts (target_lines : list Z) (lines : list str) :
  forall st st',
    for_each (hunk_line target_lines) lines st = Ok st' ->
    decided st' = (decided st + length (filter (startswith (u "@@")) lines))%nat.
Proof.
  induction lines as [| line lines IH]; intros st st' Hrun.
  - injection Hrun as <-. simpl. lia.
  - change (for_each (hunk_line target_lines) (line :: lines) st)
      with (rbind (hunk_line target_lines st line)
              (for_each (hunk_line target_lines) lines)) in Hrun.
    destruct (hunk_line target_lines st line) as [st1 |] eqn:Hstep;
      unfold rbind in Hrun; [| discriminate].
    apply IH in Hrun. apply hunk_line_counts in Hstep.
    change (filter (startswith (u "@@")) (line :: lines))
      with (if startswith (u "@@") line
            then line :: filter (startswith (u "@@")) lines
            else filter (startswith (u "@@")) lines).
    destruct (startswith (u "@@") line); cbn [length]; lia.
Qed.

End HunkFacts.

(** X29: when [_parse_diff_for_target_lines] returns, it returns one
    decision for each line of the diff that starts with ["@@"]; the only
    exception it raises is [ValueError] (a hunk header whose third word
    holds no integer). *)
Theorem one_decision_for_each_hunk_header :
  forall (U : UnicodeDB) (diff_output : str) (target_lines : list Z),
    match _parse_diff_for_target_lines diff_output target_lines with
    | Ok decisions =>
        length decisions
        = length (filter (startswith (u "@@")) (split_on 10 diff_output))
    | Raise e => e = ValueError
    end.
Proof.
  intros U d ts. unfold _parse_diff_for_target_lines.
  destruct (for_each (hunk_line ts) (split_on 10 d) _) as [st | e] eqn:Hrun;
    unfold rbind.
  - apply hunk_loop_counts in Hrun. cbn [hunks_to_accept in_hunk length] in Hrun.
    rewrite Nat.add_0_l in Hrun. rewrite <- Hrun.
    destruct (in_hunk st); rewrite ?length_app; cbn [length]; lia.
  - apply for_each_raises in Hrun. destruct Hrun as (s1 & x & _ & Hb).
    exact (hunk_line_raises ts s1 x e Hb).
Qed.
